(** * Trajectory trail of the dashboard: buffer, interpolation, rendering

    A shallow embedding of [TrajectoryManager], [draw_smooth_trail] and the
    setter API of [RobotTrajectoryWidget]
    (src/dashboard/widgets/RobotTrajectoryWidget.py).

    Conventions of the embedding.
    - Coordinates are Python ints, modelled as [Z].
    - [time.time()] is an input of every call that reads the clock.
    - The lock only serialises access; calls are modelled as atomic steps.
    - An image is its shape and the list of the [cv2.line] calls made on it.
    - The colour channels of the gradient are computed in binary64 with its
      rounding ([binary64]), operation by operation as the source does.
    - The other float arithmetic is modelled by exact rational arithmetic
      followed by the truncation of [int()].  In [add_interpolated_points]
      (binary64) this is what the source computes for coordinates up to
      2^30 in absolute value: the squared distance then fits 64 bits and
      the factors 1/4, 2/4, 3/4 introduce no rounding.  In the smoothing
      (binary32) it is what the source computes for coordinates up to 2^22.
      The statements that depend on computed values carry these ranges as
      hypotheses.
    - Outside the binary32 range the smoothing meets infinities and NaN, on
      which [int()] raises.  These special values and the exceptions are
      modelled, because the error handling of the display tick is about
      them; between 2^22 and the binary32 limit only the rounding of finite
      values is left out. *)

From Stdlib Require Import ZArith QArith Qround Lia Bool List.
From stdpp Require Import base list gmap strings sorting.

Local Open Scope Z_scope.

(** ** Samples and the bounded buffer *)

Definition Position : Type := Z * Z.
Definition Time : Type := Z.

(** A buffer entry [(x, y, timestamp, is_break_start)]. *)
Record Sample : Type := mkSample {
  sample_x : Z;
  sample_y : Z;
  sample_time : Time;
  is_break_start : bool;
}.

Definition sample_xy (s : Sample) : Position := (sample_x s, sample_y s).

(** [collections.deque(maxlen=n).append(x)]: the item is put at the right end
    and, if the deque is then longer than [maxlen], one item is popped from
    the left end. *)
Definition deque_append {A : Type} (maxlen : nat) (d : list A) (x : A) : list A :=
  let d' := d ++ [x] in
  if (maxlen <? length d')%nat then tail d' else d'.

(** The fields of [TrajectoryManager] that any method reads.  The cosmetic
    constants of [__init__] (colours, thickness, start time) are never read. *)
Record TrajectoryManager : Type := mkManager {
  trail_length : nat;
  trajectory_points : list Sample;
  current_position : option Position;
  last_position : option Position;
  interpolate_motion : bool;
  update_count : nat;
  is_running : bool;
  trajectory_break_pending : bool;
}.

Definition TrajectoryManager_init (trail_length : nat) : TrajectoryManager :=
  {| trail_length := trail_length;
     trajectory_points := [];
     current_position := None;
     last_position := None;
     interpolate_motion := true;
     update_count := 0;
     is_running := true;
     trajectory_break_pending := false |}.

Definition default_trail_length : nat := 100.

Definition set_trajectory_points (pts : list Sample) (m : TrajectoryManager) :=
  {| trail_length := trail_length m;
     trajectory_points := pts;
     current_position := current_position m;
     last_position := last_position m;
     interpolate_motion := interpolate_motion m;
     update_count := update_count m;
     is_running := is_running m;
     trajectory_break_pending := trajectory_break_pending m |}.

Definition set_current_position (p : option Position) (m : TrajectoryManager) :=
  {| trail_length := trail_length m;
     trajectory_points := trajectory_points m;
     current_position := p;
     last_position := last_position m;
     interpolate_motion := interpolate_motion m;
     update_count := update_count m;
     is_running := is_running m;
     trajectory_break_pending := trajectory_break_pending m |}.

Definition set_last_position (p : option Position) (m : TrajectoryManager) :=
  {| trail_length := trail_length m;
     trajectory_points := trajectory_points m;
     current_position := current_position m;
     last_position := p;
     interpolate_motion := interpolate_motion m;
     update_count := update_count m;
     is_running := is_running m;
     trajectory_break_pending := trajectory_break_pending m |}.

Definition set_trajectory_break_pending (b : bool) (m : TrajectoryManager) :=
  {| trail_length := trail_length m;
     trajectory_points := trajectory_points m;
     current_position := current_position m;
     last_position := last_position m;
     interpolate_motion := interpolate_motion m;
     update_count := update_count m;
     is_running := is_running m;
     trajectory_break_pending := b |}.

Definition set_update_count (n : nat) (m : TrajectoryManager) :=
  {| trail_length := trail_length m;
     trajectory_points := trajectory_points m;
     current_position := current_position m;
     last_position := last_position m;
     interpolate_motion := interpolate_motion m;
     update_count := n;
     is_running := is_running m;
     trajectory_break_pending := trajectory_break_pending m |}.

(** [self.trajectory_points.append(s)] *)
Definition append_point (s : Sample) (m : TrajectoryManager) : TrajectoryManager :=
  set_trajectory_points
    (deque_append (trail_length m) (trajectory_points m) s) m.

(** ** Interpolation *)

(** [np.sqrt(dx ** 2 + dy ** 2) > 5] on ints: the square root of an integer
    exceeds 5 exactly when the integer exceeds 25. *)
Definition distance_exceeds_5 (start_pos end_pos : Position) : bool :=
  let '(start_x, start_y) := start_pos in
  let '(end_x, end_y) := end_pos in
  25 <? (end_x - start_x) ^ 2 + (end_y - start_y) ^ 2.

(** [int(start + t * (end - start))] with [t = i / (num_interpolated + 1)]:
    the exact value is the fraction below, and [int()] truncates toward
    zero, which is [Z.quot]. *)
Definition interp_coord (start end_ : Z) (i num_interpolated : nat) : Z :=
  let d := Z.of_nat num_interpolated + 1 in
  Z.quot (start * d + Z.of_nat i * (end_ - start)) d.

Definition interp_sample (start_pos end_pos : Position)
    (num_interpolated : nat) (current_time : Time) (i : nat) : Sample :=
  let '(start_x, start_y) := start_pos in
  let '(end_x, end_y) := end_pos in
  mkSample (interp_coord start_x end_x i num_interpolated)
           (interp_coord start_y end_y i num_interpolated)
           current_time false.

Definition add_interpolated_points (start_pos end_pos : Position)
    (num_interpolated : nat) (current_time : Time)
    (m : TrajectoryManager) : TrajectoryManager :=
  let m1 :=
    if distance_exceeds_5 start_pos end_pos then
      (* for i in range(1, num_interpolated + 1) *)
      fold_left
        (fun acc i =>
           append_point
             (interp_sample start_pos end_pos num_interpolated current_time i)
             acc)
        (seq 1 num_interpolated) m
    else m in
  append_point (mkSample (fst end_pos) (snd end_pos) current_time false) m1.

Definition default_num_interpolated : nat := 3.

(** ** The operations of the manager *)

Definition update_position (position : Position) (now : Time)
    (m : TrajectoryManager) : TrajectoryManager :=
  let m1 :=
    if trajectory_break_pending m then
      set_trajectory_break_pending false (set_last_position None m)
    else set_last_position (current_position m) m in
  let m2 := set_current_position (Some position) m1 in
  match last_position m2, interpolate_motion m2 with
  | Some last, true =>
      add_interpolated_points last position default_num_interpolated now m2
  | last, _ =>
      let is_break_start := if last is None then true else false in
      append_point
        (mkSample (fst position) (snd position) now is_break_start) m2
  end.

Definition break_trajectory (m : TrajectoryManager) : TrajectoryManager :=
  set_trajectory_break_pending true m.

Definition clear_trail (m : TrajectoryManager) : TrajectoryManager :=
  set_last_position None
    (set_current_position None (set_trajectory_points [] m)).

Definition get_trajectory_copy (m : TrajectoryManager) : list Sample :=
  trajectory_points m.

(** ** Exceptions *)

Inductive exn : Type := IndexError | ValueError | OverflowError | TypeError.

Inductive result (A : Type) : Type :=
| Ok (a : A)
| Raise (e : exn).
Arguments Ok {A} a.
Arguments Raise {A} e.

Definition bind {A B : Type} (r : result A) (k : A -> result B) : result B :=
  match r with
  | Ok a => k a
  | Raise e => Raise e
  end.

Notation "'let*' x ':=' r 'in' k" := (bind r (fun x => k))
  (at level 10, x name, r at level 100, k at level 200).

Fixpoint mapM {A B : Type} (f : A -> result B) (l : list A) : result (list B) :=
  match l with
  | [] => Ok []
  | a :: l' =>
      let* b := f a in let* bs := mapM f l' in Ok (b :: bs)
  end.

(** ** Floats: finite values and the special values *)

Inductive float : Type :=
| Finite (q : Q)
| Infinity (negative : bool)
| NaN.

Definition Qltb (p q : Q) : bool := negb (Qle_bool q p).

(** [int(f)]: truncation toward zero; infinities and NaN have no integer. *)
Definition int_of_Q (q : Q) : Z := Z.quot (Qnum q) (Zpos (Qden q)).

Definition int_of_float (f : float) : result Z :=
  match f with
  | Finite q => Ok (int_of_Q q)
  | Infinity _ => Raise OverflowError
  | NaN => Raise ValueError
  end.

(** *** Binary64 arithmetic

    A Python float is a binary64, and every operation on floats gives the
    binary64 nearest to the exact result, the one with an even last digit
    when two are equally near.  [binary64 q] is that rounding of the
    rational [q] (the values met here are far from the overflow
    threshold). *)

(** The value [a / b * 2 ^ k] as a fraction. *)
Definition scale2 (a b k : Z) : Z * Z :=
  if 0 <=? k then (a * 2 ^ k, b) else (a, b * 2 ^ (- k)).

(** The integer nearest to [num / den], the even one of two that are
    equally near. *)
Definition round_half_even (num den : Z) : Z :=
  let q := num / den in
  let r := num mod den in
  match 2 * r ?= den with
  | Lt => q
  | Gt => q + 1
  | Eq => if Z.even q then q else q + 1
  end.

(** The exponent [e] with [2 ^ e <= a / b < 2 ^ (e + 1)]. *)
Definition floor_log2 (a b : positive) : Z :=
  let e := Z.log2 (Zpos a) - Z.log2 (Zpos b) in
  let '(num, den) := scale2 (Zpos a) (Zpos b) (- e) in
  if num <? den then e - 1 else e.

(** A significand of 53 bits; below [2 ^ -1022] the spacing stays
    [2 ^ -1074]. *)
Definition binary64_pos (a b : positive) : Q :=
  let shift := Z.min (52 - floor_log2 a b) 1074 in
  let '(num, den) := scale2 (Zpos a) (Zpos b) shift in
  let n := round_half_even num den in
  let '(rnum, rden) := scale2 n 1 (- shift) in
  Qred (rnum # Z.to_pos rden).

Definition binary64 (q : Q) : Q :=
  match Qred q with
  | Qmake (Zpos a) b => binary64_pos a b
  | Qmake (Zneg a) b => (- binary64_pos a b)%Q
  | Qmake Z0 _ => 0%Q
  end.

(** Magnitudes at which a Python int no longer converts to a binary64
    (the conversion raises) and at which a value no longer fits a binary32
    (the cast gives an infinity).  The exact thresholds lie half a unit in
    the last place below these powers of two. *)
Definition float64_limit : Z := 2 ^ 1024.
Definition float32_limit : Z := 2 ^ 128.

(** The cast to float32 of a finite value. *)
Definition float32_of_Q (q : Q) : float :=
  if Qle_bool (inject_Z float32_limit) q then Infinity false
  else if Qle_bool q (inject_Z (- float32_limit)) then Infinity true
  else Finite q.

(** One entry of [np.array(..., dtype=np.float32)] given as a Python int. *)
Definition float32_of_int (z : Z) : result float :=
  if float64_limit <=? Z.abs z then Raise OverflowError
  else Ok (float32_of_Q (inject_Z z)).

Definition float32_add (a b : float) : float :=
  match a, b with
  | NaN, _ | _, NaN => NaN
  | Infinity s, Infinity s' => if Bool.eqb s s' then Infinity s else NaN
  | Infinity s, Finite _ | Finite _, Infinity s => Infinity s
  | Finite p, Finite q => float32_of_Q (p + q)%Q
  end.

Definition float32_div_count (a : float) (n : nat) : float :=
  match a with
  | Finite p => Finite (p / inject_Z (Z.of_nat n))%Q
  | _ => a
  end.

(** [np.mean] of a non-empty float32 slice: the sum of the entries, from
    left to right, divided by their number. *)
Definition np_mean (l : list float) : float :=
  match l with
  | [] => NaN
  | a :: l' => float32_div_count (fold_left float32_add l' a) (length l)
  end.

(** ** Rendering *)

(** An entry of the sequence given to [draw_smooth_trail]: a tuple with at
    least four components carries a break flag, a shorter one only the
    coordinates. *)
Inductive point_data : Type :=
| Tagged (x y : Z) (timestamp : Time) (is_break : bool)
| Plain (x y : Z).

Definition point_of_sample (s : Sample) : point_data :=
  Tagged (sample_x s) (sample_y s) (sample_time s) (is_break_start s).

Definition Color : Type := Z * Z * Z.

(** One call [cv2.line(image, p1, p2, color, thickness, lineType=LINE_AA)].
    The renderer only makes it with both endpoints inside the image. *)
Record Stroke : Type := mkStroke {
  stroke_p1 : Position;
  stroke_p2 : Position;
  stroke_color : Color;
  stroke_thickness : Z;
}.

(** An image: its shape and the lines drawn on it so far, oldest first. *)
Record Image : Type := mkImage {
  shape_height : Z;
  shape_width : Z;
  strokes : list Stroke;
}.

Definition cv2_line (image : Image) (p1 p2 : Position) (color : Color)
    (thickness : Z) : Image :=
  mkImage (shape_height image) (shape_width image)
          (strokes image ++ [mkStroke p1 p2 color thickness]).

(** The first loop of [draw_smooth_trail]: one step on the pair
    [(segments, current_segment)]. *)
Definition split_step (st : list (list Position) * list Position)
    (pd : point_data) : list (list Position) * list Position :=
  let '(segments, current_segment) := st in
  match pd with
  | Tagged x y _ is_break =>
      if is_break && negb (Nat.eqb (length current_segment) 0) then
        (if (1 <? length current_segment)%nat
         then segments ++ [current_segment] else segments,
         [(x, y)])
      else (segments, current_segment ++ [(x, y)])
  | Plain x y => (segments, current_segment ++ [(x, y)])
  end.

Definition split_segments (pts : list point_data) : list (list Position) :=
  let '(segments, current_segment) := fold_left split_step pts ([], []) in
  if (1 <? length current_segment)%nat
  then segments ++ [current_segment] else segments.

(** [np.array(segment, dtype=np.float32)] *)
Definition float32_array (segment : list Position)
    : result (list (float * float)) :=
  mapM (fun p => let* x := float32_of_int (fst p) in
                 let* y := float32_of_int (snd p) in Ok (x, y)) segment.

Definition kernel_size : nat := 3.

(** [segment_points[start:i + 1]] with [start = max(0, i - kernel_size + 1)] *)
Definition window {A : Type} (segment_points : list A) (i : nat) : list A :=
  let start := Nat.max 0 (i + 1 - kernel_size) in
  take (i + 1 - start) (drop start segment_points).

Definition smoothed_point (segment_points : list (float * float)) (i : nat)
    : result Position :=
  let avg_x := np_mean (map fst (window segment_points i)) in
  let avg_y := np_mean (map snd (window segment_points i)) in
  let* x := int_of_float avg_x in let* y := int_of_float avg_y in Ok (x, y).

Definition smooth_segment (segment : list Position) : result (list Position) :=
  let* segment_points := float32_array segment in
  mapM (smoothed_point segment_points) (seq 0 (length segment_points)).

(** [progress = (i + 1) / total].  The comparisons with 0.3 and 0.7 are
    decided on the exact fractions: a fraction with a denominator as small
    as a trail length never rounds across the nearest binary64 of 3/10 or
    7/10. *)
Definition progress (i total : nat) : Q :=
  (Z.of_nat (i + 1) # Pos.of_nat total)%Q.

(** The colours.  [progress] is the exact fraction; the float the source
    holds is the binary64 of it, and the fade factor and every channel are
    computed from that float in binary64, operation by operation, before
    [int()] truncates. *)
Definition low_band_color (progress : Q) : Color :=
  let fade_factor := binary64 (binary64 progress / binary64 (3 # 10)) in
  (int_of_Q (binary64 (200 * fade_factor)),
   int_of_Q (binary64 (100 * fade_factor)),
   int_of_Q (binary64 (50 * fade_factor))).

Definition mid_band_color (progress : Q) : Color :=
  let fade_factor :=
    binary64 (binary64 (binary64 progress - binary64 (3 # 10))
              / binary64 (4 # 10)) in
  (int_of_Q (binary64 (156 + binary64 (100 * fade_factor))),
   int_of_Q (binary64 (39 + binary64 (50 * fade_factor))),
   int_of_Q (binary64 (176 + binary64 (79 * fade_factor)))).

Definition high_band_color (progress : Q) : Color :=
  let fade_factor :=
    binary64 (binary64 (binary64 progress - binary64 (7 # 10))
              / binary64 (3 # 10)) in
  (int_of_Q (binary64 (255 * fade_factor)),
   int_of_Q (binary64 (89 * fade_factor)),
   int_of_Q (binary64 (255 * fade_factor))).

(** Which of the three formulas applies is decided on the exact fraction
    (see [progress]). *)
Definition trail_color (progress : Q) : Color :=
  if Qltb progress (3 # 10) then low_band_color progress
  else if Qltb progress (7 # 10) then mid_band_color progress
  else high_band_color progress.

(** [max(1, int(2 + progress * 4))], on the exact fraction: the sum is an
    integer only for a progress that is a multiple of a quarter, which
    binary64 holds exactly, and is otherwise too far from one for the
    rounding to reach it. *)
Definition trail_thickness (progress : Q) : Z :=
  Z.max 1 (int_of_Q (2 + progress * 4)%Q).

(** The same two decisions as the source takes them, on the float: used
    only to compare them with the exact ones ([decisions_are_exact]). *)
Definition float_band (progress : Q) : nat :=
  if Qltb (binary64 progress) (binary64 (3 # 10)) then 0
  else if Qltb (binary64 progress) (binary64 (7 # 10)) then 1
  else 2.

Definition exact_band (progress : Q) : nat :=
  if Qltb progress (3 # 10) then 0
  else if Qltb progress (7 # 10) then 1
  else 2.

Definition float_thickness (progress : Q) : Z :=
  Z.max 1 (int_of_Q (binary64 (2 + binary64 (binary64 progress * 4)))).

Definition in_image (image : Image) (p : Position) : bool :=
  (0 <=? fst p) && (fst p <? shape_width image) &&
  (0 <=? snd p) && (snd p <? shape_height image).

Definition nth_point (l : list Position) (i : nat) : Position :=
  nth i l (0, 0).

(** The gradient pass over one smoothed segment. *)
Definition draw_gradient (smoothed_points : list Position) (image : Image)
    : Image :=
  let total := length smoothed_points in
  fold_left
    (fun img i =>
       let p1 := nth_point smoothed_points i in
       let p2 := nth_point smoothed_points (i + 1) in
       if in_image img p1 && in_image img p2 then
         cv2_line img p1 p2 (trail_color (progress i total))
                  (trail_thickness (progress i total))
       else img)
    (seq 0 (total - 1)) image.

Definition halo_color : Color := (255, 200, 255).
Definition core_color : Color := (255, 100, 255).

(** The highlight pass over the last five smoothed points. *)
Definition draw_recent (smoothed_points : list Position) (image : Image)
    : Image :=
  if (5 <? length smoothed_points)%nat then
    let recent_points := drop (length smoothed_points - 5) smoothed_points in
    fold_left
      (fun img i =>
         let p1 := nth_point recent_points i in
         let p2 := nth_point recent_points (i + 1) in
         if in_image img p1 && in_image img p2 then
           cv2_line (cv2_line img p1 p2 halo_color 6) p1 p2 core_color 2
         else img)
      (seq 0 (length recent_points - 1)) image
  else image.

(** The body of [for segment in segments]: the image after it, and the
    exception that left it, if any.  The image is modified in place, so what
    was drawn before an exception stays. *)
Definition draw_segment (image : Image) (segment : list Position)
    : Image * option exn :=
  if (length segment <? 2)%nat then (image, None)
  else
    match smooth_segment segment with
    | Raise e => (image, Some e)
    | Ok smoothed_points =>
        (draw_recent smoothed_points (draw_gradient smoothed_points image),
         None)
    end.

Fixpoint draw_segments (image : Image) (segments : list (list Position))
    : Image * option exn :=
  match segments with
  | [] => (image, None)
  | segment :: rest =>
      match draw_segment image segment with
      | (image', None) => draw_segments image' rest
      | (image', Some e) => (image', Some e)
      end
  end.

Definition draw_smooth_trail (image : Image)
    (trajectory_points_with_breaks : list point_data) : Image * option exn :=
  if (length trajectory_points_with_breaks <? 2)%nat then (image, None)
  else draw_segments image (split_segments trajectory_points_with_breaks).

(** ** The widget *)

(** The state of [RobotTrajectoryWidget] that the setter API and the display
    tick read or write.  [image_label] is the pixmap last put on the label;
    the texts of the two time metrics do not depend on the trail and are
    left out. *)
Record RobotTrajectoryWidget : Type := mkWidget {
  image_width : Z;
  image_height : Z;
  base_frame : option Image;
  current_frame : option Image;
  trajectory_manager : TrajectoryManager;
  drawing_enabled : bool;
  image_label : option Image;
}.

Definition set_trajectory_manager (m : TrajectoryManager)
    (w : RobotTrajectoryWidget) : RobotTrajectoryWidget :=
  {| image_width := image_width w;
     image_height := image_height w;
     base_frame := base_frame w;
     current_frame := current_frame w;
     trajectory_manager := m;
     drawing_enabled := drawing_enabled w;
     image_label := image_label w |}.

Definition set_current_frame (f : option Image)
    (w : RobotTrajectoryWidget) : RobotTrajectoryWidget :=
  {| image_width := image_width w;
     image_height := image_height w;
     base_frame := base_frame w;
     current_frame := f;
     trajectory_manager := trajectory_manager w;
     drawing_enabled := drawing_enabled w;
     image_label := image_label w |}.

Definition set_drawing_enabled (b : bool)
    (w : RobotTrajectoryWidget) : RobotTrajectoryWidget :=
  {| image_width := image_width w;
     image_height := image_height w;
     base_frame := base_frame w;
     current_frame := current_frame w;
     trajectory_manager := trajectory_manager w;
     drawing_enabled := b;
     image_label := image_label w |}.

Definition set_image_label (f : option Image)
    (w : RobotTrajectoryWidget) : RobotTrajectoryWidget :=
  {| image_width := image_width w;
     image_height := image_height w;
     base_frame := base_frame w;
     current_frame := current_frame w;
     trajectory_manager := trajectory_manager w;
     drawing_enabled := drawing_enabled w;
     image_label := f |}.

(** [__init__] with the black placeholder of [load_placeholder_image]. *)
Definition RobotTrajectoryWidget_init (image_width image_height : Z)
    (trail_length : nat) : RobotTrajectoryWidget :=
  let placeholder_image := mkImage image_height image_width [] in
  {| image_width := image_width;
     image_height := image_height;
     base_frame := Some placeholder_image;
     current_frame := Some placeholder_image;
     trajectory_manager := TrajectoryManager_init trail_length;
     drawing_enabled := false;
     image_label := Some placeholder_image |}.

(** A value found in a message.  An object that is neither an int nor a
    float is represented by what [int()] does on it. *)
Inductive PyValue : Type :=
| PyInt (z : Z)
| PyFloat (f : float)
| PyObject (int_outcome : result Z).

Definition py_int (v : PyValue) : result Z :=
  match v with
  | PyInt z => Ok z
  | PyFloat f => int_of_float f
  | PyObject r => r
  end.

(** [message.get(key, 0)] *)
Definition message_get (message : gmap string PyValue) (key : string)
    : PyValue :=
  default (PyInt 0) (message !! key).

(** The setters return the widget after the call and the exception that
    left the call, if any. *)
Definition update_trajectory_point (message : option (gmap string PyValue))
    (now : Time) (w : RobotTrajectoryWidget)
    : RobotTrajectoryWidget * option exn :=
  match message with
  | None => (w, None)
  | Some message =>
      let x := message_get message "x" in
      let y := message_get message "y" in
      match py_int x with
      | Raise e => (w, Some e)
      | Ok ix =>
          match py_int y with
          | Raise e => (w, Some e)
          | Ok iy =>
              (set_trajectory_manager
                 (update_position (ix, iy) now (trajectory_manager w)) w,
               None)
          end
      end
  end.

Definition widget_break_trajectory (w : RobotTrajectoryWidget)
    : RobotTrajectoryWidget :=
  set_trajectory_manager (break_trajectory (trajectory_manager w)) w.

Definition enable_drawing (w : RobotTrajectoryWidget) : RobotTrajectoryWidget :=
  set_drawing_enabled true w.

Definition disable_drawing (w : RobotTrajectoryWidget) : RobotTrajectoryWidget :=
  set_trajectory_manager (clear_trail (trajectory_manager w))
    (set_drawing_enabled false w).

Definition _update_label_from_frame (w : RobotTrajectoryWidget)
    : RobotTrajectoryWidget :=
  match current_frame w with
  | None => w
  | Some frame => set_image_label (Some frame) w
  end.

(** [except (IndexError, ValueError): pass] *)
Definition caught (e : exn) : bool :=
  match e with
  | IndexError | ValueError => true
  | _ => false
  end.

Definition update_display (w : RobotTrajectoryWidget)
    : RobotTrajectoryWidget * option exn :=
  match base_frame w with
  | None => (w, None)
  | Some base =>
      let trajectory_points_copy :=
        get_trajectory_copy (trajectory_manager w) in
      let '(frame, raised) :=
        if drawing_enabled w
           && negb (Nat.eqb (length trajectory_points_copy) 0)
        then
          match draw_smooth_trail base
                  (map point_of_sample trajectory_points_copy) with
          | (frame, Some e) =>
              if caught e then (frame, None) else (frame, Some e)
          | (frame, None) => (frame, None)
          end
        else (base, None) in
      let w1 := set_current_frame (Some frame) w in
      match raised with
      | Some e => (w1, Some e)
      | None =>
          let w2 := _update_label_from_frame w1 in
          (set_trajectory_manager
             (set_update_count (S (update_count (trajectory_manager w2)))
                (trajectory_manager w2)) w2,
           None)
      end
  end.

(** ** Notions used in the statements *)

(** The last [n] items of a list, in their order. *)
Definition keep_last {A : Type} (n : nat) (l : list A) : list A :=
  drop (length l - n) l.

(** Appending several samples, one [append] after the other. *)
Definition append_all (l : list Sample) (m : TrajectoryManager)
    : TrajectoryManager :=
  fold_left (fun acc s => append_point s acc) l m.

(** The position that [update_position] takes as the previous one. *)
Definition previous_position (m : TrajectoryManager) : option Position :=
  if trajectory_break_pending m then None else current_position m.

Definition destination (position : Position) (now : Time) (is_break : bool)
    : Sample :=
  mkSample (fst position) (snd position) now is_break.

(** The samples one call [update_position(position)] hands to the buffer,
    as the specification words them. *)
Definition appended_samples (position : Position) (now : Time)
    (m : TrajectoryManager) : list Sample :=
  match previous_position m with
  | None => [destination position now true]
  | Some last =>
      if interpolate_motion m then
        (if distance_exceeds_5 last position then
           map (interp_sample last position default_num_interpolated now)
               (seq 1 default_num_interpolated)
         else [])
        ++ [destination position now false]
      else [destination position now false]
  end.

(** The manager after the two position fields and the flag are updated and
    before anything is appended. *)
Definition positions_updated (position : Position) (m : TrajectoryManager)
    : TrajectoryManager :=
  set_current_position (Some position)
    (set_trajectory_break_pending false
       (set_last_position (previous_position m) m)).

(** Calls made by a producer. *)
Inductive call : Type :=
| UpdatePosition (position : Position) (now : Time)
| BreakTrajectory.

(** Coordinates on which the binary64 arithmetic of
    [add_interpolated_points] is exact: the squared distance fits 64 bits
    and the interpolated values have no rounding. *)
Definition exact_range (z : Z) : Prop := Z.abs z <= 2 ^ 30.

Definition position_in_range (p : Position) : Prop :=
  exact_range (fst p) /\ exact_range (snd p).

Definition call_in_range (c : call) : Prop :=
  match c with
  | UpdatePosition position _ => position_in_range position
  | BreakTrajectory => True
  end.

Definition step (c : call) (m : TrajectoryManager) : TrajectoryManager :=
  match c with
  | UpdatePosition position now => update_position position now m
  | BreakTrajectory => break_trajectory m
  end.

Definition run (calls : list call) (m : TrajectoryManager)
    : TrajectoryManager :=
  fold_left (fun acc c => step c acc) calls m.

(** Every sample appended during a run, in the order of the appends. *)
Fixpoint appended_log (calls : list call) (m : TrajectoryManager)
    : list Sample :=
  match calls with
  | [] => []
  | c :: calls' =>
      match c with
      | UpdatePosition position now => appended_samples position now m
      | BreakTrajectory => []
      end ++ appended_log calls' (step c m)
  end.


(** [x] lies between [a] and [b], whichever of the two is smaller. *)
Definition between (a b x : Z) : Prop := Z.min a b <= x <= Z.max a b.

(** [q] lies in the box spanned by the two endpoints and is neither. *)
Definition strictly_between (start_pos end_pos q : Position) : Prop :=
  between (fst start_pos) (fst end_pos) (fst q)
  /\ between (snd start_pos) (snd end_pos) (snd q)
  /\ q <> start_pos /\ q <> end_pos.

(** [x] is the integer part of the point a fraction [i / 4] of the way from
    [start] to [end_]. *)
Definition at_quarter (start end_ : Z) (i : Z) (x : Z) : Prop :=
  Z.abs (4 * x - (4 * start + i * (end_ - start))) < 4
  /\ Z.abs (4 * x) <= Z.abs (4 * start + i * (end_ - start)).

(** [s] is the [i]-th of the three points interpolated from [start_pos] to
    [end_pos] at time [now]. *)
Definition interpolated_at (start_pos end_pos : Position) (now : Time)
    (i : Z) (s : Sample) : Prop :=
  at_quarter (fst start_pos) (fst end_pos) i (sample_x s)
  /\ at_quarter (snd start_pos) (snd end_pos) i (sample_y s)
  /\ strictly_between start_pos end_pos (sample_xy s)
  /\ sample_time s = now
  /\ is_break_start s = false.

(** Two managers agree on everything but the break flag. *)
Definition same_but_break_flag (m m' : TrajectoryManager) : Prop :=
  trail_length m' = trail_length m
  /\ trajectory_points m' = trajectory_points m
  /\ current_position m' = current_position m
  /\ last_position m' = last_position m
  /\ interpolate_motion m' = interpolate_motion m
  /\ update_count m' = update_count m
  /\ is_running m' = is_running m.

(** *** Segments, as the specification words them *)

Definition is_break_point (pd : point_data) : bool :=
  match pd with
  | Tagged _ _ _ is_break => is_break
  | Plain _ _ => false
  end.

Definition point_xy (pd : point_data) : Position :=
  match pd with
  | Tagged x y _ _ => (x, y)
  | Plain x y => (x, y)
  end.

Definition starts_with_break (g : list point_data) : bool :=
  match g with
  | pd :: _ => is_break_point pd
  | [] => false
  end.

(** The group [g] put in front of the groups [gs]: it is joined to the first
    of them unless that one starts with a break. *)
Definition cons_group (g : list point_data) (gs : list (list point_data))
    : list (list point_data) :=
  match gs with
  | [] => [g]
  | g' :: gs' =>
      if starts_with_break g' then g :: g' :: gs' else (g ++ g') :: gs'
  end.

(** The snapshot cut in front of every sample tagged as a break start,
    the very first sample excepted. *)
Fixpoint split_at_breaks (pts : list point_data) : list (list point_data) :=
  match pts with
  | [] => []
  | pd :: rest => cons_group [pd] (split_at_breaks rest)
  end.

Definition longer_than_one {A : Type} (l : list A) : bool :=
  (1 <? length l)%nat.

(** The groups of more than one sample, reduced to their coordinates. *)
Definition segments_by_breaks (pts : list point_data) : list (list Position) :=
  map (map point_xy) (List.filter longer_than_one (split_at_breaks pts)).

(** [p1] and [p2] are neighbours in [l]. *)
Definition consecutive_in (l : list Position) (p1 p2 : Position) : Prop :=
  exists i, nth_error l i = Some p1 /\ nth_error l (S i) = Some p2.

(** *** The strokes of one segment, as a list *)

Definition same_shape (a b : Image) : Prop :=
  shape_height a = shape_height b /\ shape_width a = shape_width b.

Definition add_strokes (image : Image) (l : list Stroke) : Image :=
  mkImage (shape_height image) (shape_width image) (strokes image ++ l).

Definition stroke_in_image (image : Image) (s : Stroke) : bool :=
  in_image image (stroke_p1 s) && in_image image (stroke_p2 s).

Definition gradient_stroke (smoothed_points : list Position) (i : nat)
    : Stroke :=
  mkStroke (nth_point smoothed_points i) (nth_point smoothed_points (i + 1))
           (trail_color (progress i (length smoothed_points)))
           (trail_thickness (progress i (length smoothed_points))).

(** The gradient lines of a segment with both endpoints inside the image. *)
Definition gradient_strokes (image : Image) (smoothed_points : list Position)
    : list Stroke :=
  List.filter (stroke_in_image image)
    (map (gradient_stroke smoothed_points)
         (seq 0 (length smoothed_points - 1))).

Definition recent_pair (recent_points : list Position) (i : nat)
    : list Stroke :=
  [mkStroke (nth_point recent_points i) (nth_point recent_points (i + 1))
            halo_color 6;
   mkStroke (nth_point recent_points i) (nth_point recent_points (i + 1))
            core_color 2].

Definition recent_strokes (image : Image) (smoothed_points : list Position)
    : list Stroke :=
  if (5 <? length smoothed_points)%nat then
    let recent_points := drop (length smoothed_points - 5) smoothed_points in
    flat_map
      (fun i => List.filter (stroke_in_image image)
                  (recent_pair recent_points i))
      (seq 0 (length recent_points - 1))
  else [].

(** The exception raised while a segment is smoothed, if any. *)
Definition segment_error (segment : list Position) : option exn :=
  if (length segment <? 2)%nat then None
  else match smooth_segment segment with
       | Raise e => Some e
       | Ok _ => None
       end.

Definition segment_strokes (image : Image) (segment : list Position)
    : list Stroke :=
  if (length segment <? 2)%nat then []
  else match smooth_segment segment with
       | Raise _ => []
       | Ok smoothed_points =>
           gradient_strokes image smoothed_points
           ++ recent_strokes image smoothed_points
       end.

(** The segments the loop gets through before an exception leaves it, and
    that exception. *)
Fixpoint drawn_segments (segments : list (list Position))
    : list (list Position) :=
  match segments with
  | [] => []
  | segment :: rest =>
      match segment_error segment with
      | Some _ => []
      | None => segment :: drawn_segments rest
      end
  end.

Fixpoint first_error (segments : list (list Position)) : option exn :=
  match segments with
  | [] => None
  | segment :: rest =>
      match segment_error segment with
      | Some e => Some e
      | None => first_error rest
      end
  end.

(** *** Smoothing, as the specification words it *)

(** Coordinates on which float32 arithmetic is exact. *)
Definition pixel_range (z : Z) : Prop := Z.abs z <= 2 ^ 22.

Definition in_pixel_range (p : Position) : Prop :=
  pixel_range (fst p) /\ pixel_range (snd p).

Definition sum_Z (l : list Z) : Z := fold_right Z.add 0 l.

(** The average of the points of a window, coordinate by coordinate, with
    the truncation of [int()]. *)
Definition window_average (w : list Position) : Position :=
  (Z.quot (sum_Z (map fst w)) (Z.of_nat (length w)),
   Z.quot (sum_Z (map snd w)) (Z.of_nat (length w))).

Definition float32_point (p : Position) : float * float :=
  (Finite (inject_Z (fst p)), Finite (inject_Z (snd p))).

(** *** The display tick, as a function of the snapshot *)

(** The frame a tick leaves in [current_frame]: the background with the
    strokes of the segments that were drawn. *)
Definition tick_frame (base : Image) (enabled : bool)
    (pts : list point_data) : Image :=
  if enabled then
    add_strokes base
      (flat_map (segment_strokes base) (drawn_segments (split_segments pts)))
  else base.

(** The exception raised by the drawing of a tick, if any. *)
Definition tick_error (enabled : bool) (pts : list point_data) : option exn :=
  if enabled then first_error (split_segments pts) else None.

(** What the tick does after the drawing when no exception leaves it. *)
Definition tick_completed (frame : Image) (w : RobotTrajectoryWidget)
    : RobotTrajectoryWidget :=
  set_trajectory_manager
    (set_update_count (S (update_count (trajectory_manager w)))
       (trajectory_manager w))
    (set_image_label (Some frame) (set_current_frame (Some frame) w)).

(** *** Notions used in the further properties of the manager *)

(** Everything a producer or the widget can do to a manager. *)
Inductive operation : Type :=
| OpUpdate (position : Position) (now : Time)
| OpBreak
| OpClear.

Definition apply_operation (op : operation) (m : TrajectoryManager)
    : TrajectoryManager :=
  match op with
  | OpUpdate position now => update_position position now m
  | OpBreak => break_trajectory m
  | OpClear => clear_trail m
  end.

Definition apply_operations (ops : list operation) (m : TrajectoryManager)
    : TrajectoryManager :=
  fold_left (fun acc op => apply_operation op acc) ops m.

Definition operation_in_range (op : operation) : Prop :=
  match op with
  | OpUpdate position _ => position_in_range position
  | _ => True
  end.

(** The clock readings of the operations that read the clock, in order. *)
Definition operation_times (ops : list operation) : list Time :=
  flat_map (fun op => match op with
                      | OpUpdate _ now => [now]
                      | _ => []
                      end) ops.

Definition within_capacity (m : TrajectoryManager) : Prop :=
  (length (trajectory_points m) <= trail_length m)%nat.

(** The newest buffered sample is the current position; with no current
    position the buffer is empty. *)
Definition newest_is_current (m : TrajectoryManager) : Prop :=
  match current_position m with
  | None => trajectory_points m = []
  | Some p =>
      exists s, last (trajectory_points m) = Some s /\ sample_xy s = p
  end.

(** Two managers that no later call can tell apart by the buffer. *)
Definition same_future (m1 m2 : TrajectoryManager) : Prop :=
  trail_length m1 = trail_length m2
  /\ trajectory_points m1 = trajectory_points m2
  /\ current_position m1 = current_position m2
  /\ interpolate_motion m1 = interpolate_motion m2
  /\ previous_position m1 = previous_position m2.

(** *** Notions used in the further properties of the renderer *)

(** [p] lies in the box with corners [lo] and [hi]. *)
Definition in_box (lo hi p : Position) : Prop :=
  fst lo <= fst p <= fst hi /\ snd lo <= snd p <= snd hi.

(** All the gradient lines and, for more than five points, the eight
    highlight strokes over the last five points: what is drawn of a
    smoothed segment when nothing is left out. *)
Definition all_strokes (smoothed_points : list Position) : list Stroke :=
  map (gradient_stroke smoothed_points)
      (seq 0 (length smoothed_points - 1))
  ++ (if (5 <? length smoothed_points)%nat then
        flat_map
          (recent_pair
             (drop (length smoothed_points - 5) smoothed_points))
          (seq 0 4)
      else []).

(** *** Notions used in the further properties of the widget *)

(** Calls an adapter makes on the widget, and the timer's tick.  A point
    message carries both coordinates as ints. *)
Inductive widget_call : Type :=
| CallPoint (x y : Z) (now : Time)
| CallBreak
| CallEnable
| CallDisable
| CallTick.

Definition point_message (x y : Z) : gmap string PyValue :=
  <["x"%string := PyInt x]> (<["y"%string := PyInt y]> ∅).

Definition widget_step (c : widget_call) (w : RobotTrajectoryWidget)
    : RobotTrajectoryWidget :=
  match c with
  | CallPoint x y now =>
      fst (update_trajectory_point (Some (point_message x y)) now w)
  | CallBreak => widget_break_trajectory w
  | CallEnable => enable_drawing w
  | CallDisable => disable_drawing w
  | CallTick => fst (update_display w)
  end.

Definition widget_run (calls : list widget_call) (w : RobotTrajectoryWidget)
    : RobotTrajectoryWidget :=
  fold_left (fun acc c => widget_step c acc) calls w.

Definition widget_call_in_range (c : widget_call) : Prop :=
  match c with
  | CallPoint x y _ => in_pixel_range (x, y)
  | _ => True
  end.

(** Every buffered sample and the current position are in the range where
    the float32 smoothing is exact. *)
Definition trail_in_pixel_range (m : TrajectoryManager) : Prop :=
  Forall (fun s => in_pixel_range (sample_xy s)) (trajectory_points m)
  /\ (forall p, current_position m = Some p -> in_pixel_range p).

(** ** More of the widget: background frames and the icon *)

(** The value under ["image"] in a message given to [set_image]: [None],
    a frame, or an object that [cv2.resize] rejects.  A frame is an 8-bit
    array of three channels (BGR) of the given height and width, which is
    what [cv2.imread] and a camera deliver and what the label update,
    [cv2.cvtColor(..., COLOR_BGR2RGB)] into a [Format_RGB888] image, shows.
    An array of another depth or channel count is no value of this type: the
    frames of the widget are images that can be shown ([Image]).  The pixels
    of a frame are not part of an [Image], which is a shape and a list of
    strokes. *)
Inductive PyFrame : Type :=
| FrameNone
| FrameBGR (height width : Z)
| FrameOther.

(** The argument of [set_image]: [None], a dict, or another object. *)
Inductive ImageMessage : Type :=
| MessageNone
| MessageDict (d : gmap string PyFrame)
| MessageOther.

(** [load_placeholder_image] with no placeholder file, as in
    [RobotTrajectoryWidget_init]: a black image of the size of the widget
    becomes the background and the current frame and is put on the label. *)
Definition load_placeholder_image (w : RobotTrajectoryWidget)
    : RobotTrajectoryWidget :=
  let placeholder_image := mkImage (image_height w) (image_width w) [] in
  {| image_width := image_width w;
     image_height := image_height w;
     base_frame := Some placeholder_image;
     current_frame := Some placeholder_image;
     trajectory_manager := trajectory_manager w;
     drawing_enabled := drawing_enabled w;
     image_label := Some placeholder_image |}.

(** [cv2.resize(frame, (width, height))]: for a BGR frame an image of the
    requested size, which has the depth and the channels of the frame; [None]
    where the call raises (an empty source, an empty target size, something
    that is no array). *)
Definition cv2_resize (frame : PyFrame) (width height : Z) : option Image :=
  match frame with
  | FrameBGR h w =>
      if (0 <? h) && (0 <? w) && (0 <? width) && (0 <? height)
      then Some (mkImage height width [])
      else None
  | _ => None
  end.

Definition set_base_frame (f : option Image) (w : RobotTrajectoryWidget)
    : RobotTrajectoryWidget :=
  {| image_width := image_width w;
     image_height := image_height w;
     base_frame := f;
     current_frame := current_frame w;
     trajectory_manager := trajectory_manager w;
     drawing_enabled := drawing_enabled w;
     image_label := image_label w |}.

Definition set_image (message : ImageMessage) (w : RobotTrajectoryWidget)
    : RobotTrajectoryWidget :=
  match message with
  | MessageNone | MessageOther => w
  | MessageDict d =>
      match d !! "image"%string with
      | None => w
      | Some FrameNone => load_placeholder_image w
      | Some frame =>
          match cv2_resize frame (image_width w) (image_height w) with
          | Some resized =>
              set_trajectory_manager (clear_trail (trajectory_manager w))
                (set_base_frame (Some resized) w)
          | None => load_placeholder_image w
          end
      end
  end.

(** An icon: an image array as OpenCV has them, two-dimensional
    ([icon_channels] is [None]) or three-dimensional with a channel count.
    [icon.shape[:2]] is its height and width. *)
Record Icon : Type := mkIcon {
  icon_height : Z;
  icon_width : Z;
  icon_channels : option Z;
}.

(** The block [image[y1:y2, x1:x2]] that is written. *)
Record Block : Type := mkBlock {
  block_x1 : Z;
  block_y1 : Z;
  block_x2 : Z;
  block_y2 : Z;
}.

(** [len(icon.shape) == 3 and icon.shape[2] == 4] *)
Definition has_alpha (icon : Icon) : bool :=
  match icon_channels icon with
  | Some channels => channels =? 4
  | None => false
  end.

(** One dimension of an assigned array against the dimension of the target
    it is aligned with: numpy stretches a dimension of 1, any other has to
    be equal. *)
Definition dim_fits (source target : Z) : bool :=
  (source =? target) || (source =? 1).

(** [image[y1:y2, x1:x2] = icon] on a three-channel image, where the target
    has the shape [(h, w, 3)]: the dimensions of the icon are aligned with
    the last dimensions of the target, and the assignment raises ValueError
    unless each of them fits. *)
Definition broadcasts_to_block (icon : Icon) : bool :=
  let h := icon_height icon in
  let w := icon_width icon in
  match icon_channels icon with
  | None => dim_fits w 3 && dim_fits h w
  | Some channels => dim_fits channels 3 && dim_fits w w && dim_fits h h
  end.

(** [draw_icon_at_position] on a three-channel image, as the frames of the
    widget are: the block of the image that is written, if any.  A
    four-channel icon is blended into the block channel by channel, on
    slices that all have the shape [(h, w)]; any other icon is assigned to
    the block, which raises when its shape does not fit.  The pixel values
    written are not modelled. *)
Definition draw_icon_at_position (icon : option Icon) (image : option Image)
    (position : option Position) : result (option Block) :=
  match icon, image, position with
  | None, _, _ => Raise ValueError
  | Some _, None, _ => Raise ValueError
  | Some _, Some _, None => Raise ValueError
  | Some icon, Some image, Some (x, y) =>
      let image_width := shape_width image in
      let image_height := shape_height image in
      let h := icon_height icon in
      let w := icon_width icon in
      let x1 := x - w / 2 in
      let y1 := y - h / 2 in
      let x2 := x1 + w in
      let y2 := y1 + h in
      if (0 <=? x1) && (0 <=? y1) && (x2 <=? image_width)
         && (y2 <=? image_height)
      then
        if has_alpha icon then Ok (Some (mkBlock x1 y1 x2 y2))
        else if broadcasts_to_block icon
             then Ok (Some (mkBlock x1 y1 x2 y2))
             else Raise ValueError
      else Ok None
  end.

(** The block an icon takes when it is centred at a position, and whether
    that block lies inside the image. *)
Definition icon_block (icon : Icon) (position : Position) : Block :=
  let x1 := fst position - icon_width icon / 2 in
  let y1 := snd position - icon_height icon / 2 in
  mkBlock x1 y1 (x1 + icon_width icon) (y1 + icon_height icon).

Definition block_inside (image : Image) (block : Block) : Prop :=
  0 <= block_x1 block /\ 0 <= block_y1 block
  /\ block_x2 block <= shape_width image
  /\ block_y2 block <= shape_height image.

(** The message brings a BGR frame that [cv2.resize] accepts. *)
Definition brings_frame (message : ImageMessage) (w : RobotTrajectoryWidget)
    (resized : Image) : Prop :=
  exists d frame,
    message = MessageDict d
    /\ d !! "image"%string = Some frame
    /\ cv2_resize frame (image_width w) (image_height w) = Some resized.

(** ** The dashboard around the widget: cards and grids
    (src/dashboard/DashboardWidget.py, src/dashboard/layout/layout_manager.py)

    Widgets are opaque values of a type [W].  A grid layout is the list of
    the [grid.addWidget] calls made on it, in the order of the calls. *)

(** [range(n)] *)
Definition range (n : Z) : list Z := map Z.of_nat (seq 0 (Z.to_nat n)).

(** [(r, c) for r in range(rows) for c in range(cols)] *)
Definition cells (rows cols : Z) : list (Z * Z) :=
  flat_map (fun r => map (fun c => (r, c)) (range cols)) (range rows).

Definition in_grid (rows cols : Z) (cell : Z * Z) : Prop :=
  0 <= fst cell < rows /\ 0 <= snd cell < cols.

Section Dashboard.
Context {W : Type}.

(** What is put in a cell: a widget of the caller or a placeholder frame
    made by [_create_placeholder(config_type, row, col)]. *)
Inductive GridItem : Type :=
| WidgetItem (widget : W)
| PlaceholderItem (config_type : string) (row col : Z).

(** [grid.addWidget(item, row, col, row_span, col_span)] *)
Record Placement : Type := mkPlacement {
  placed_item : GridItem;
  placed_row : Z;
  placed_col : Z;
  placed_row_span : Z;
  placed_col_span : Z;
}.

Definition placed_cell (p : Placement) : Z * Z :=
  (placed_row p, placed_col p).

(** *** [DashboardWidget._register_cards] and the lookup by id *)

(** An entry [(widget, card_id, row, col)] of the [cards] argument. *)
Definition CardInput : Type := W * Z * option Z * option Z.

(** The loop of [_register_cards] on the dict [self._cards] and the list
    [result]. *)
Definition _register_cards (cards_input : list CardInput)
    (cards : gmap Z W)
    : gmap Z W * list (W * option Z * option Z) :=
  fold_left
    (fun (st : gmap Z W * list (W * option Z * option Z)) entry =>
       let '(cards, result) := st in
       let '(widget, card_id, row, col) := entry in
       (<[card_id := widget]> cards, result ++ [(widget, row, col)]))
    cards_input (cards, []).

(** [self._cards.get(card_id)] *)
Definition get_card (cards : gmap Z W) (card_id : Z) : option W :=
  cards !! card_id.

Definition card_id_of (entry : CardInput) : Z := snd (fst (fst entry)).
Definition card_widget_of (entry : CardInput) : W := fst (fst (fst entry)).

(** *** [DashboardLayoutManager._create_preview_aux_grid] *)

Definition _create_preview_aux_grid (rows cols : Z)
    (show_placeholders : bool) : list Placement :=
  if show_placeholders then
    map (fun idx =>
           (* r, c = divmod(idx, cols) *)
           let r := idx / cols in
           let c := idx mod cols in
           mkPlacement (PlaceholderItem "PreviewAux" r c) r c 1 1)
        (range (rows * cols))
  else [].

(** *** [DashboardLayoutManager._create_glue_cards_container] *)

(** Pass 1 on one entry [(widget, row_or_None, col_or_None)]; the state is
    the grid, the set [occupied] and [auto_queue]. *)
Definition cards_pass1_step
    (st : list Placement * gset (Z * Z) * list W)
    (entry : W * option Z * option Z)
    : list Placement * gset (Z * Z) * list W :=
  let '(grid, occupied, auto_queue) := st in
  let '(widget, card_row, card_col) := entry in
  match card_row, card_col with
  | Some card_row, Some card_col =>
      (grid ++ [mkPlacement (WidgetItem widget) card_row card_col 1 1],
       {[ (card_row, card_col) ]} ∪ occupied, auto_queue)
  | _, _ => (grid, occupied, auto_queue ++ [widget])
  end.

Definition free_cells (rows cols : Z) (occupied : gset (Z * Z))
    : list (Z * Z) :=
  List.filter (fun cell => negb (bool_decide (cell ∈ occupied)))
    (cells rows cols).

(** Pass 2 on one free cell; the state is the grid and [auto_queue]. *)
Definition cards_pass2_step (show_placeholders : bool)
    (st : list Placement * list W) (cell : Z * Z)
    : list Placement * list W :=
  let '(grid, auto_queue) := st in
  let '(r, c) := cell in
  match auto_queue with
  | widget :: auto_queue' =>
      (grid ++ [mkPlacement (WidgetItem widget) r c 1 1], auto_queue')
  | [] =>
      if show_placeholders then
        (grid ++ [mkPlacement (PlaceholderItem "CardConfig" r c) r c 1 1],
         [])
      else (grid, [])
  end.

Definition _create_glue_cards_container (rows cols : Z)
    (show_placeholders : bool) (cards : list (W * option Z * option Z))
    : list Placement :=
  let '(grid, occupied, auto_queue) :=
    fold_left cards_pass1_step cards ([], ∅, []) in
  fst (fold_left (cards_pass2_step show_placeholders)
         (free_cells rows cols occupied) (grid, auto_queue)).

(** *** [DashboardLayoutManager._create_action_grid] *)

(** The cells [(r + dr, c + dc)] of a widget with the given span. *)
Definition span_cells (r c row_span col_span : Z) : list (Z * Z) :=
  flat_map (fun dr => map (fun dc => (r + dr, c + dc)) (range col_span))
           (range row_span).

Definition mark_occupied (rows cols : Z) (occupied : gset (Z * Z))
    (r c row_span col_span : Z) : gset (Z * Z) :=
  fold_left
    (fun occ dr =>
       fold_left
         (fun occ dc =>
            if (0 <=? r + dr) && (r + dr <? rows)
               && (0 <=? c + dc) && (c + dc <? cols)
            then {[ (r + dr, c + dc) ]} ∪ occ else occ)
         (range col_span) occ)
    (range row_span) occupied.

(** The inner loops of [find_free_cell]: every cell of the span is inside
    the grid and free. *)
Definition can_fit (rows cols : Z) (occupied : gset (Z * Z))
    (r c needed_row_span needed_col_span : Z) : bool :=
  forallb
    (fun dr =>
       forallb
         (fun dc =>
            negb ((rows <=? r + dr) || (cols <=? c + dc)
                  || bool_decide ((r + dr, c + dc) ∈ occupied)))
         (range needed_col_span))
    (range needed_row_span).

(** The first cell, row by row, that is free and where the span fits. *)
Definition find_free_cell (rows cols : Z) (occupied : gset (Z * Z))
    (needed_row_span needed_col_span : Z) : option (Z * Z) :=
  List.find
    (fun cell =>
       negb (bool_decide (cell ∈ occupied))
       && can_fit rows cols occupied (fst cell) (snd cell)
            needed_row_span needed_col_span)
    (cells rows cols).

(** An entry [(widget, row_or_None, col_or_None, row_span, col_span)]. *)
Definition ButtonInput : Type := W * option Z * option Z * Z * Z.

Definition buttons_pass1_step (rows cols : Z)
    (st : list Placement * gset (Z * Z) * list (W * Z * Z))
    (entry : ButtonInput)
    : list Placement * gset (Z * Z) * list (W * Z * Z) :=
  let '(grid, occupied, auto_queue) := st in
  let '(widget, btn_row, btn_col, row_span, col_span) := entry in
  match btn_row, btn_col with
  | Some btn_row, Some btn_col =>
      (grid ++ [mkPlacement (WidgetItem widget) btn_row btn_col
                  row_span col_span],
       mark_occupied rows cols occupied btn_row btn_col row_span col_span,
       auto_queue)
  | _, _ => (grid, occupied, auto_queue ++ [(widget, row_span, col_span)])
  end.

Definition buttons_pass2_step (rows cols : Z)
    (st : list Placement * gset (Z * Z)) (entry : W * Z * Z)
    : list Placement * gset (Z * Z) :=
  let '(grid, occupied) := st in
  let '(widget, row_span, col_span) := entry in
  match find_free_cell rows cols occupied row_span col_span with
  | Some (r, c) =>
      (grid ++ [mkPlacement (WidgetItem widget) r c row_span col_span],
       mark_occupied rows cols occupied r c row_span col_span)
  | None => (grid, occupied)
  end.

Definition buttons_pass3_step
    (st : list Placement * gset (Z * Z)) (cell : Z * Z)
    : list Placement * gset (Z * Z) :=
  let '(grid, occupied) := st in
  let '(r, c) := cell in
  if bool_decide ((r, c) ∈ occupied) then (grid, occupied)
  else (grid ++ [mkPlacement (PlaceholderItem "ActionButtonConfig" r c)
                   r c 1 1],
        {[ (r, c) ]} ∪ occupied).

Definition _create_action_grid (rows cols : Z) (show_placeholders : bool)
    (action_buttons : list ButtonInput) : list Placement * gset (Z * Z) :=
  let '(grid, occupied, auto_queue) :=
    fold_left (buttons_pass1_step rows cols) action_buttons ([], ∅, []) in
  let st := fold_left (buttons_pass2_step rows cols) auto_queue
              (grid, occupied) in
  if show_placeholders then
    fold_left buttons_pass3_step (cells rows cols) st
  else st.

(** The cells a placement covers. *)
Definition footprint (p : Placement) : list (Z * Z) :=
  span_cells (placed_row p) (placed_col p) (placed_row_span p)
    (placed_col_span p).
End Dashboard.

(** *** Notions used in the properties of the grids *)

Section GridNotions.
Context {W : Type}.

(** The cell an entry asks for: both its row and its column are given. *)
Definition explicit_cell (entry : W * option Z * option Z)
    : option (Z * Z) :=
  match snd (fst entry), snd entry with
  | Some row, Some col => Some (row, col)
  | _, _ => None
  end.

Definition card_at (widget : W) (cell : Z * Z) : @Placement W :=
  mkPlacement (WidgetItem widget) (fst cell) (snd cell) 1 1.

Definition card_placeholder_at (cell : Z * Z) : @Placement W :=
  mkPlacement (PlaceholderItem "CardConfig" (fst cell) (snd cell))
    (fst cell) (snd cell) 1 1.

(** The placements of the entries that ask for a cell, in their order. *)
Definition explicit_placements (cards : list (W * option Z * option Z))
    : list (@Placement W) :=
  flat_map (fun entry => match explicit_cell entry with
                         | Some cell => [card_at (fst (fst entry)) cell]
                         | None => []
                         end) cards.

(** The widgets of the other entries, in their order. *)
Definition auto_widgets (cards : list (W * option Z * option Z)) : list W :=
  flat_map (fun entry => match explicit_cell entry with
                         | Some _ => []
                         | None => [fst (fst entry)]
                         end) cards.

Definition explicit_cells (cards : list (W * option Z * option Z))
    : list (Z * Z) :=
  flat_map (fun entry => match explicit_cell entry with
                         | Some cell => [cell]
                         | None => []
                         end) cards.
End GridNotions.

(** A widget of the given span fits with its top-left corner at [cell]:
    the cell is a free cell of the grid and every cell of the span is
    inside the grid and free. *)
Definition span_fits (rows cols : Z) (occupied : gset (Z * Z))
    (row_span col_span : Z) (cell : Z * Z) : Prop :=
  in_grid rows cols cell /\ (cell ∉ occupied)
  /\ Forall (fun cell' => in_grid rows cols cell' /\ (cell' ∉ occupied))
       (span_cells (fst cell) (snd cell) row_span col_span).

(** Two placements cover no common cell. *)
Definition disjoint_placements {W : Type} (p q : @Placement W) : Prop :=
  forall cell, In cell (footprint p) -> ~ In cell (footprint q).

Definition button_placeholder_at {W : Type} (cell : Z * Z) : @Placement W :=
  mkPlacement (PlaceholderItem "ActionButtonConfig" (fst cell) (snd cell))
    (fst cell) (snd cell) 1 1.


Section ActionGridNotions.
Context {W : Type}.

(** The placements of the buttons that give both a row and a column, in
    their order. *)
Definition explicit_buttons (action_buttons : list (@ButtonInput W))
    : list (@Placement W) :=
  flat_map (fun '(widget, btn_row, btn_col, row_span, col_span) =>
              match btn_row, btn_col with
              | Some btn_row, Some btn_col =>
                  [mkPlacement (WidgetItem widget) btn_row btn_col
                     row_span col_span]
              | _, _ => []
              end) action_buttons.

(** The other buttons with their spans, in their order. *)
Definition auto_buttons (action_buttons : list (@ButtonInput W))
    : list (W * Z * Z) :=
  flat_map (fun '(widget, btn_row, btn_col, row_span, col_span) =>
              match btn_row, btn_col with
              | Some _, Some _ => []
              | _, _ => [(widget, row_span, col_span)]
              end) action_buttons.

(** A cell of the grid that one of the placements covers. *)
Definition covered (rows cols : Z) (placements : list (@Placement W))
    (cell : Z * Z) : Prop :=
  in_grid rows cols cell
  /\ exists p, In p placements /\ In cell (footprint p).

(** The widget and the span a placement was made for. *)
Definition placed_request (p : @Placement W) : @GridItem W * Z * Z :=
  (placed_item p, placed_row_span p, placed_col_span p).

Definition button_request (entry : W * Z * Z) : @GridItem W * Z * Z :=
  let '(widget, row_span, col_span) := entry in
  (WidgetItem widget, row_span, col_span).
End ActionGridNotions.
(** * Properties of the buffer *)

Section Deque.
Context {A : Type}.
Implicit Types (l d : list A) (x : A) (n : nat).

Lemma keep_last_length n l : length (keep_last n l) = Nat.min n (length l).
Proof. unfold keep_last. rewrite length_drop. lia. Qed.

Lemma keep_last_all n l : (length l <= n)%nat -> keep_last n l = l.
Proof.
  intros H. unfold keep_last.
  replace (length l - n)%nat with 0%nat by lia. reflexivity.
Qed.

Lemma deque_append_keep_last n l x :
  deque_append n (keep_last n l) x = keep_last n (l ++ [x]).
Proof.
  unfold deque_append, keep_last.
  rewrite !length_app, length_drop. cbn [length].
  destruct (Nat.ltb_spec n (length l - (length l - n) + 1)) as [Hlt | Hge].
  - assert (Hn : (n <= length l)%nat) by lia.
    replace (length l + 1 - n)%nat with (length l - n + 1)%nat by lia.
    rewrite <- (drop_drop (l ++ [x])), drop_app_le by lia.
    destruct (drop (length l - n) l ++ [x]); reflexivity.
  - replace (length l - n)%nat with 0%nat by lia.
    replace (length l + 1 - n)%nat with 0%nat by lia.
    reflexivity.
Qed.

Lemma fold_deque_append_keep_last n l xs :
  fold_left (deque_append n) xs (keep_last n l) = keep_last n (l ++ xs).
Proof.
  revert l. induction xs as [| x xs IH]; intros l; cbn [fold_left].
  - by rewrite app_nil_r.
  - rewrite deque_append_keep_last, IH, <- app_assoc. reflexivity.
Qed.

Lemma deque_append_length_le n d x :
  (length d <= n)%nat -> (length (deque_append n d x) <= n)%nat.
Proof.
  intros H. unfold deque_append. rewrite length_app. cbn [length].
  destruct (Nat.ltb_spec n (length d + 1)).
  - destruct (d ++ [x]) eqn:E; cbn [tail length].
    + lia.
    + apply (f_equal length) in E. rewrite length_app in E.
      cbn [length] in E. lia.
  - rewrite length_app. cbn [length]. lia.
Qed.
End Deque.

(** * Properties of the manager *)

Lemma append_all_fields l m :
  trajectory_points (append_all l m)
  = fold_left (deque_append (trail_length m)) l (trajectory_points m)
  /\ trail_length (append_all l m) = trail_length m
  /\ current_position (append_all l m) = current_position m
  /\ last_position (append_all l m) = last_position m
  /\ interpolate_motion (append_all l m) = interpolate_motion m
  /\ update_count (append_all l m) = update_count m
  /\ is_running (append_all l m) = is_running m
  /\ trajectory_break_pending (append_all l m) = trajectory_break_pending m.
Proof.
  revert m. induction l as [| s l IH]; intros m; cbn [append_all fold_left].
  - repeat split.
  - destruct (IH (append_point s m)) as (H1 & H2 & H3 & H4 & H5 & H6 & H7 & H8).
    unfold append_all in *.
    rewrite H1, H2, H3, H4, H5, H6, H7, H8. repeat split.
Qed.

Lemma update_position_appends position now m :
  update_position position now m
  = append_all (appended_samples position now m)
      (positions_updated position m).
Proof.
  destruct m as [cap pts cur last interp cnt running pending].
  destruct position as [px py].
  destruct pending; [reflexivity |].
  destruct cur as [[cx cy] |]; [| reflexivity].
  destruct interp; [| reflexivity].
  unfold update_position, appended_samples, positions_updated,
    previous_position, add_interpolated_points.
  cbn -[distance_exceeds_5 interp_sample Z.add Z.mul Z.quot].
  destruct (distance_exceeds_5 (cx, cy) (px, py)); reflexivity.
Qed.

Lemma update_position_points position now m :
  trajectory_points (update_position position now m)
  = fold_left (deque_append (trail_length m))
      (appended_samples position now m) (trajectory_points m)
  /\ trail_length (update_position position now m) = trail_length m.
Proof.
  rewrite update_position_appends.
  destruct (append_all_fields (appended_samples position now m)
              (positions_updated position m)) as (H1 & H2 & _).
  rewrite H1, H2. split; reflexivity.
Qed.

Lemma run_log_keep_last calls : forall m log,
  trajectory_points m = keep_last (trail_length m) log ->
  trajectory_points (run calls m)
  = keep_last (trail_length m) (log ++ appended_log calls m)
  /\ trail_length (run calls m) = trail_length m.
Proof.
  induction calls as [| c calls IH]; intros m log Hm.
  - cbn. rewrite app_nil_r. auto.
  - cbn [run fold_left appended_log]. fold (run calls (step c m)).
    destruct c as [position now |].
    + destruct (update_position_points position now m) as [Hp Hc].
      cbn [step]. rewrite app_assoc.
      destruct (IH (update_position position now m)
                   (log ++ appended_samples position now m)) as [H1 H2].
      * rewrite Hp, Hc, Hm. apply fold_deque_append_keep_last.
      * rewrite H1, H2, Hc. auto.
    + cbn [step app]. apply (IH (break_trajectory m) log). exact Hm.
Qed.

(** C1. The trail buffer is a bounded FIFO: after any sequence of
    [update_position] calls (breaks may be requested in between, positions
    in the range where the arithmetic of the source is exact) on a fresh
    manager, the snapshot is the last [capacity] appended samples, in
    insertion order.  Hence its length never exceeds the capacity; while the
    number of appended samples (interpolated points included) is at most the
    capacity the snapshot holds all of them; once it exceeds the capacity
    the length is exactly the capacity and the oldest samples are gone. *)
Theorem trail_buffer_bounded_fifo (capacity : nat) (calls : list call) :
  Forall call_in_range calls ->
  let m := run calls (TrajectoryManager_init capacity) in
  let log := appended_log calls (TrajectoryManager_init capacity) in
  get_trajectory_copy m = keep_last capacity log
  /\ (length (get_trajectory_copy m) <= capacity)%nat
  /\ ((length log <= capacity)%nat ->
      get_trajectory_copy m = log
      /\ length (get_trajectory_copy m) = length log)
  /\ ((capacity < length log)%nat ->
      length (get_trajectory_copy m) = capacity
      /\ get_trajectory_copy m = drop (length log - capacity) log).
Proof.
  intros _ m log. unfold get_trajectory_copy.
  assert (H : trajectory_points m = keep_last capacity log).
  { destruct (run_log_keep_last calls (TrajectoryManager_init capacity) [])
      as [H _]; [reflexivity | exact H]. }
  rewrite H. split; [reflexivity |]. rewrite keep_last_length.
  split; [lia |]. split.
  - intros Hle. rewrite keep_last_all by exact Hle. split; [reflexivity | lia].
  - intros Hlt. split; [lia | reflexivity].
Qed.

Lemma trail_buffer_bounded_fifo_witness :
  let calls := [UpdatePosition (0, 0) 1; UpdatePosition (100, 0) 2;
                BreakTrajectory; UpdatePosition (7, 7) 3] in
  let m := run calls (TrajectoryManager_init 3) in
  length (get_trajectory_copy m) = 3%nat
  /\ get_trajectory_copy m
     = [mkSample 75 0 2 false; mkSample 100 0 2 false; mkSample 7 7 3 true].
Proof.
  intros calls m.
  assert (Hr : Forall call_in_range calls).
  { repeat (constructor;
              [try exact I; split; unfold exact_range; cbn [fst snd];
               change (2 ^ 30) with 1073741824; lia |]).
    constructor. }
  destruct (trail_buffer_bounded_fifo 3 calls Hr) as (_ & _ & _ & H).
  destruct H as [Hlen Hdrop]; [vm_compute; lia |].
  split; [exact Hlen | etransitivity; [exact Hdrop | reflexivity]].
Defined.

(** ** Interpolation *)

Section Interpolation.
Local Ltac quot4 :=
  unfold interp_coord, at_quarter, between;
  cbn [Z.of_nat Pos.of_succ_nat Pos.succ Z.add Pos.add];
  Z.to_euclidean_division_equations; lia.

Lemma interp_coord_at_quarter (s e : Z) (i : nat) :
  (1 <= i <= 3)%nat ->
  at_quarter s e (Z.of_nat i) (interp_coord s e i 3).
Proof.
  intros Hi.
  assert (Hc : i = 1%nat \/ i = 2%nat \/ i = 3%nat) by lia.
  destruct Hc as [-> | [-> | ->]]; quot4.
Qed.

Lemma interp_coord_between (s e : Z) (i : nat) :
  (1 <= i <= 3)%nat -> between s e (interp_coord s e i 3).
Proof.
  intros Hi.
  assert (Hc : i = 1%nat \/ i = 2%nat \/ i = 3%nat) by lia.
  destruct Hc as [-> | [-> | ->]]; quot4.
Qed.

Lemma interp_coord_inside (s e : Z) (i : nat) :
  (1 <= i <= 3)%nat -> 4 <= Z.abs (e - s) ->
  interp_coord s e i 3 <> s /\ interp_coord s e i 3 <> e.
Proof.
  intros Hi Hd.
  assert (Hc : i = 1%nat \/ i = 2%nat \/ i = 3%nat) by lia.
  destruct Hc as [-> | [-> | ->]]; quot4.
Qed.

Lemma far_apart_coordinate (dx dy : Z) :
  25 < dx ^ 2 + dy ^ 2 -> 4 <= Z.abs dx \/ 4 <= Z.abs dy.
Proof.
  intros H.
  destruct (Z_le_gt_dec 4 (Z.abs dx)) as [| Hx]; [left; assumption |].
  destruct (Z_le_gt_dec 4 (Z.abs dy)) as [| Hy]; [right; assumption |].
  exfalso.
  assert (dx ^ 2 <= 9) by (rewrite Z.pow_2_r; nia).
  assert (dy ^ 2 <= 9) by (rewrite Z.pow_2_r; nia).
  lia.
Qed.

Lemma interp_sample_interpolated (start_pos end_pos : Position)
    (now : Time) (i : nat) :
  (1 <= i <= 3)%nat ->
  25 < (fst end_pos - fst start_pos) ^ 2
       + (snd end_pos - snd start_pos) ^ 2 ->
  interpolated_at start_pos end_pos now (Z.of_nat i)
    (interp_sample start_pos end_pos 3 now i).
Proof.
  destruct start_pos as [sx sy], end_pos as [ex ey].
  cbn [fst snd]. intros Hi Hfar.
  unfold interpolated_at, strictly_between, sample_xy.
  cbn [interp_sample sample_x sample_y sample_time is_break_start fst snd].
  pose proof (interp_coord_at_quarter sx ex i Hi).
  pose proof (interp_coord_at_quarter sy ey i Hi).
  pose proof (interp_coord_between sx ex i Hi).
  pose proof (interp_coord_between sy ey i Hi).
  split; [assumption |]. split; [assumption |].
  split; [| split; reflexivity].
  split; [assumption |]. split; [assumption |].
  destruct (far_apart_coordinate _ _ Hfar) as [Hd | Hd].
  - destruct (interp_coord_inside sx ex i Hi Hd).
    split; intros E; inversion E; congruence.
  - destruct (interp_coord_inside sy ey i Hi Hd).
    split; intros E; inversion E; congruence.
Qed.
End Interpolation.

(** C2. With a previous position and motion interpolation enabled (both
    positions in the range where the arithmetic of the source is exact),
    [update_position] appends interpolated points only when the distance
    between the previous and the new position exceeds 5 (its square exceeds
    25).  It then appends exactly three points, the integer parts of the
    points a quarter, a half and three quarters of the way, each strictly
    between the endpoints, followed by the destination; every appended
    sample is tagged [is_break_start = false].  From (0,0) to (100,0) the
    appended points are (25,0), (50,0), (75,0) and (100,0). *)
Theorem interpolation_between_positions (m : TrajectoryManager)
    (last p : Position) (now : Time) :
  trajectory_break_pending m = false ->
  current_position m = Some last ->
  interpolate_motion m = true ->
  position_in_range last -> position_in_range p ->
  let appended := appended_samples p now m in
  let far := 25 <? (fst p - fst last) ^ 2 + (snd p - snd last) ^ 2 in
  update_position p now m = append_all appended (positions_updated p m)
  /\ Forall (fun s => is_break_start s = false) appended
  /\ (far = false -> appended = [destination p now false])
  /\ (far = true ->
      exists s1 s2 s3,
        appended = [s1; s2; s3; destination p now false]
        /\ interpolated_at last p now 1 s1
        /\ interpolated_at last p now 2 s2
        /\ interpolated_at last p now 3 s3)
  /\ (last = (0, 0) -> p = (100, 0) ->
      map sample_xy appended = [(25, 0); (50, 0); (75, 0); (100, 0)]).
Proof.
  intros Hpending Hcur Hinterp _ _ appended far.
  assert (Happ : appended
                 = (if distance_exceeds_5 last p then
                      map (interp_sample last p 3 now) (seq 1 3)
                    else []) ++ [destination p now false]).
  { unfold appended, appended_samples, previous_position.
    rewrite Hpending, Hcur, Hinterp. reflexivity. }
  assert (Hfar : distance_exceeds_5 last p = far).
  { destruct last, p. reflexivity. }
  split; [apply update_position_appends |].
  rewrite Happ, Hfar. clear Happ Hfar.
  split; [| split; [| split; [| intros -> ->; reflexivity]]].
  - destruct far; repeat constructor.
    all: destruct last, p; reflexivity.
  - intros ->. reflexivity.
  - intros E. rewrite E.
    apply Z.ltb_lt in E.
    exists (interp_sample last p 3 now 1), (interp_sample last p 3 now 2),
      (interp_sample last p 3 now 3).
    split; [reflexivity |]. split; [| split].
    + apply (interp_sample_interpolated last p now 1); [lia | exact E].
    + apply (interp_sample_interpolated last p now 2); [lia | exact E].
    + apply (interp_sample_interpolated last p now 3); [lia | exact E].
Qed.

Lemma interpolation_between_positions_witness :
  let m := update_position (0, 0) 1 (TrajectoryManager_init 100) in
  map sample_xy (get_trajectory_copy (update_position (100, 0) 2 m))
  = [(0, 0); (25, 0); (50, 0); (75, 0); (100, 0)].
Proof.
  intros m.
  assert (Hr : position_in_range (0, 0) /\ position_in_range (100, 0)).
  { repeat split; unfold exact_range; cbn [fst snd];
      change (2 ^ 30) with 1073741824; lia. }
  destruct Hr as [Hr0 Hr1].
  destruct (interpolation_between_positions m (0, 0) (100, 0) 2
              eq_refl eq_refl eq_refl Hr0 Hr1) as (Hupd & _ & _ & _ & Hex).
  specialize (Hex eq_refl eq_refl).
  rewrite Hupd. unfold get_trajectory_copy.
  destruct (append_all_fields (appended_samples (100, 0) 2 m)
              (positions_updated (100, 0) m)) as [-> _].
  change [(0, 0); (25, 0); (50, 0); (75, 0); (100, 0)]
    with ([(0, 0)] ++ [(25, 0); (50, 0); (75, 0); (100, 0)]).
  rewrite <- Hex. reflexivity.
Defined.

(** ** Breaks and clearing *)

(** C3. A break request is deferred: [break_trajectory] sets the flag and
    changes nothing else.  The next [update_position p] (positions in the
    range where the arithmetic of the source is exact) leaves
    [last_position] unset, clears the flag and appends exactly one sample,
    [p] tagged [is_break_start = true], without interpolation.  The call
    after that takes [p] as its previous position and appends only samples
    tagged [is_break_start = false], as with no break pending. *)
Theorem break_is_deferred (m : TrajectoryManager) (p q : Position)
    (now now' : Time) :
  position_in_range p -> position_in_range q ->
  let m1 := break_trajectory m in
  let m2 := update_position p now m1 in
  (trajectory_break_pending m1 = true /\ same_but_break_flag m m1)
  /\ (last_position m2 = None
      /\ current_position m2 = Some p
      /\ trajectory_break_pending m2 = false
      /\ trajectory_points m2
         = deque_append (trail_length m) (trajectory_points m)
             (destination p now true)
      /\ trail_length m2 = trail_length m
      /\ interpolate_motion m2 = interpolate_motion m
      /\ update_count m2 = update_count m
      /\ is_running m2 = is_running m)
  /\ (previous_position m2 = Some p
      /\ update_position q now' m2
         = append_all (appended_samples q now' m2) (positions_updated q m2)
      /\ last_position (update_position q now' m2) = Some p
      /\ Forall (fun s => is_break_start s = false)
           (appended_samples q now' m2)).
Proof.
  intros _ _.
  destruct m as [cap pts cur last interp cnt running pending].
  destruct p as [px py], q as [qx qy].
  cbn zeta. split; [| split].
  - split; [reflexivity |]. repeat split.
  - repeat split.
  - split; [reflexivity |].
    split; [apply update_position_appends |].
    rewrite update_position_appends.
    destruct (append_all_fields
                (appended_samples (qx, qy) now'
                   (update_position (px, py) now
                      (break_trajectory
                         (mkManager cap pts cur last interp cnt running
                            pending))))
                (positions_updated (qx, qy)
                   (update_position (px, py) now
                      (break_trajectory
                         (mkManager cap pts cur last interp cnt running
                            pending)))))
      as (_ & _ & _ & -> & _).
    split; [reflexivity |].
    unfold appended_samples, previous_position.
    cbn -[distance_exceeds_5 interp_sample].
    destruct interp; [| repeat constructor].
    destruct (distance_exceeds_5 (px, py) (qx, qy)); repeat constructor.
Qed.

Lemma break_is_deferred_witness :
  let m := update_position (10, 10) 1 (TrajectoryManager_init 100) in
  let m2 := update_position (200, 10) 2 (break_trajectory m) in
  get_trajectory_copy m2 = [mkSample 10 10 1 true; mkSample 200 10 2 true]
  /\ last_position (update_position (204, 10) 3 m2) = Some (200, 10).
Proof.
  intros m m2.
  assert (Hr : position_in_range (200, 10) /\ position_in_range (204, 10)).
  { repeat split; unfold exact_range; cbn [fst snd];
      change (2 ^ 30) with 1073741824; lia. }
  destruct Hr as [Hp Hq].
  destruct (break_is_deferred m (200, 10) (204, 10) 2 3 Hp Hq)
    as (_ & (_ & _ & _ & Hpts & _) & (_ & _ & Hlast & _)).
  split; [exact Hpts | exact Hlast].
Defined.

(** C8. [clear_trail] empties the buffer and unsets both position fields,
    so the snapshot taken right after it is empty; the first
    [update_position] after it appends one sample tagged
    [is_break_start = true]; [disable_drawing] performs this same clear. *)
Theorem clear_resets_trail (m : TrajectoryManager) (w : RobotTrajectoryWidget)
    (p : Position) (now : Time) :
  (trajectory_points (clear_trail m) = []
   /\ current_position (clear_trail m) = None
   /\ last_position (clear_trail m) = None)
  /\ get_trajectory_copy (clear_trail m) = []
  /\ (appended_samples p now (clear_trail m) = [destination p now true]
      /\ trajectory_points (update_position p now (clear_trail m))
         = deque_append (trail_length m) [] (destination p now true))
  /\ (trajectory_manager (disable_drawing w)
      = clear_trail (trajectory_manager w)
      /\ drawing_enabled (disable_drawing w) = false).
Proof.
  destruct m as [cap pts cur last interp cnt running pending].
  destruct p as [px py].
  split; [repeat split |]. split; [reflexivity |].
  split; [| split; reflexivity].
  split.
  - unfold appended_samples, previous_position. cbn.
    destruct pending; reflexivity.
  - destruct pending; reflexivity.
Qed.

(** * Properties of the renderer *)

(** ** Segments *)

Section Segments.
Implicit Types (pts g : list point_data) (gs : list (list point_data)).

Lemma concat_cons_group g gs : concat (cons_group g gs) = g ++ concat gs.
Proof.
  destruct gs as [| g' gs']; cbn [cons_group]; [reflexivity |].
  destruct (starts_with_break g'); cbn [concat]; [reflexivity |].
  by rewrite app_assoc.
Qed.

Lemma concat_split_at_breaks pts : concat (split_at_breaks pts) = pts.
Proof.
  induction pts as [| pd rest IH]; [reflexivity |].
  cbn [split_at_breaks]. rewrite concat_cons_group, IH. reflexivity.
Qed.

Lemma split_at_breaks_cons pd rest :
  exists g gs, split_at_breaks (pd :: rest) = (pd :: g) :: gs.
Proof.
  cbn [split_at_breaks].
  destruct (split_at_breaks rest) as [| g' gs']; cbn [cons_group].
  - by exists [], [].
  - destruct (starts_with_break g'); [by exists [], (g' :: gs') |].
    by exists g', gs'.
Qed.

(** No group is empty, a break start is found only at the head of a group,
    and every group but the first has one at its head. *)
Lemma split_at_breaks_groups pts :
  Forall (fun g => g <> []) (split_at_breaks pts)
  /\ Forall (fun g => Forall (fun pd => is_break_point pd = false) (tail g))
       (split_at_breaks pts)
  /\ Forall (fun g => starts_with_break g = true)
       (tail (split_at_breaks pts)).
Proof.
  induction pts as [| pd rest (IH1 & IH2 & IH3)];
    [cbn; repeat split; constructor |].
  cbn [split_at_breaks].
  destruct (split_at_breaks rest) as [| g' gs'] eqn:E; cbn [cons_group].
  - repeat split; repeat constructor. discriminate.
  - destruct (starts_with_break g') eqn:Hb.
    + split; [constructor; [discriminate | exact IH1] |].
      split; [constructor; [constructor | exact IH2] |].
      cbn [tail]. constructor; [exact Hb | exact IH3].
    + inversion IH1 as [| ? ? Hne IH1']; subst.
      inversion IH2 as [| ? ? Htl IH2']; subst.
      split; [constructor; [discriminate | exact IH1'] |].
      split; [| exact IH3].
      constructor; [| exact IH2']. cbn [app tail].
      destruct g' as [| pd' g'']; [congruence |].
      constructor; [exact Hb | exact Htl].
Qed.

(** The state of the first loop of [draw_smooth_trail] once the current
    segment holds the group [g]. *)
Lemma fold_split_step pts : forall segments g,
  g <> [] ->
  (let '(segments', current_segment) :=
     fold_left split_step pts (segments, map point_xy g) in
   if (1 <? length current_segment)%nat
   then segments' ++ [current_segment] else segments')
  = segments
    ++ map (map point_xy)
         (List.filter longer_than_one (cons_group g (split_at_breaks pts))).
Proof.
  induction pts as [| pd rest IH]; intros segments g Hg.
  - cbn [fold_left split_at_breaks cons_group List.filter map].
    unfold longer_than_one. rewrite length_map.
    destruct (1 <? length g)%nat; cbn [map]; by rewrite ?app_nil_r.
  - cbn [fold_left].
    assert (Hlen : Nat.eqb (length (map point_xy g)) 0 = false).
    { destruct g; [congruence | reflexivity]. }
    destruct (split_at_breaks_cons pd rest) as (g1 & gs1 & Hsplit).
    assert (Hstep : split_step (segments, map point_xy g) pd
              = if is_break_point pd
                then (if (1 <? length (map point_xy g))%nat
                      then segments ++ [map point_xy g] else segments,
                      map point_xy [pd])
                else (segments, map point_xy (g ++ [pd]))).
    { rewrite map_app. destruct pd as [x y t b | x y]; cbn [split_step];
        rewrite ?Hlen; cbn [is_break_point]; [| reflexivity].
      destruct b; reflexivity. }
    rewrite Hstep. clear Hstep.
    destruct (is_break_point pd) eqn:Hb.
    + rewrite IH by discriminate.
      change (cons_group [pd] (split_at_breaks rest))
        with (split_at_breaks (pd :: rest)).
      rewrite Hsplit. cbn [cons_group starts_with_break]. rewrite Hb.
      cbn [List.filter]. unfold longer_than_one.
      rewrite length_map.
      destruct (1 <? length g)%nat; cbn [map];
        by rewrite <- ?app_assoc.
    + rewrite IH by (destruct g; discriminate).
      f_equal. f_equal. f_equal.
      cbn [split_at_breaks].
      destruct (split_at_breaks rest) as [| g' gs'].
      * cbn [cons_group starts_with_break]. rewrite Hb. reflexivity.
      * destruct (starts_with_break g') eqn:Hb';
          cbn [cons_group]; rewrite ?Hb';
          cbn [cons_group starts_with_break app]; rewrite ?Hb;
          [reflexivity | by rewrite <- app_assoc].
Qed.

Lemma split_segments_by_breaks pts :
  split_segments pts = segments_by_breaks pts.
Proof.
  unfold split_segments, segments_by_breaks.
  destruct pts as [| pd rest]; [reflexivity |].
  cbn [fold_left].
  assert (Hstep : split_step ([], []) pd = ([], map point_xy [pd])).
  { destruct pd as [x y t b | x y]; cbn [split_step length Nat.eqb];
      [| reflexivity].
    rewrite andb_false_r. reflexivity. }
  rewrite Hstep.
  exact (fold_split_step rest [] [pd] ltac:(discriminate)).
Qed.
End Segments.

(** ** Strokes *)

Section Strokes.
Implicit Types (image : Image) (sm : list Position).

Lemma in_image_same_shape a b p :
  same_shape a b -> in_image a p = in_image b p.
Proof. intros [Hh Hw]. unfold in_image. by rewrite Hh, Hw. Qed.

Lemma same_shape_add_strokes image l : same_shape image (add_strokes image l).
Proof. split; reflexivity. Qed.

Lemma add_strokes_nil image : add_strokes image [] = image.
Proof. destruct image. unfold add_strokes. cbn. by rewrite app_nil_r. Qed.

Lemma add_strokes_app image l1 l2 :
  add_strokes (add_strokes image l1) l2 = add_strokes image (l1 ++ l2).
Proof. unfold add_strokes. cbn. by rewrite app_assoc. Qed.

Lemma fold_gradient sm (l : list nat) : forall image0 image,
  same_shape image0 image ->
  fold_left
    (fun img i =>
       let p1 := nth_point sm i in
       let p2 := nth_point sm (i + 1) in
       if in_image img p1 && in_image img p2 then
         cv2_line img p1 p2 (trail_color (progress i (length sm)))
                  (trail_thickness (progress i (length sm)))
       else img) l image
  = add_strokes image
      (List.filter (stroke_in_image image0) (map (gradient_stroke sm) l)).
Proof.
  induction l as [| i l IH]; intros image0 image Hs; cbn [fold_left map].
  - cbn. by rewrite add_strokes_nil.
  - cbn [List.filter]. unfold stroke_in_image at 1.
    cbn [gradient_stroke stroke_p1 stroke_p2].
    rewrite !(in_image_same_shape image0 image) by exact Hs.
    destruct (in_image image (nth_point sm i)
              && in_image image (nth_point sm (i + 1))).
    + rewrite (IH image0).
      * unfold cv2_line, add_strokes. cbn.
        by rewrite <- app_assoc.
      * destruct Hs. split; assumption.
    + by apply IH.
Qed.

Lemma draw_gradient_strokes sm image :
  draw_gradient sm image = add_strokes image (gradient_strokes image sm).
Proof.
  unfold draw_gradient, gradient_strokes.
  apply fold_gradient. split; reflexivity.
Qed.

Lemma filter_recent_pair image (recent : list Position) i :
  List.filter (stroke_in_image image) (recent_pair recent i)
  = if in_image image (nth_point recent i)
       && in_image image (nth_point recent (i + 1))
    then recent_pair recent i else [].
Proof.
  unfold recent_pair, stroke_in_image. cbn [List.filter stroke_p1 stroke_p2].
  destruct (in_image image (nth_point recent i)
            && in_image image (nth_point recent (i + 1))); reflexivity.
Qed.

Lemma fold_recent (recent : list Position) (l : list nat) :
  forall image0 image,
  same_shape image0 image ->
  fold_left
    (fun img i =>
       let p1 := nth_point recent i in
       let p2 := nth_point recent (i + 1) in
       if in_image img p1 && in_image img p2 then
         cv2_line (cv2_line img p1 p2 halo_color 6) p1 p2 core_color 2
       else img) l image
  = add_strokes image
      (flat_map (fun i => List.filter (stroke_in_image image0)
                            (recent_pair recent i)) l).
Proof.
  induction l as [| i l IH]; intros image0 image Hs;
    cbn [fold_left flat_map].
  - by rewrite add_strokes_nil.
  - rewrite filter_recent_pair.
    rewrite !(in_image_same_shape image0 image) by exact Hs.
    destruct (in_image image (nth_point recent i)
              && in_image image (nth_point recent (i + 1))).
    + rewrite (IH image0).
      * unfold cv2_line, add_strokes, recent_pair. cbn [strokes
          shape_height shape_width app].
        by rewrite <- !app_assoc.
      * destruct Hs. split; assumption.
    + by apply IH.
Qed.

Lemma draw_recent_strokes sm image :
  draw_recent sm image = add_strokes image (recent_strokes image sm).
Proof.
  unfold draw_recent, recent_strokes.
  destruct (5 <? length sm)%nat; [| by rewrite add_strokes_nil].
  apply fold_recent. split; reflexivity.
Qed.

Lemma stroke_in_image_same_shape a b s :
  same_shape a b -> stroke_in_image a s = stroke_in_image b s.
Proof.
  intros Hs. unfold stroke_in_image.
  by rewrite !(in_image_same_shape a b).
Qed.

Lemma gradient_strokes_same_shape a b sm :
  same_shape a b -> gradient_strokes a sm = gradient_strokes b sm.
Proof.
  intros Hs. unfold gradient_strokes. apply filter_ext. intros s.
  by apply stroke_in_image_same_shape.
Qed.

Lemma recent_strokes_same_shape a b sm :
  same_shape a b -> recent_strokes a sm = recent_strokes b sm.
Proof.
  intros Hs. unfold recent_strokes.
  destruct (5 <? length sm)%nat; [| reflexivity].
  apply flat_map_ext. intros i. apply filter_ext. intros s.
  by apply stroke_in_image_same_shape.
Qed.

Lemma draw_segment_strokes image segment :
  draw_segment image segment
  = (add_strokes image (segment_strokes image segment),
     segment_error segment).
Proof.
  unfold draw_segment, segment_strokes, segment_error.
  destruct (length segment <? 2)%nat; [by rewrite add_strokes_nil |].
  destruct (smooth_segment segment) as [sm | e];
    [| by rewrite add_strokes_nil].
  rewrite draw_recent_strokes, draw_gradient_strokes, add_strokes_app.
  rewrite <- (recent_strokes_same_shape image
                (add_strokes image (gradient_strokes image sm)) sm
                (same_shape_add_strokes _ _)).
  reflexivity.
Qed.

Lemma segment_strokes_same_shape a b segment :
  same_shape a b -> segment_strokes a segment = segment_strokes b segment.
Proof.
  intros Hs. unfold segment_strokes.
  destruct (length segment <? 2)%nat; [reflexivity |].
  destruct (smooth_segment segment) as [sm | e]; [| reflexivity].
  by rewrite (gradient_strokes_same_shape a b),
       (recent_strokes_same_shape a b).
Qed.

Lemma draw_segments_strokes segments : forall image,
  draw_segments image segments
  = (add_strokes image
       (flat_map (segment_strokes image) (drawn_segments segments)),
     first_error segments).
Proof.
  induction segments as [| segment rest IH]; intros image;
    cbn [draw_segments drawn_segments first_error].
  - by rewrite add_strokes_nil.
  - rewrite draw_segment_strokes.
    destruct (segment_error segment) as [e |] eqn:He.
    + cbn [flat_map]. rewrite add_strokes_nil.
      unfold segment_strokes, segment_error in *.
      destruct (length segment <? 2)%nat; [discriminate |].
      destruct (smooth_segment segment); [discriminate |].
      by rewrite add_strokes_nil.
    + rewrite IH, add_strokes_app. reflexivity.
Qed.
End Strokes.

(** ** Lines stay inside a segment *)

Section Lines.
Implicit Types (sm l : list Position) (s : Stroke).

Lemma consecutive_nth l i :
  (S i < length l)%nat ->
  consecutive_in l (nth_point l i) (nth_point l (i + 1)).
Proof.
  intros Hi. exists i. unfold nth_point. rewrite Nat.add_1_r.
  split; apply nth_error_nth'; lia.
Qed.

Lemma consecutive_in_drop k l p1 p2 :
  consecutive_in (drop k l) p1 p2 -> consecutive_in l p1 p2.
Proof.
  intros (i & H1 & H2). exists (k + i)%nat.
  rewrite nth_error_skipn in H1, H2.
  split; [exact H1 |]. by rewrite <- Nat.add_succ_r.
Qed.

Lemma gradient_strokes_consecutive image sm s :
  In s (gradient_strokes image sm) ->
  consecutive_in sm (stroke_p1 s) (stroke_p2 s).
Proof.
  unfold gradient_strokes. intros H.
  apply filter_In in H as [H _].
  apply in_map_iff in H as (i & <- & Hi).
  apply in_seq in Hi. cbn [gradient_stroke stroke_p1 stroke_p2].
  apply consecutive_nth. lia.
Qed.

Lemma recent_strokes_consecutive image sm s :
  In s (recent_strokes image sm) ->
  consecutive_in sm (stroke_p1 s) (stroke_p2 s).
Proof.
  unfold recent_strokes.
  destruct (5 <? length sm)%nat; [| intros []].
  intros H. apply in_flat_map in H as (i & Hi & H).
  apply in_seq in Hi. apply filter_In in H as [H _].
  apply (consecutive_in_drop (length sm - 5)).
  assert (Hc : consecutive_in (drop (length sm - 5) sm)
                 (nth_point (drop (length sm - 5) sm) i)
                 (nth_point (drop (length sm - 5) sm) (i + 1)))
    by (apply consecutive_nth; lia).
  destruct H as [<- | [<- | []]]; exact Hc.
Qed.

Lemma segment_strokes_consecutive image segment s :
  In s (segment_strokes image segment) ->
  exists sm, smooth_segment segment = Ok sm
             /\ consecutive_in sm (stroke_p1 s) (stroke_p2 s).
Proof.
  unfold segment_strokes.
  destruct (length segment <? 2)%nat; [intros [] |].
  destruct (smooth_segment segment) as [sm | e]; [| intros []].
  intros H. exists sm. split; [reflexivity |].
  apply in_app_or in H as [H | H].
  - by apply (gradient_strokes_consecutive image).
  - by apply (recent_strokes_consecutive image).
Qed.

Lemma drawn_segments_incl segments segment :
  In segment (drawn_segments segments) -> In segment segments.
Proof.
  induction segments as [| s rest IH]; cbn [drawn_segments]; [intros [] |].
  destruct (segment_error s); [intros [] |].
  intros [<- | H]; [by left | right; by apply IH].
Qed.

Lemma draw_smooth_trail_strokes image pts :
  draw_smooth_trail image pts
  = (add_strokes image
       (flat_map (segment_strokes image)
          (drawn_segments (split_segments pts))),
     first_error (split_segments pts)).
Proof.
  unfold draw_smooth_trail.
  destruct (Nat.ltb_spec (length pts) 2) as [Hlt | Hge];
    [| apply draw_segments_strokes].
  assert (Hs : split_segments pts = []).
  { destruct pts as [| pd [| pd' rest]]; [reflexivity | | cbn in Hlt; lia].
    destruct pd as [x y t b | x y]; [destruct b |]; reflexivity. }
  rewrite Hs. cbn. by rewrite add_strokes_nil.
Qed.
End Lines.

(** C4. The renderer cuts the snapshot in front of every sample tagged
    [is_break_start = true], the very first sample excepted, and keeps the
    groups of more than one sample: these are its segments.  Every line it
    draws joins two neighbouring smoothed points of one such segment, so no
    line joins a sample before a break to one after it. *)
Theorem segments_split_at_breaks (image : Image) (pts : list point_data) :
  split_segments pts
  = map (map point_xy) (List.filter longer_than_one (split_at_breaks pts))
  /\ (concat (split_at_breaks pts) = pts
      /\ Forall (fun g => g <> []) (split_at_breaks pts)
      /\ Forall (fun g => Forall (fun pd => is_break_point pd = false)
                            (tail g))
           (split_at_breaks pts)
      /\ Forall (fun g => starts_with_break g = true)
           (tail (split_at_breaks pts)))
  /\ (forall s,
        In s (strokes (fst (draw_smooth_trail image pts))) ->
        In s (strokes image)
        \/ exists segment sm,
             In segment (split_segments pts)
             /\ smooth_segment segment = Ok sm
             /\ consecutive_in sm (stroke_p1 s) (stroke_p2 s)).
Proof.
  split; [apply split_segments_by_breaks |].
  split; [split; [apply concat_split_at_breaks
                 | apply split_at_breaks_groups] |].
  intros s. rewrite draw_smooth_trail_strokes.
  cbn [fst add_strokes strokes]. intros H.
  apply in_app_or in H as [H | H]; [by left | right].
  apply in_flat_map in H as (segment & Hseg & H).
  apply segment_strokes_consecutive in H as (sm & Hsm & Hc).
  exists segment, sm.
  split; [by apply drawn_segments_incl | by split].
Qed.

Lemma segments_split_at_breaks_witness :
  let pts := [Tagged 0 0 1 true; Tagged 4 0 2 false;
              Tagged 50 50 3 true; Tagged 54 50 4 false] in
  split_segments pts = [[(0, 0); (4, 0)]; [(50, 50); (54, 50)]]
  /\ forall s,
       In s (strokes (fst (draw_smooth_trail (mkImage 360 640 []) pts))) ->
       (stroke_p1 s, stroke_p2 s) = ((0, 0), (2, 0))
       \/ (stroke_p1 s, stroke_p2 s) = ((50, 50), (52, 50)).
Proof.
  intros pts.
  destruct (segments_split_at_breaks (mkImage 360 640 []) pts)
    as (Hsplit & _ & Hlines).
  split; [rewrite Hsplit; reflexivity |].
  intros s Hs. destruct (Hlines s Hs) as [[] | _].
  vm_compute in Hs.
  destruct Hs as [<- | [<- | []]]; [by left | by right].
Defined.

(** ** Smoothing *)

Section Smoothing.
Implicit Types (segment w : list Position) (zs : list Z).

Lemma float32_limit_large : 2 ^ 24 < float32_limit.
Proof. reflexivity. Qed.

Lemma float64_limit_large : float32_limit < float64_limit.
Proof. reflexivity. Qed.

Lemma float32_of_Q_integer z :
  Z.abs z < float32_limit ->
  float32_of_Q (inject_Z z) = Finite (inject_Z z).
Proof.
  intros Hz. unfold float32_of_Q, Qle_bool.
  cbn [inject_Z Qnum Qden]. rewrite !Z.mul_1_r.
  destruct (Z.leb_spec float32_limit z); [lia |].
  destruct (Z.leb_spec z (- float32_limit)); [lia | reflexivity].
Qed.

Lemma float32_of_int_pixel z :
  pixel_range z -> float32_of_int z = Ok (Finite (inject_Z z)).
Proof.
  unfold pixel_range. intros Hz.
  pose proof float32_limit_large. pose proof float64_limit_large.
  assert (2 ^ 22 < 2 ^ 24) by reflexivity.
  unfold float32_of_int.
  destruct (Z.leb_spec float64_limit (Z.abs z)); [lia |].
  rewrite float32_of_Q_integer by lia. reflexivity.
Qed.

Lemma float32_sum_2 a b :
  pixel_range a -> pixel_range b ->
  float32_add (Finite (inject_Z a)) (Finite (inject_Z b))
  = Finite (inject_Z a + inject_Z b).
Proof.
  unfold pixel_range. intros Ha Hb.
  pose proof float32_limit_large.
  assert (2 ^ 22 + 2 ^ 22 < 2 ^ 24) by reflexivity.
  unfold float32_add, float32_of_Q, Qle_bool.
  cbn [inject_Z Qnum Qden Qplus Pos.mul]. rewrite !Z.mul_1_r.
  destruct (Z.leb_spec float32_limit (a + b)); [lia |].
  destruct (Z.leb_spec (a + b) (- float32_limit)); [lia | reflexivity].
Qed.

Lemma float32_sum_3 a b c :
  pixel_range a -> pixel_range b -> pixel_range c ->
  float32_add (Finite (inject_Z a + inject_Z b)) (Finite (inject_Z c))
  = Finite (inject_Z a + inject_Z b + inject_Z c).
Proof.
  unfold pixel_range. intros Ha Hb Hc.
  pose proof float32_limit_large.
  assert (2 ^ 22 + 2 ^ 22 + 2 ^ 22 < 2 ^ 24) by reflexivity.
  unfold float32_add, float32_of_Q, Qle_bool.
  cbn [inject_Z Qnum Qden Qplus Pos.mul]. rewrite !Z.mul_1_r.
  destruct (Z.leb_spec float32_limit (a + b + c)); [lia |].
  destruct (Z.leb_spec (a + b + c) (- float32_limit)); [lia | reflexivity].
Qed.

Local Ltac mean_arith :=
  unfold float32_div_count, int_of_float, int_of_Q, Qdiv, Qinv, Qmult,
    sum_Z;
  cbn [inject_Z Qnum Qden Qplus Pos.mul Z.of_nat Pos.of_succ_nat Pos.succ
       fold_right];
  rewrite ?Z.mul_1_r; do 2 f_equal; lia.

(** The mean of up to three in-range coordinates, read back by [int()]. *)
Lemma int_of_mean zs :
  (1 <= length zs <= 3)%nat -> Forall pixel_range zs ->
  int_of_float (np_mean (map (fun z => Finite (inject_Z z)) zs))
  = Ok (Z.quot (sum_Z zs) (Z.of_nat (length zs))).
Proof.
  intros Hlen Hr.
  destruct zs as [| a [| b [| c [| d zs]]]]; cbn [length] in Hlen;
    try lia; cbn [map np_mean fold_left length].
  - mean_arith.
  - inversion Hr as [| ? ? Ha Hr1]; subst.
    inversion Hr1 as [| ? ? Hb Hr2]; subst.
    rewrite float32_sum_2 by assumption. mean_arith.
  - inversion Hr as [| ? ? Ha Hr1]; subst.
    inversion Hr1 as [| ? ? Hb Hr2]; subst.
    inversion Hr2 as [| ? ? Hc Hr3]; subst.
    rewrite float32_sum_2, float32_sum_3 by assumption. mean_arith.
Qed.

Lemma mapM_Ok {A B : Type} (f : A -> result B) (g : A -> B) (l : list A) :
  Forall (fun a => f a = Ok (g a)) l -> mapM f l = Ok (map g l).
Proof.
  induction 1 as [| a l Ha _ IH]; [reflexivity |].
  cbn [mapM map bind]. rewrite Ha. cbn [bind]. rewrite IH. reflexivity.
Qed.

Lemma float32_array_pixels segment :
  Forall in_pixel_range segment ->
  float32_array segment = Ok (map float32_point segment).
Proof.
  intros Hr. unfold float32_array. apply mapM_Ok.
  eapply Forall_impl; [exact Hr |].
  intros [x y] [Hx Hy]. cbn [fst snd] in *.
  rewrite (float32_of_int_pixel x Hx), (float32_of_int_pixel y Hy).
  reflexivity.
Qed.

Lemma window_map {A B : Type} (f : A -> B) (l : list A) i :
  window (map f l) i = map f (window l i).
Proof. unfold window. by rewrite skipn_map, firstn_map. Qed.

Lemma window_length {A : Type} (l : list A) i :
  (i < length l)%nat ->
  length (window l i) = Nat.min kernel_size (i + 1).
Proof.
  intros Hi. unfold window, kernel_size.
  rewrite length_take, length_drop. lia.
Qed.

Lemma take_as_nth {A : Type} (d : A) (l : list A) : forall n,
  (n <= length l)%nat ->
  take n l = map (fun j => nth j l d) (seq 0 n).
Proof.
  induction l as [| a l IH]; intros n Hn.
  - cbn [length] in Hn. by replace n with 0%nat by lia.
  - destruct n as [| n]; [reflexivity |].
    cbn [take seq map nth]. f_equal.
    rewrite <- seq_shift, map_map. cbn [nth].
    apply IH. cbn [length] in Hn. lia.
Qed.

Lemma nth_drop {A : Type} (d : A) (l : list A) k j :
  nth j (drop k l) d = nth (k + j) l d.
Proof.
  revert l. induction k as [| k IH]; intros l; [reflexivity |].
  destruct l as [| a l]; cbn [drop Nat.add nth].
  - by destruct j.
  - apply IH.
Qed.

Lemma seq_from k n : seq k n = map (fun j => (k + j)%nat) (seq 0 n).
Proof.
  revert k. induction n as [| n IH]; intros k; [reflexivity |].
  cbn [seq map]. rewrite Nat.add_0_r. f_equal.
  rewrite (IH (S k)), (IH 1%nat), map_map.
  apply map_ext. intros j. lia.
Qed.

(** The window at index [i] holds the raw points at the up to three
    indices that end at [i]. *)
Lemma window_points segment i :
  (i < length segment)%nat ->
  window segment i
  = map (nth_point segment)
        (seq (i + 1 - kernel_size) (Nat.min kernel_size (i + 1))).
Proof.
  intros Hi. unfold window, kernel_size.
  rewrite Nat.max_0_l.
  replace (i + 1 - (i + 1 - 3))%nat with (Nat.min 3 (i + 1)) by lia.
  rewrite (take_as_nth (0, 0))
    by (rewrite length_drop; unfold Position in *; lia).
  rewrite (seq_from (i + 1 - 3)), map_map.
  apply map_ext. intros j. apply nth_drop.
Qed.

Lemma smoothed_point_pixels segment i :
  Forall in_pixel_range segment -> (i < length segment)%nat ->
  smoothed_point (map float32_point segment) i
  = Ok (window_average (window segment i)).
Proof.
  intros Hr Hi. unfold smoothed_point.
  rewrite window_map, !map_map. cbn [float32_point fst snd].
  pose proof (window_length segment i Hi) as Hlen.
  assert (Hw : Forall in_pixel_range (window segment i)).
  { unfold window. by apply Forall_take, Forall_drop. }
  replace (map (fun p : Position => Finite (inject_Z (fst p)))
             (window segment i))
    with (map (fun z => Finite (inject_Z z)) (map fst (window segment i)))
    by (by rewrite map_map).
  replace (map (fun p : Position => Finite (inject_Z (snd p)))
             (window segment i))
    with (map (fun z => Finite (inject_Z z)) (map snd (window segment i)))
    by (by rewrite map_map).
  unfold Position in *.
  rewrite !int_of_mean.
  - cbn [bind]. unfold window_average. by rewrite !length_map.
  - rewrite length_map, Hlen. unfold kernel_size. lia.
  - apply Forall_map. eapply Forall_impl; [exact Hw |]. by intros p [].
  - rewrite length_map, Hlen. unfold kernel_size. lia.
  - apply Forall_map. eapply Forall_impl; [exact Hw |]. by intros p [].
Qed.

Lemma smooth_segment_pixels segment :
  Forall in_pixel_range segment ->
  smooth_segment segment
  = Ok (map (fun i => window_average (window segment i))
            (seq 0 (length segment))).
Proof.
  intros Hr. unfold smooth_segment.
  rewrite float32_array_pixels by exact Hr. cbn [bind].
  rewrite length_map. apply mapM_Ok.
  apply List.Forall_forall. intros i Hi. apply in_seq in Hi.
  apply smoothed_point_pixels; [exact Hr | lia].
Qed.

Lemma mapM_length {A B : Type} (f : A -> result B) (l : list A) :
  forall l', mapM f l = Ok l' -> length l' = length l.
Proof.
  induction l as [| a l IH]; cbn [mapM bind]; intros l' H.
  - by injection H as <-.
  - destruct (f a) as [b | e]; cbn [bind] in H; [| discriminate].
    destruct (mapM f l) as [bs | e]; cbn [bind] in H; [| discriminate].
    injection H as <-. cbn [length]. f_equal. by apply IH.
Qed.

Lemma smooth_segment_length segment smoothed_points :
  smooth_segment segment = Ok smoothed_points ->
  length smoothed_points = length segment.
Proof.
  unfold smooth_segment. intros H.
  destruct (float32_array segment) as [arr |] eqn:Harr; cbn [bind] in H;
    [| discriminate].
  unfold float32_array in Harr.
  apply mapM_length in H, Harr.
  rewrite H, length_seq. exact Harr.
Qed.
End Smoothing.

(** C6. Smoothing keeps the length of the segment.  On a segment whose
    coordinates are in the range where float32 is exact it is a causal
    moving average of window size 3: the output at each index is the
    average, truncated to integers by [int()], of the up to three raw points
    that end at that index, so the first output is the first raw point. *)
Theorem smoothing_is_causal_average (segment : list Position) :
  (forall smoothed_points,
     smooth_segment segment = Ok smoothed_points ->
     length smoothed_points = length segment)
  /\ (Forall in_pixel_range segment ->
      exists smoothed_points,
        smooth_segment segment = Ok smoothed_points
        /\ length smoothed_points = length segment
        /\ smoothed_points
           = map (fun i => window_average (window segment i))
                 (seq 0 (length segment))
        /\ (forall i, (i < length segment)%nat ->
              window segment i
              = map (nth_point segment)
                    (seq (i + 1 - 3) (Nat.min 3 (i + 1))))
        /\ nth_error smoothed_points 0 = nth_error segment 0).
Proof.
  split; [intros sm; apply smooth_segment_length |].
  intros Hr. eexists. split; [by apply smooth_segment_pixels |].
  split; [by rewrite length_map, length_seq |].
  split; [reflexivity |].
  split; [intros i Hi; by apply window_points |].
  destruct segment as [| [x y] rest]; [reflexivity |].
  cbn [length seq map nth_error]. f_equal.
  unfold window_average, window. cbn. by rewrite !Z.add_0_r, !Z.quot_1_r.
Qed.

Lemma smoothing_is_causal_average_witness :
  smooth_segment [(0, 0); (1, 0); (5, 7); (-3, -8)]
  = Ok [(0, 0); (0, 0); (2, 2); (1, 0)].
Proof.
  assert (Hr : Forall in_pixel_range [(0, 0); (1, 0); (5, 7); (-3, -8)]).
  { repeat (constructor;
              [split; unfold pixel_range; cbn [fst snd];
               change (2 ^ 22) with 4194304; lia |]).
    constructor. }
  destruct (smoothing_is_causal_average [(0, 0); (1, 0); (5, 7); (-3, -8)])
    as [_ Hsmooth].
  destruct (Hsmooth Hr) as (sm & Hsm & _ & Heq & _).
  rewrite Hsm, Heq. reflexivity.
Defined.

(** ** Colour bands and thickness *)

Section Gradient.
Local Open Scope Q_scope.

Lemma Qltb_lt p q : Qltb p q = true <-> p < q.
Proof.
  unfold Qltb. rewrite negb_true_iff, <- not_true_iff_false, Qle_bool_iff.
  split; [apply Qnot_le_lt | apply Qlt_not_le].
Qed.

Lemma Qltb_ge p q : Qltb p q = false <-> q <= p.
Proof.
  unfold Qltb. rewrite negb_false_iff. apply Qle_bool_iff.
Qed.

Lemma int_of_Q_le p q : p <= q -> (int_of_Q p <= int_of_Q q)%Z.
Proof.
  destruct p as [a b], q as [c d]. unfold Qle, int_of_Q.
  cbn [Qnum Qden]. intros H.
  rewrite <- (Z.quot_mul_cancel_r a (Zpos b) (Zpos d)) by lia.
  rewrite <- (Z.quot_mul_cancel_r c (Zpos d) (Zpos b)) by lia.
  rewrite (Z.mul_comm (Zpos d) (Zpos b)).
  apply Z.quot_le_mono; lia.
Qed.

Lemma int_of_Q_eq p q : p == q -> int_of_Q p = int_of_Q q.
Proof.
  intros H. apply Z.le_antisymm; apply int_of_Q_le; rewrite H;
    apply Qle_refl.
Qed.

#[local] Instance int_of_Q_proper : Proper (Qeq ==> eq) int_of_Q.
Proof. intros p q H. by apply int_of_Q_eq. Qed.

#[local] Instance Qltb_proper : Proper (Qeq ==> Qeq ==> eq) Qltb.
Proof.
  intros p p' Hp q q' Hq. unfold Qltb. f_equal.
  destruct (Qle_bool q p) eqn:E, (Qle_bool q' p') eqn:E'; try reflexivity.
  - apply Qle_bool_iff in E. rewrite Hp, Hq in E.
    apply Qle_bool_iff in E. congruence.
  - apply Qle_bool_iff in E'. rewrite <- Hp, <- Hq in E'.
    apply Qle_bool_iff in E'. congruence.
Qed.

Lemma binary64_eq p q : p == q -> binary64 p = binary64 q.
Proof.
  intros H. unfold binary64. by rewrite (Qred_complete p q H).
Qed.

Lemma trail_color_eq p q : p == q -> trail_color p = trail_color q.
Proof.
  intros H. unfold trail_color.
  rewrite (Qltb_proper p q H (3 # 10) (3 # 10) (Qeq_refl _)).
  rewrite (Qltb_proper p q H (7 # 10) (7 # 10) (Qeq_refl _)).
  unfold low_band_color, mid_band_color, high_band_color.
  by rewrite (binary64_eq p q H).
Qed.

Lemma trail_thickness_le p q :
  p <= q -> (trail_thickness p <= trail_thickness q)%Z.
Proof.
  intros H. unfold trail_thickness.
  apply Z.max_le_compat_l, int_of_Q_le.
  apply Qplus_le_r. apply Qmult_le_compat_r; [exact H | discriminate].
Qed.

Lemma trail_thickness_eq p q :
  p == q -> trail_thickness p = trail_thickness q.
Proof.
  intros H. apply Z.le_antisymm; apply trail_thickness_le; rewrite H;
    apply Qle_refl.
Qed.

Lemma Zpos_of_nat n : (0 < n)%nat -> Zpos (Pos.of_nat n) = Z.of_nat n.
Proof.
  intros Hn. rewrite <- positive_nat_Z, Nat2Pos.id by lia. reflexivity.
Qed.

Lemma progress_bounds i total :
  (S i < total)%nat -> 0 < progress i total /\ progress i total < 1.
Proof.
  intros Hi. unfold progress, Qlt. cbn [Qnum Qden].
  rewrite Zpos_of_nat by lia. lia.
Qed.

Lemma quot_lt_bound (n d k : Z) :
  (0 < d -> 0 < k -> n < k * d -> Z.quot n d < k)%Z.
Proof.
  intros Hd Hk Hn.
  destruct (Z_lt_le_dec n 0) as [Hneg | Hpos].
  - apply Z.le_lt_trans with 0%Z; [| exact Hk].
    rewrite <- (Z.quot_0_l d) by lia.
    apply Z.quot_le_mono; lia.
  - apply Z.quot_lt_upper_bound; lia.
Qed.

Lemma trail_thickness_below_6 p : p < 1 -> (trail_thickness p <= 5)%Z.
Proof.
  destruct p as [a b]. unfold Qlt, trail_thickness, int_of_Q.
  cbn [Qnum Qden Qplus Qmult]. intros H.
  apply Z.max_lub; [lia |].
  apply Z.lt_succ_r. apply quot_lt_bound; lia.
Qed.

Lemma trail_thickness_from_2 p : 0 <= p -> (2 <= trail_thickness p)%Z.
Proof.
  intros H. change 2%Z with (trail_thickness 0).
  by apply trail_thickness_le.
Qed.

Lemma trail_color_bands p :
  (p < 3 # 10 /\ trail_color p = low_band_color p)
  \/ (3 # 10 <= p /\ p < 7 # 10 /\ trail_color p = mid_band_color p)
  \/ (7 # 10 <= p /\ trail_color p = high_band_color p).
Proof.
  unfold trail_color.
  destruct (Qltb p (3 # 10)) eqn:E1.
  - left. split; [by apply Qltb_lt | reflexivity].
  - right. apply Qltb_ge in E1.
    destruct (Qltb p (7 # 10)) eqn:E2.
    + left. split; [exact E1 |]. split; [by apply Qltb_lt | reflexivity].
    + right. split; [by apply Qltb_ge | reflexivity].
Qed.
End Gradient.

(** In every segment of up to 100 points, the default length of the trail,
    the band and the thickness decided on the float are those decided on
    the exact fraction. *)
Lemma decisions_are_exact :
  forallb
    (fun total =>
       forallb
         (fun i =>
            Nat.eqb (float_band (progress i total))
              (exact_band (progress i total))
            && (float_thickness (progress i total)
                =? trail_thickness (progress i total)))
         (seq 0 (total - 1)))
    (seq 0 101)
  = true.
Proof. vm_compute. reflexivity. Qed.

Section GradientAlongSegment.
Local Open Scope Q_scope.

Lemma progress_le i j total :
  (i <= j)%nat -> progress i total <= progress j total.
Proof.
  intros H. unfold progress, Qle. cbn [Qnum Qden].
  apply Z.mul_le_mono_nonneg_r; lia.
Qed.

Lemma trail_thickness_below p (k : Z) :
  (1 <= k)%Z -> 2 + p * 4 < inject_Z k + 1 -> (trail_thickness p <= k)%Z.
Proof.
  intros Hk H. unfold trail_thickness. apply Z.max_lub; [exact Hk |].
  destruct (2 + p * 4) as [a b] eqn:E. unfold int_of_Q. cbn [Qnum Qden].
  unfold Qlt in H. cbn in H.
  apply Z.lt_succ_r. apply quot_lt_bound; lia.
Qed.

Lemma trail_thickness_above p (k : Z) :
  inject_Z k <= 2 + p * 4 -> (k <= trail_thickness p)%Z.
Proof.
  intros H. unfold trail_thickness.
  apply Z.le_trans with (int_of_Q (2 + p * 4)); [| apply Z.le_max_r].
  replace k with (int_of_Q (inject_Z k)); [by apply int_of_Q_le |].
  unfold int_of_Q, inject_Z. cbn [Qnum Qden]. apply Z.quot_1_r.
Qed.

Lemma first_line_thickness total :
  (5 <= total)%nat -> trail_thickness (progress 0 total) = 2%Z.
Proof.
  intros H. apply Z.le_antisymm.
  - apply trail_thickness_below; [lia |].
    unfold progress, Qlt. cbn [Qnum Qden Qplus Qmult inject_Z].
    rewrite ?Pos.mul_1_r, ?Pos.mul_1_l, Zpos_of_nat by lia. lia.
  - apply trail_thickness_above.
    unfold progress, Qle. cbn [Qnum Qden Qplus Qmult inject_Z]. lia.
Qed.

Lemma last_line_thickness total :
  (5 <= total)%nat -> trail_thickness (progress (total - 2) total) = 5%Z.
Proof.
  intros H. apply Z.le_antisymm.
  - apply trail_thickness_below_6, progress_bounds. lia.
  - apply trail_thickness_above.
    unfold progress, Qle. cbn [Qnum Qden Qplus Qmult inject_Z].
    rewrite ?Pos.mul_1_r, ?Pos.mul_1_l, Zpos_of_nat by lia. lia.
Qed.

Lemma thickness_sorted (total : nat) (keep : nat -> bool) (len : nat) :
  forall start,
  StronglySorted Z.le
    (map (fun i => trail_thickness (progress i total))
       (List.filter keep (seq start len))).
Proof.
  induction len as [| len IH]; intros start; [constructor |].
  cbn [seq List.filter]. destruct (keep start); [| apply IH].
  cbn [map]. constructor; [apply IH |].
  apply List.Forall_forall. intros t Ht.
  apply in_map_iff in Ht as (i & <- & Hi).
  apply filter_In in Hi as [Hi _]. apply in_seq in Hi.
  apply trail_thickness_le, progress_le. lia.
Qed.

Lemma filter_map_lines {A B : Type} (f : B -> bool) (g : A -> B)
    (l : list A) :
  List.filter f (map g l) = map g (List.filter (fun a => f (g a)) l).
Proof.
  induction l as [| a l IH]; [reflexivity |]. cbn [map List.filter].
  destruct (f (g a)); cbn [map]; by rewrite IH.
Qed.
End GradientAlongSegment.

(** C7. The colour of a gradient line is a function of its normalized
    progress alone: below 3/10 the first band applies, from 3/10 and below
    7/10 the second, from 7/10 on the third, and equal progress gives equal
    colour and thickness whatever the length of the segment.  The thickness
    never decreases as progress grows; it is 2 at progress 0 and 6 at
    progress 1.  Along a segment the progress of the lines grows from its
    start to its end: the gradient pass adds, in this order, the line from
    point [i] to point [i + 1] for every [i] whose two points are inside the
    image, with the colour and the thickness of progress [(i + 1) / total].
    So the thicknesses of the lines drawn never decrease from the start of
    the segment to its end, all lie between 2 and 5, and in a segment of
    five or more points the first line is 2 and the last 5 pixels thick. *)
Theorem gradient_follows_progress :
  (forall p : Q,
     (p < 3 # 10 /\ trail_color p = low_band_color p)%Q
     \/ (3 # 10 <= p /\ p < 7 # 10 /\ trail_color p = mid_band_color p)%Q
     \/ (7 # 10 <= p /\ trail_color p = high_band_color p)%Q)
  /\ (forall p q : Q,
        (p == q)%Q ->
        trail_color p = trail_color q
        /\ trail_thickness p = trail_thickness q)
  /\ (forall p q : Q,
        (p <= q)%Q -> trail_thickness p <= trail_thickness q)
  /\ (trail_thickness 0 = 2 /\ trail_thickness 1 = 6)
  /\ (forall i j total : nat,
        (i <= j)%nat -> (progress i total <= progress j total)%Q)
  /\ (forall (smoothed_points : list Position) (image : Image),
        let total := length smoothed_points in
        let line i :=
          mkStroke (nth_point smoothed_points i)
            (nth_point smoothed_points (i + 1))
            (trail_color (progress i total))
            (trail_thickness (progress i total)) in
        let drawn :=
          List.filter
            (fun i => in_image image (nth_point smoothed_points i)
                      && in_image image (nth_point smoothed_points (i + 1)))
            (seq 0 (total - 1)) in
        strokes (draw_gradient smoothed_points image)
        = strokes image ++ map line drawn
        /\ StronglySorted Z.le (map stroke_thickness (map line drawn))
        /\ Forall (fun i =>
                     (0 < progress i total /\ progress i total < 1)%Q
                     /\ 2 <= trail_thickness (progress i total) <= 5) drawn
        /\ ((5 <= total)%nat ->
            trail_thickness (progress 0 total) = 2
            /\ trail_thickness (progress (total - 2) total) = 5)).
Proof.
  split; [exact trail_color_bands |].
  split; [intros p q H; split;
          [by apply trail_color_eq | by apply trail_thickness_eq] |].
  split; [exact trail_thickness_le |].
  split; [split; reflexivity |].
  split; [exact progress_le |].
  intros sm image total line drawn.
  split; [| split; [| split]].
  - rewrite draw_gradient_strokes. cbn [add_strokes strokes]. f_equal.
    unfold gradient_strokes. apply filter_map_lines.
  - rewrite map_map. apply thickness_sorted.
  - apply List.Forall_forall. intros i Hi.
    apply filter_In in Hi as [Hi _]. apply in_seq in Hi.
    assert (Hlt : (S i < total)%nat) by lia.
    destruct (progress_bounds i total Hlt) as [H0 H1].
    split; [by split |].
    split; [apply trail_thickness_from_2, Qlt_le_weak, H0
           | by apply trail_thickness_below_6].
  - intros H5.
    split; [by apply first_line_thickness | by apply last_line_thickness].
Qed.

Lemma gradient_follows_progress_witness :
  trail_thickness (progress 0 4) <= trail_thickness (progress 2 4)
  /\ trail_color (progress 0 10) = trail_color (progress 1 20)
  /\ map stroke_thickness
       (strokes (draw_gradient [(0, 0); (1, 0); (2, 0); (3, 0); (4, 0)]
                   (mkImage 10 10 [])))
     = [2; 3; 4; 5].
Proof.
  destruct gradient_follows_progress as (_ & Heq & Hmono & _ & _ & Hdrawn).
  split; [| split].
  - apply Hmono. unfold progress, Qle. cbn. lia.
  - apply Heq. unfold progress, Qeq. reflexivity.
  - destruct (Hdrawn [(0, 0); (1, 0); (2, 0); (3, 0); (4, 0)]
                (mkImage 10 10 [])) as (Hstrokes & _).
    rewrite Hstrokes. reflexivity.
Defined.

(** * The display tick and the setter API *)

Section Tick.
Implicit Types (w : RobotTrajectoryWidget) (base : Image).

Lemma split_segments_nil : split_segments [] = [].
Proof. reflexivity. Qed.

Lemma update_display_outcome w base :
  base_frame w = Some base ->
  let pts :=
    map point_of_sample (get_trajectory_copy (trajectory_manager w)) in
  let frame := tick_frame base (drawing_enabled w) pts in
  update_display w
  = match tick_error (drawing_enabled w) pts with
    | Some e =>
        if caught e then (tick_completed frame w, None)
        else (set_current_frame (Some frame) w, Some e)
    | None => (tick_completed frame w, None)
    end.
Proof.
  intros Hbase pts frame. subst pts frame.
  unfold update_display, tick_frame, tick_error. rewrite Hbase.
  destruct (drawing_enabled w); [| reflexivity]. cbn [andb].
  destruct (get_trajectory_copy (trajectory_manager w)) as [| s l].
  - cbn [length Nat.eqb negb map]. rewrite split_segments_nil.
    cbn [drawn_segments first_error flat_map].
    rewrite add_strokes_nil. reflexivity.
  - cbn [length Nat.eqb negb]. rewrite draw_smooth_trail_strokes.
    destruct (first_error (split_segments (map point_of_sample (s :: l))))
      as [e |]; [destruct (caught e) |]; reflexivity.
Qed.
End Tick.

Section TickErrors.
Implicit Types (w : RobotTrajectoryWidget) (base : Image).

Lemma split_at_breaks_Forall (P : point_data -> Prop) pts :
  Forall P pts -> Forall (Forall P) (split_at_breaks pts).
Proof.
  intros H. rewrite <- (concat_split_at_breaks pts) in H.
  revert H. generalize (split_at_breaks pts) as gs.
  induction gs as [| g gs IH]; cbn [concat]; intros H; [constructor |].
  apply Forall_app in H as [Hg Hgs].
  constructor; [exact Hg | by apply IH].
Qed.

Lemma split_segments_Forall (P : Position -> Prop) pts :
  Forall (fun pd => P (point_xy pd)) pts ->
  Forall (Forall P) (split_segments pts).
Proof.
  intros H. rewrite split_segments_by_breaks. unfold segments_by_breaks.
  apply split_at_breaks_Forall in H.
  induction H as [| g gs Hg _ IH]; cbn [List.filter map]; [constructor |].
  destruct (longer_than_one g); cbn [map]; [| exact IH].
  constructor; [| exact IH]. by apply Forall_map.
Qed.

Lemma segment_error_pixels segment :
  Forall in_pixel_range segment -> segment_error segment = None.
Proof.
  intros H. unfold segment_error.
  destruct (length segment <? 2)%nat; [reflexivity |].
  by rewrite smooth_segment_pixels.
Qed.

Lemma no_error_all_drawn segments :
  Forall (fun segment => segment_error segment = None) segments ->
  first_error segments = None /\ drawn_segments segments = segments.
Proof.
  induction 1 as [| segment rest Hs _ [IH1 IH2]];
    cbn [first_error drawn_segments]; [by split |].
  rewrite Hs, IH1, IH2. by split.
Qed.

Lemma snapshot_in_pixel_range (l : list Sample) :
  Forall (fun s => in_pixel_range (sample_xy s)) l ->
  Forall (fun pd => in_pixel_range (point_xy pd)) (map point_of_sample l).
Proof.
  intros H. apply Forall_map. eapply Forall_impl; [exact H |].
  by intros [x y t b].
Qed.
End TickErrors.

(** C5, as the code has it.  Coordinates outside the image raise nothing:
    each line with an endpoint outside is left out on its own and every
    other line of every segment is drawn, so with coordinates in the pixel
    range the tick always completes.  [update_display] has one handler, around
    the whole trail drawing, for IndexError and ValueError: when one of them
    is raised in a segment the tick completes with the segments drawn before
    it, and the later segments are not drawn.  An exception of another type
    leaves [update_display] after [current_frame] is assigned, before the
    label and the counter are updated. *)
Theorem drawing_errors_in_tick (w : RobotTrajectoryWidget) (base : Image) :
  base_frame w = Some base ->
  let snapshot := get_trajectory_copy (trajectory_manager w) in
  let pts := map point_of_sample snapshot in
  let frame := tick_frame base (drawing_enabled w) pts in
  (Forall (fun s => in_pixel_range (sample_xy s)) snapshot ->
   update_display w = (tick_completed frame w, None)
   /\ drawn_segments (split_segments pts) = split_segments pts)
  /\ (forall e,
        tick_error (drawing_enabled w) pts = Some e -> caught e = true ->
        update_display w = (tick_completed frame w, None))
  /\ (forall e,
        tick_error (drawing_enabled w) pts = Some e -> caught e = false ->
        update_display w = (set_current_frame (Some frame) w, Some e))
  /\ (forall w' e,
        update_display w = (w', Some e) ->
        e <> IndexError /\ e <> ValueError
        /\ image_label w' = image_label w
        /\ trajectory_manager w' = trajectory_manager w).
Proof.
  intros Hbase snapshot pts frame.
  pose proof (update_display_outcome w base Hbase) as Hout.
  cbn zeta in Hout. fold snapshot pts frame in Hout.
  split; [| split; [| split]].
  - intros Hr.
    assert (Hsegs : Forall (fun segment => segment_error segment = None)
                      (split_segments pts)).
    { eapply Forall_impl;
        [apply (split_segments_Forall in_pixel_range),
           snapshot_in_pixel_range, Hr |].
      apply segment_error_pixels. }
    destruct (no_error_all_drawn _ Hsegs) as [Hne Hall].
    split; [| exact Hall].
    rewrite Hout. unfold tick_error. rewrite Hne.
    by destruct (drawing_enabled w).
  - intros e He Hc. by rewrite Hout, He, Hc.
  - intros e He Hc. by rewrite Hout, He, Hc.
  - intros w' e. rewrite Hout.
    destruct (tick_error (drawing_enabled w) pts) as [e' |];
      [| discriminate].
    destruct (caught e') eqn:Hc; [discriminate |].
    intros [= <- <-].
    split; [intros ->; discriminate |].
    split; [intros ->; discriminate |]. by split.
Qed.

Lemma drawing_errors_in_tick_witness :
  let base := mkImage 360 640 [] in
  let m := update_position (700, 10) 2
             (update_position (600, 10) 1 (TrajectoryManager_init 100)) in
  let w := set_trajectory_manager m
             (enable_drawing (RobotTrajectoryWidget_init 640 360 100)) in
  snd (update_display w) = None
  /\ option_map (fun f => map (fun s => (stroke_p1 s, stroke_p2 s)) (strokes f))
       (current_frame (fst (update_display w)))
     = Some [((600, 10), (612, 10)); ((612, 10), (625, 10))].
Proof.
  intros base m w.
  destruct (drawing_errors_in_tick w base eq_refl) as (Hok & _).
  assert (Hr : Forall (fun s => in_pixel_range (sample_xy s))
                 (get_trajectory_copy (trajectory_manager w))).
  { cbv -[Z.le Z.abs Z.pow].
    repeat (constructor;
              [split; unfold pixel_range; change (2 ^ 22) with 4194304;
               lia |]).
    constructor. }
  destruct (Hok Hr) as [Hupd _].
  rewrite Hupd. split; reflexivity.
Defined.

(** C5, as the specification words it, fails.  First, on a widget reached
    through the setter API alone (twice the same point at x = 10^40, whose
    distance is exactly 0, a break, two ordinary points), the average of the
    first segment is infinite in float32, [int()] raises OverflowError, the
    handler of [update_display] lets it through, and the tick ends without
    the second segment, the label or the counter.  Second, on a buffer whose first segment makes the
    float32 sum an infinity minus an infinity, [int()] raises ValueError,
    which is caught for the whole drawing and not for the segment: the tick
    completes, and the line of the second segment is still not drawn. *)
Lemma drawing_error_drops_remaining_segments :
  let base := mkImage 360 640 [] in
  let send x now w :=
    fst (update_trajectory_point
           (Some ({[ "x"%string := PyInt x ]} : gmap string PyValue)) now w) in
  let w_api :=
    send 3 4 (send 0 3
      (widget_break_trajectory
         (send (10 ^ 40) 2 (send (10 ^ 40) 1
            (enable_drawing (RobotTrajectoryWidget_init 640 360 100)))))) in
  let w_nan :=
    set_trajectory_manager
      (set_trajectory_points
         [mkSample (- 2 ^ 127) 0 1 true; mkSample (2 ^ 127) 0 2 false;
          mkSample (2 ^ 127) 0 3 false; mkSample (- 2 ^ 130) 0 4 false;
          mkSample 0 0 5 true; mkSample 3 0 6 false]
         (TrajectoryManager_init 100))
      (enable_drawing (RobotTrajectoryWidget_init 640 360 100)) in
  let snapshot w :=
    map point_of_sample (get_trajectory_copy (trajectory_manager w)) in
  segment_strokes base [(0, 0); (3, 0)]
  = [mkStroke (0, 0) (1, 0) (206, 64, 215) 4]
  /\ (split_segments (snapshot w_api)
      = [[(10 ^ 40, 0); (10 ^ 40, 0)]; [(0, 0); (3, 0)]]
      /\ update_display w_api
         = (set_current_frame (Some base) w_api, Some OverflowError))
  /\ (split_segments (snapshot w_nan)
      = [[(- 2 ^ 127, 0); (2 ^ 127, 0); (2 ^ 127, 0); (- 2 ^ 130, 0)];
         [(0, 0); (3, 0)]]
      /\ segment_error
           [(- 2 ^ 127, 0); (2 ^ 127, 0); (2 ^ 127, 0); (- 2 ^ 130, 0)]
         = Some ValueError
      /\ update_display w_nan = (tick_completed base w_nan, None)).
Proof.
  cbn zeta. split; [| split; [split | split; [| split]]];
    vm_compute; reflexivity.
Qed.

(** C9. On an empty or single-point snapshot [draw_smooth_trail] draws
    nothing and raises nothing, and so does a whole tick on such a buffer;
    a tick with no background image leaves the widget as it is. *)
Theorem rendering_degenerate_inputs (image : Image) (pts : list point_data)
    (w : RobotTrajectoryWidget) :
  ((length pts < 2)%nat -> draw_smooth_trail image pts = (image, None))
  /\ (base_frame w = None -> update_display w = (w, None))
  /\ (forall base,
        base_frame w = Some base ->
        (length (get_trajectory_copy (trajectory_manager w)) < 2)%nat ->
        update_display w = (tick_completed base w, None)).
Proof.
  split; [| split].
  - intros H. unfold draw_smooth_trail.
    destruct (Nat.ltb_spec (length pts) 2); [reflexivity | lia].
  - intros H. unfold update_display. by rewrite H.
  - intros base Hbase Hlen. unfold update_display. rewrite Hbase.
    unfold draw_smooth_trail. rewrite length_map.
    destruct (Nat.ltb_spec
                (length (get_trajectory_copy (trajectory_manager w))) 2);
      [| lia].
    destruct (drawing_enabled w
              && negb (Nat.eqb
                         (length (get_trajectory_copy (trajectory_manager w)))
                         0)); reflexivity.
Qed.

Lemma rendering_degenerate_inputs_witness :
  let image := mkImage 360 640 [] in
  draw_smooth_trail image [Tagged 5 5 1 true] = (image, None)
  /\ update_display (mkWidget 640 360 None None (TrajectoryManager_init 100)
                       true None)
     = (mkWidget 640 360 None None (TrajectoryManager_init 100) true None,
        None).
Proof.
  intros image.
  destruct (rendering_degenerate_inputs image [Tagged 5 5 1 true]
              (mkWidget 640 360 None None (TrajectoryManager_init 100)
                 true None)) as (Hdraw & Htick & _).
  split; [apply Hdraw; cbn; lia | apply Htick; reflexivity].
Defined.

(** C10. [update_trajectory_point(None)] changes nothing.  For a dict, a
    coordinate missing from it is taken as 0, both coordinates go through
    [int()] before [update_position] is called, and the call reaches the
    manager only with the two integers [int()] returned; when [int()] raises,
    the widget is left as it was.  What is said of the call of
    [update_position] is for coordinates in the range where the arithmetic
    of the manager is exact, those [int()] returns and those of the previous
    position: there [update_position] raises nothing. *)
Theorem trajectory_point_boundary (w : RobotTrajectoryWidget) (now : Time)
    (message : gmap string PyValue) :
  update_trajectory_point None now w = (w, None)
  /\ (message !! "x"%string = None ->
      message_get message "x" = PyInt 0
      /\ py_int (message_get message "x") = Ok 0)
  /\ (message !! "y"%string = None ->
      message_get message "y" = PyInt 0
      /\ py_int (message_get message "y") = Ok 0)
  /\ ((forall previous,
         previous_position (trajectory_manager w) = Some previous ->
         position_in_range previous) ->
      (forall ix iy,
         py_int (message_get message "x") = Ok ix ->
         py_int (message_get message "y") = Ok iy ->
         position_in_range (ix, iy)) ->
      (forall ix iy,
         py_int (message_get message "x") = Ok ix ->
         py_int (message_get message "y") = Ok iy ->
         update_trajectory_point (Some message) now w
         = (set_trajectory_manager
              (update_position (ix, iy) now (trajectory_manager w)) w,
            None))
      /\ (forall w',
            update_trajectory_point (Some message) now w = (w', None) ->
            exists ix iy : Z,
              py_int (message_get message "x") = Ok ix
              /\ py_int (message_get message "y") = Ok iy
              /\ trajectory_manager w'
                 = update_position (ix, iy) now (trajectory_manager w))
      /\ (forall w' e,
            update_trajectory_point (Some message) now w = (w', Some e) ->
            w' = w
            /\ (py_int (message_get message "x") = Raise e
                \/ py_int (message_get message "y") = Raise e))).
Proof.
  split; [reflexivity |].
  split; [intros H; unfold message_get; by rewrite H |].
  split; [intros H; unfold message_get; by rewrite H |].
  intros _ _.
  unfold update_trajectory_point.
  destruct (py_int (message_get message "x")) as [ix | ex].
  - destruct (py_int (message_get message "y")) as [iy | ey].
    + split; [intros ? ? [= <-] [= <-]; reflexivity |].
      split; [intros w' [= <-]; by exists ix, iy | intros w' e [=]].
    + split; [intros ? ? _ [=] |].
      split; [intros w' [=] |].
      intros w' e [= <- <-]. split; [reflexivity | by right].
  - split; [intros ? ? [=] |].
    split; [intros w' [=] |].
    intros w' e [= <- <-]. split; [reflexivity | by left].
Qed.

Lemma trajectory_point_boundary_witness :
  let w := RobotTrajectoryWidget_init 640 360 100 in
  let message : gmap string PyValue :=
    {[ "x"%string := PyFloat (Finite (7 # 2)) ]} in
  map sample_xy
    (get_trajectory_copy
       (trajectory_manager (fst (update_trajectory_point (Some message) 1 w))))
  = [(3, 0)].
Proof.
  intros w message.
  destruct (trajectory_point_boundary w 1 message)
    as (_ & _ & Hy & Hrange).
  destruct (Hy eq_refl) as [_ Hy0].
  destruct Hrange as (Hcall & _).
  - intros previous [=].
  - intros ix iy Hx Hy'.
    assert (Ex : @Ok Z ix = Ok 3) by (rewrite <- Hx; reflexivity).
    assert (Ey : @Ok Z iy = Ok 0) by (rewrite <- Hy'; exact Hy0).
    injection Ex as ->. injection Ey as ->.
    unfold position_in_range, exact_range. cbn [fst snd Z.abs].
    change (2 ^ 30) with 1073741824. lia.
  - rewrite (Hcall 3 0 eq_refl Hy0). reflexivity.
Defined.

(** * Further properties of the manager *)

Section ManagerInvariants.
Implicit Types (m : TrajectoryManager) (op : operation).

Lemma appended_samples_time position now m :
  Forall (fun s => sample_time s = now) (appended_samples position now m).
Proof.
  unfold appended_samples.
  destruct (previous_position m) as [[lx ly] |]; [| by repeat constructor].
  destruct (interpolate_motion m); [| by repeat constructor].
  destruct position as [px py].
  destruct (distance_exceeds_5 (lx, ly) (px, py)); by repeat constructor.
Qed.

Lemma appended_samples_last position now m :
  exists l is_break,
    appended_samples position now m = l ++ [destination position now is_break]
    /\ (length l <= 3)%nat.
Proof.
  unfold appended_samples.
  destruct (previous_position m) as [last |];
    [| exists [], true; split; [reflexivity | cbn; lia]].
  destruct (interpolate_motion m);
    [| exists [], false; split; [reflexivity | cbn; lia]].
  destruct (distance_exceeds_5 last position).
  - eexists _, false. split; [reflexivity |]. by rewrite length_map.
  - exists [], false. split; [reflexivity | cbn; lia].
Qed.

Lemma fold_deque_append_length_le {A : Type} n (xs d : list A) :
  (length d <= n)%nat ->
  (length (fold_left (deque_append n) xs d) <= n)%nat.
Proof.
  revert d. induction xs as [| x xs IH]; intros d Hd; [exact Hd |].
  cbn [fold_left]. apply IH. by apply deque_append_length_le.
Qed.

Lemma deque_append_last {A : Type} n (d : list A) x :
  (1 <= n)%nat -> last (deque_append n d x) = Some x.
Proof.
  intros Hn. unfold deque_append. rewrite length_app. cbn [length].
  destruct (Nat.ltb_spec n (length d + 1)); [| apply last_snoc].
  destruct d as [| a d]; [cbn [length] in *; lia |].
  cbn [app tail]. apply last_snoc.
Qed.

Lemma fold_deque_append_last {A : Type} n (xs d : list A) x :
  (1 <= n)%nat ->
  last (fold_left (deque_append n) (xs ++ [x]) d) = Some x.
Proof.
  intros Hn. rewrite fold_left_app. cbn [fold_left].
  by apply deque_append_last.
Qed.

Lemma update_position_fields position now m :
  current_position (update_position position now m) = Some position
  /\ last_position (update_position position now m) = previous_position m
  /\ trajectory_break_pending (update_position position now m) = false
  /\ interpolate_motion (update_position position now m)
     = interpolate_motion m
  /\ update_count (update_position position now m) = update_count m.
Proof.
  rewrite update_position_appends.
  destruct (append_all_fields (appended_samples position now m)
              (positions_updated position m))
    as (_ & _ & -> & -> & -> & -> & _ & ->).
  repeat split.
Qed.
End ManagerInvariants.

(** X1. The capacity bound is an invariant of the manager: whatever the
    state it holds in, it holds after [update_position], [break_trajectory]
    and [clear_trail], none of which changes the capacity. *)
Theorem capacity_is_invariant (op : operation) (m : TrajectoryManager) :
  within_capacity m ->
  within_capacity (apply_operation op m)
  /\ trail_length (apply_operation op m) = trail_length m.
Proof.
  unfold within_capacity. intros H.
  destruct op as [position now | |]; cbn [apply_operation].
  - destruct (update_position_points position now m) as [-> ->].
    split; [by apply fold_deque_append_length_le | reflexivity].
  - split; [exact H | reflexivity].
  - split; [cbn; lia | reflexivity].
Qed.

Lemma capacity_is_invariant_witness :
  let m := update_position (9, 9) 1 (TrajectoryManager_init 2) in
  within_capacity (update_position (90, 9) 2 m).
Proof.
  intros m.
  assert (H : within_capacity m) by (cbv; lia).
  exact (proj1 (capacity_is_invariant (OpUpdate (90, 9) 2) m H)).
Defined.

Section Chronology.
Implicit Types (m : TrajectoryManager) (pts xs : list Sample).

Lemma deque_append_suffix {A : Type} n (d : list A) x :
  deque_append n d x `suffix_of` d ++ [x].
Proof.
  unfold deque_append. destruct (n <? length (d ++ [x]))%nat; [| done].
  change (tail (d ++ [x])) with (drop 1 (d ++ [x])). apply suffix_drop.
Qed.

Lemma fold_deque_append_suffix {A : Type} n (xs d : list A) :
  fold_left (deque_append n) xs d `suffix_of` d ++ xs.
Proof.
  revert d. induction xs as [| x xs IH]; intros d; cbn [fold_left].
  - by rewrite app_nil_r.
  - etrans; [apply IH |].
    replace (d ++ x :: xs) with ((d ++ [x]) ++ xs) by by rewrite <- app_assoc.
    apply suffix_app, deque_append_suffix.
Qed.

Lemma sorted_after_appends n now pts xs :
  StronglySorted Z.le (map sample_time pts) ->
  Forall (fun s => sample_time s <= now) pts ->
  Forall (fun s => sample_time s = now) xs ->
  StronglySorted Z.le (map sample_time (fold_left (deque_append n) xs pts))
  /\ Forall (fun s => sample_time s <= now)
       (fold_left (deque_append n) xs pts).
Proof.
  intros Hsorted Hle Hnow.
  destruct (fold_deque_append_suffix n xs pts) as [k Hk].
  assert (Hall : Forall (fun s => sample_time s <= now) (pts ++ xs)).
  { apply Forall_app. split; [exact Hle |].
    eapply Forall_impl; [exact Hnow |]. intros s ->. lia. }
  assert (Hs : StronglySorted Z.le (map sample_time (pts ++ xs))).
  { rewrite map_app. apply StronglySorted_app_2.
    - intros t1 t2 H1 H2. apply list_elem_of_In, in_map_iff in H1, H2.
      destruct H1 as (s1 & <- & H1), H2 as (s2 & <- & H2).
      rewrite List.Forall_forall in Hle, Hnow.
      rewrite (Hnow s2 H2). by apply Hle.
    - exact Hsorted.
    - clear Hall Hk. induction Hnow as [| s xs' Hs Hxs IH]; cbn [map];
        constructor; [exact IH |].
      apply Forall_map. eapply Forall_impl; [exact Hxs |].
      intros s' Hs'. cbn beta. rewrite Hs, Hs'. apply Z.le_refl. }
  rewrite Hk in Hall, Hs. split.
  - rewrite map_app in Hs. by apply StronglySorted_app_1_r in Hs.
  - by apply Forall_app in Hall as [_ ?].
Qed.

Lemma chronological_run ops : forall m,
  StronglySorted Z.le (map sample_time (trajectory_points m)) ->
  StronglySorted Z.le (operation_times ops) ->
  Forall (fun s => Forall (Z.le (sample_time s)) (operation_times ops))
    (trajectory_points m) ->
  StronglySorted Z.le
    (map sample_time (trajectory_points (apply_operations ops m))).
Proof.
  induction ops as [| op ops IH]; intros m Hsorted Htimes Hbefore;
    [exact Hsorted |].
  cbn [apply_operations fold_left].
  fold (apply_operations ops (apply_operation op m)).
  destruct op as [position now | |];
    cbn [operation_times flat_map app] in Htimes, Hbefore;
    fold (operation_times ops) in Htimes, Hbefore.
  - apply StronglySorted_cons in Htimes as [Hnow Htimes].
    destruct (update_position_points position now m) as [Hpts _].
    destruct (sorted_after_appends (trail_length m) now (trajectory_points m)
                (appended_samples position now m)) as [Hs Hle].
    + exact Hsorted.
    + eapply Forall_impl; [exact Hbefore |].
      intros s Hs. by inversion Hs.
    + apply appended_samples_time.
    + apply IH; cbn [apply_operation]; rewrite ?Hpts; [exact Hs | exact Htimes |].
      eapply Forall_impl; [exact Hle |].
      intros s Hs'. eapply Forall_impl; [exact Hnow |].
      intros t Ht. cbn in *. lia.
  - apply IH; cbn [apply_operation]; assumption.
  - apply IH; cbn [apply_operation]; [constructor | exact Htimes | constructor].
Qed.
End Chronology.

(** X2. Insertion order is chronological order: when the clock readings of
    the successive [update_position] calls never go back, the timestamps of
    the snapshot never go back either, whatever breaks and clears come in
    between. *)
Theorem snapshot_is_chronological (capacity : nat) (ops : list operation) :
  Forall operation_in_range ops ->
  StronglySorted Z.le (operation_times ops) ->
  StronglySorted Z.le
    (map sample_time
       (get_trajectory_copy
          (apply_operations ops (TrajectoryManager_init capacity)))).
Proof.
  intros _ Htimes. unfold get_trajectory_copy.
  apply chronological_run; [constructor | exact Htimes | constructor].
Qed.

Lemma snapshot_is_chronological_witness :
  StronglySorted Z.le
    (map sample_time
       (get_trajectory_copy
          (apply_operations
             [OpUpdate (0, 0) 5; OpUpdate (40, 0) 5; OpBreak;
              OpUpdate (40, 8) 7]
             (TrajectoryManager_init 4)))).
Proof.
  apply snapshot_is_chronological.
  - repeat (constructor;
              [try exact I; split; unfold exact_range; cbn [fst snd];
               change (2 ^ 30) with 1073741824; lia |]).
    constructor.
  - cbn [operation_times flat_map app].
    repeat (constructor; [| repeat constructor; lia]). constructor.
Defined.

Section Newest.
Implicit Types (m : TrajectoryManager) (op : operation).

Lemma newest_after_update position now m :
  (1 <= trail_length m)%nat ->
  newest_is_current (update_position position now m).
Proof.
  intros Hcap. unfold newest_is_current.
  destruct (update_position_fields position now m) as (-> & _).
  destruct (update_position_points position now m) as [-> _].
  destruct (appended_samples_last position now m) as (l & b & -> & _).
  exists (destination position now b).
  split; [by apply fold_deque_append_last | by destruct position].
Qed.

Lemma newest_after_operation op m :
  (1 <= trail_length m)%nat ->
  newest_is_current m -> newest_is_current (apply_operation op m).
Proof.
  intros Hcap H. destruct op as [position now | |]; cbn [apply_operation].
  - by apply newest_after_update.
  - exact H.
  - reflexivity.
Qed.

Lemma apply_operations_capacity ops : forall m,
  trail_length (apply_operations ops m) = trail_length m.
Proof.
  induction ops as [| op ops IH]; intros m; [reflexivity |].
  cbn [apply_operations fold_left].
  fold (apply_operations ops (apply_operation op m)). rewrite IH.
  destruct op as [position now | |]; [| reflexivity | reflexivity].
  apply update_position_points.
Qed.
End Newest.

(** X3. With a capacity of at least one, the newest sample of the buffer is
    always the current position: after any sequence of updates, breaks and
    clears on a fresh manager either there is no current position and the
    buffer is empty, or the last buffered sample has the coordinates of
    [current_position]. *)
Theorem newest_sample_is_current (capacity : nat) (ops : list operation) :
  (1 <= capacity)%nat ->
  Forall operation_in_range ops ->
  newest_is_current (apply_operations ops (TrajectoryManager_init capacity)).
Proof.
  intros Hcap _.
  assert (H : forall m,
             (1 <= trail_length m)%nat -> newest_is_current m ->
             newest_is_current (apply_operations ops m)).
  { induction ops as [| op ops IH]; intros m Hm Hnew; [exact Hnew |].
    cbn [apply_operations fold_left].
    fold (apply_operations ops (apply_operation op m)).
    apply IH; [| by apply newest_after_operation].
    rewrite <- (apply_operations_capacity [op] m) in Hm. exact Hm. }
  apply H; [exact Hcap | reflexivity].
Qed.

Lemma newest_sample_is_current_witness :
  newest_is_current
    (apply_operations [OpUpdate (0, 0) 1; OpUpdate (50, 20) 2; OpBreak]
       (TrajectoryManager_init 2)).
Proof.
  apply newest_sample_is_current; [lia |].
  repeat (constructor;
            [try exact I; split; unfold exact_range; cbn [fst snd];
             change (2 ^ 30) with 1073741824; lia |]).
  constructor.
Defined.

(** X4. Break requests are not counted.  However many are made before the
    next point they act as one, and a break requested while there is no
    current position changes nothing of what the next [update_position]
    does. *)
Theorem breaks_do_not_accumulate (m : TrajectoryManager) (position : Position)
    (now : Time) (n : nat) :
  update_position position now
    (Nat.iter (S n) break_trajectory m)
  = update_position position now (break_trajectory m)
  /\ (current_position m = None ->
      update_position position now (break_trajectory m)
      = update_position position now m).
Proof.
  split.
  - f_equal. induction n as [| n IH]; [reflexivity |].
    rewrite Nat.iter_succ, IH. by destruct m.
  - intros H. destruct m as [cap pts cur last interp cnt running pending].
    cbn in H. subst cur. by destruct pending.
Qed.

Lemma breaks_do_not_accumulate_witness :
  update_position (3, 4) 1 (break_trajectory (TrajectoryManager_init 10))
  = update_position (3, 4) 1 (TrajectoryManager_init 10).
Proof.
  exact (proj2 (breaks_do_not_accumulate (TrajectoryManager_init 10) (3, 4) 1
                  0) eq_refl).
Defined.

Section Future.
Implicit Types (m : TrajectoryManager).

Lemma appended_samples_same_future position now m1 m2 :
  same_future m1 m2 ->
  appended_samples position now m1 = appended_samples position now m2.
Proof.
  intros (_ & _ & _ & Hi & Hp). unfold appended_samples. by rewrite Hi, Hp.
Qed.

Lemma same_future_step (c : call) m1 m2 :
  same_future m1 m2 -> same_future (step c m1) (step c m2).
Proof.
  intros H. pose proof H as (Hcap & Hpts & Hcur & Hi & Hp).
  destruct c as [position now |]; cbn [step].
  - destruct (update_position_points position now m1) as [Hp1 Hc1].
    destruct (update_position_points position now m2) as [Hp2 Hc2].
    destruct (update_position_fields position now m1)
      as (Ha1 & _ & Hb1 & Hi1 & _).
    destruct (update_position_fields position now m2)
      as (Ha2 & _ & Hb2 & Hi2 & _).
    unfold same_future, previous_position.
    rewrite Hp1, Hp2, Hc1, Hc2, Ha1, Ha2, Hb1, Hb2, Hi1, Hi2.
    rewrite (appended_samples_same_future position now m1 m2 H).
    by rewrite Hcap, Hpts, Hi.
  - unfold same_future, previous_position. cbn.
    by rewrite Hcap, Hpts, Hcur, Hi.
Qed.

Lemma same_future_run calls : forall m1 m2,
  same_future m1 m2 -> same_future (run calls m1) (run calls m2).
Proof.
  induction calls as [| c calls IH]; intros m1 m2 H; [exact H |].
  cbn [run fold_left]. apply IH. by apply same_future_step.
Qed.
End Future.

(** X5. A cleared manager is as good as a new one: after [clear_trail],
    any sequence of [update_position] and [break_trajectory] calls leaves
    the same buffer and the same current position as it does on a manager
    just built with the same capacity, whatever was buffered or pending
    before the clear. *)
Theorem clear_forgets_history (m : TrajectoryManager) (calls : list call) :
  interpolate_motion m = true ->
  Forall call_in_range calls ->
  get_trajectory_copy (run calls (clear_trail m))
  = get_trajectory_copy (run calls (TrajectoryManager_init (trail_length m)))
  /\ current_position (run calls (clear_trail m))
     = current_position
         (run calls (TrajectoryManager_init (trail_length m))).
Proof.
  intros Hi _.
  assert (H : same_future (clear_trail m)
                (TrajectoryManager_init (trail_length m))).
  { unfold same_future, previous_position. cbn. rewrite Hi.
    by destruct (trajectory_break_pending m). }
  apply (same_future_run calls) in H as (_ & Hpts & Hcur & _).
  by split.
Qed.

Lemma clear_forgets_history_witness :
  let m := break_trajectory
             (update_position (5, 5) 1 (TrajectoryManager_init 3)) in
  get_trajectory_copy (run [UpdatePosition (7, 7) 2] (clear_trail m))
  = [mkSample 7 7 2 true].
Proof.
  intros m.
  assert (Hr : Forall call_in_range [UpdatePosition (7, 7) 2]).
  { repeat (constructor;
              [split; unfold exact_range; cbn [fst snd];
               change (2 ^ 30) with 1073741824; lia |]).
    constructor. }
  destruct (clear_forgets_history m [UpdatePosition (7, 7) 2] eq_refl Hr)
    as [H _].
  rewrite H. reflexivity.
Defined.

(** * Further properties of the renderer *)

Section RendererFacts.
Implicit Types (image : Image) (pts : list point_data) (sm : list Position).

Lemma draw_smooth_trail_segments image pts :
  draw_smooth_trail image pts = draw_segments image (split_segments pts).
Proof.
  unfold draw_smooth_trail.
  destruct (Nat.ltb_spec (length pts) 2) as [Hlt | Hge]; [| reflexivity].
  destruct pts as [| pd [| pd' rest]]; [reflexivity | | cbn in Hlt; lia].
  destruct pd as [x y t b | x y]; [destruct b |]; reflexivity.
Qed.

Lemma gradient_strokes_inside image sm s :
  In s (gradient_strokes image sm) -> stroke_in_image image s = true.
Proof. unfold gradient_strokes. intros H. by apply filter_In in H as [_ ?]. Qed.

Lemma recent_strokes_inside image sm s :
  In s (recent_strokes image sm) -> stroke_in_image image s = true.
Proof.
  unfold recent_strokes. destruct (5 <? length sm)%nat; [| intros []].
  intros H. apply in_flat_map in H as (i & _ & H).
  by apply filter_In in H as [_ ?].
Qed.

Lemma segment_strokes_inside image segment s :
  In s (segment_strokes image segment) -> stroke_in_image image s = true.
Proof.
  unfold segment_strokes. destruct (length segment <? 2)%nat; [intros [] |].
  destruct (smooth_segment segment) as [sm | e]; [| intros []].
  intros H. apply in_app_or in H as [H | H].
  - by apply (gradient_strokes_inside image sm).
  - by apply (recent_strokes_inside image sm).
Qed.
End RendererFacts.

(** X6. The renderer never draws outside the image and never erases: the
    image keeps its shape, the strokes it had stay in front, in their order,
    and every stroke added has both endpoints inside the image. *)
Theorem strokes_stay_inside_image (image : Image) (pts : list point_data) :
  let image' := fst (draw_smooth_trail image pts) in
  same_shape image image'
  /\ exists added,
       strokes image' = strokes image ++ added
       /\ Forall (fun s => in_image image (stroke_p1 s) = true
                           /\ in_image image (stroke_p2 s) = true) added.
Proof.
  cbn zeta. rewrite draw_smooth_trail_strokes. cbn [fst].
  split; [apply same_shape_add_strokes |].
  eexists. split; [reflexivity |].
  apply List.Forall_forall. intros s H.
  apply in_flat_map in H as (segment & _ & H).
  apply segment_strokes_inside in H. unfold stroke_in_image in H.
  by apply andb_true_iff in H.
Qed.

Section BreakComposition.
Implicit Types (image : Image) (b : point_data).

Lemma cons_group_app g gs gs' :
  gs <> [] -> cons_group g (gs ++ gs') = cons_group g gs ++ gs'.
Proof.
  destruct gs as [| g' gs0]; [congruence |]. intros _.
  cbn [app cons_group]. by destruct (starts_with_break g').
Qed.

Lemma split_at_breaks_nonempty pd rest : split_at_breaks (pd :: rest) <> [].
Proof.
  destruct (split_at_breaks_cons pd rest) as (g & gs & ->). discriminate.
Qed.

Lemma split_at_breaks_app (l1 : list point_data) b (l2 : list point_data) :
  is_break_point b = true ->
  split_at_breaks (l1 ++ b :: l2)
  = split_at_breaks l1 ++ split_at_breaks (b :: l2).
Proof.
  intros Hb. induction l1 as [| pd l1 IH]; [reflexivity |].
  cbn [app]. change (split_at_breaks (pd :: l1 ++ b :: l2))
    with (cons_group [pd] (split_at_breaks (l1 ++ b :: l2))).
  rewrite IH. destruct l1 as [| pd' l1'].
  - destruct (split_at_breaks_cons b l2) as (g & gs & ->).
    cbn [split_at_breaks app cons_group starts_with_break]. by rewrite Hb.
  - rewrite cons_group_app by apply split_at_breaks_nonempty. reflexivity.
Qed.

Lemma split_segments_app (l1 : list point_data) b (l2 : list point_data) :
  is_break_point b = true ->
  split_segments (l1 ++ b :: l2)
  = split_segments l1 ++ split_segments (b :: l2).
Proof.
  intros Hb. rewrite !split_segments_by_breaks. unfold segments_by_breaks.
  by rewrite split_at_breaks_app, List.filter_app, map_app.
Qed.

Lemma draw_segments_app segments1 : forall image segments2,
  draw_segments image (segments1 ++ segments2)
  = match draw_segments image segments1 with
    | (image1, None) => draw_segments image1 segments2
    | failed => failed
    end.
Proof.
  induction segments1 as [| segment rest IH]; intros image segments2;
    [reflexivity |].
  cbn [app draw_segments].
  destruct (draw_segment image segment) as [image' [e |]];
    [reflexivity | apply IH].
Qed.
End BreakComposition.

(** X7. Rendering is split at a break: the segments of a snapshot with a
    break-tagged sample in it are the segments of what comes before that
    sample followed by the segments of what starts with it, and drawing the
    snapshot is drawing the first part and then, unless that raised, the
    second part on the result.  Nothing drawn after a break depends on the
    samples before it. *)
Theorem rendering_splits_at_a_break (image : Image)
    (l1 l2 : list point_data) (b : point_data) :
  is_break_point b = true ->
  split_segments (l1 ++ b :: l2)
  = split_segments l1 ++ split_segments (b :: l2)
  /\ draw_smooth_trail image (l1 ++ b :: l2)
     = match draw_smooth_trail image l1 with
       | (image1, None) => draw_smooth_trail image1 (b :: l2)
       | failed => failed
       end.
Proof.
  intros Hb. split; [by apply split_segments_app |].
  rewrite !draw_smooth_trail_segments, split_segments_app by exact Hb.
  rewrite draw_segments_app.
  destruct (draw_segments image (split_segments l1)) as [image1 [e |]];
    [reflexivity |].
  by rewrite draw_smooth_trail_segments.
Qed.

Lemma rendering_splits_at_a_break_witness :
  split_segments
    ([Tagged 0 0 1 true; Tagged 3 0 2 false]
     ++ Tagged 9 9 3 true :: [Tagged 9 5 4 false])
  = [[(0, 0); (3, 0)]; [(9, 9); (9, 5)]].
Proof.
  rewrite (proj1 (rendering_splits_at_a_break (mkImage 10 10 [])
                    [Tagged 0 0 1 true; Tagged 3 0 2 false]
                    [Tagged 9 5 4 false] (Tagged 9 9 3 true) eq_refl)).
  reflexivity.
Defined.

Section OneSegment.
Implicit Types (pts : list point_data).

Lemma split_at_breaks_no_break pd rest :
  Forall (fun p => is_break_point p = false) rest ->
  split_at_breaks (pd :: rest) = [pd :: rest].
Proof.
  revert pd. induction rest as [| pd' rest IH]; intros pd H; [reflexivity |].
  inversion H as [| ? ? Hb Hrest]; subst.
  change (split_at_breaks (pd :: pd' :: rest))
    with (cons_group [pd] (split_at_breaks (pd' :: rest))).
  rewrite IH by exact Hrest. cbn [cons_group starts_with_break]. by rewrite Hb.
Qed.
End OneSegment.

(** X8. Without a break flag after its first sample a snapshot of two or
    more samples is one segment, which holds all its points in their order;
    in particular samples that carry no flag at all never start a
    segment. *)
Theorem no_break_one_segment (pts : list point_data) :
  (2 <= length pts)%nat ->
  Forall (fun p => is_break_point p = false) (tail pts) ->
  split_segments pts = [map point_xy pts].
Proof.
  intros Hlen Hnb. destruct pts as [| pd rest]; [cbn in Hlen; lia |].
  cbn [tail] in Hnb.
  rewrite split_segments_by_breaks. unfold segments_by_breaks.
  rewrite split_at_breaks_no_break by exact Hnb.
  cbn [List.filter]. unfold longer_than_one.
  destruct (Nat.ltb_spec 1 (length (pd :: rest))); [reflexivity | lia].
Qed.

Lemma no_break_one_segment_witness :
  split_segments [Plain 1 1; Tagged 2 2 7 false; Plain 3 3]
  = [[(1, 1); (2, 2); (3, 3)]].
Proof.
  apply (no_break_one_segment [Plain 1 1; Tagged 2 2 7 false; Plain 3 3]).
  - cbn. lia.
  - repeat constructor.
Defined.

Section Box.
Implicit Types (lo hi : Position) (w segment sm : list Position).

Lemma window_average_in_box lo hi w :
  (1 <= length w <= 3)%nat ->
  Forall (in_box lo hi) w -> in_box lo hi (window_average w).
Proof.
  intros Hlen Hbox.
  destruct w as [| [x1 y1] [| [x2 y2] [| [x3 y3] [| p w]]]];
    cbn [length] in Hlen; try lia.
  all: repeat match goal with
         | H : Forall _ (_ :: _) |- _ =>
             apply Forall_cons in H as [[? ?] H]
         end.
  all: unfold in_box, window_average, sum_Z in *;
    cbn [map fold_right length fst snd Z.of_nat Pos.of_succ_nat Pos.succ] in *.
  all: split; Z.to_euclidean_division_equations; lia.
Qed.

Lemma window_Forall {A : Type} (P : A -> Prop) (l : list A) i :
  Forall P l -> Forall P (window l i).
Proof. intros H. unfold window. by apply Forall_take, Forall_drop. Qed.

Lemma smoothing_in_box lo hi segment :
  Forall (in_box lo hi) segment ->
  Forall (in_box lo hi)
    (map (fun i => window_average (window segment i))
         (seq 0 (length segment))).
Proof.
  intros Hbox. apply Forall_map, List.Forall_forall. intros i Hi.
  apply in_seq in Hi. apply window_average_in_box.
  - rewrite window_length by lia. unfold kernel_size. lia.
  - by apply window_Forall.
Qed.
End Box.

(** X9. Smoothing never leaves the bounding box of the raw points: when
    every point of a segment (coordinates in the range where float32 is
    exact) lies in a box, every smoothed point lies in that box. *)
Theorem smoothing_stays_in_box (segment : list Position) (lo hi : Position) :
  Forall in_pixel_range segment ->
  Forall (in_box lo hi) segment ->
  exists smoothed_points,
    smooth_segment segment = Ok smoothed_points
    /\ Forall (in_box lo hi) smoothed_points.
Proof.
  intros Hr Hbox. eexists. split; [by apply smooth_segment_pixels |].
  by apply smoothing_in_box.
Qed.

Lemma smoothing_stays_in_box_witness :
  exists smoothed_points,
    smooth_segment [(0, 5); (9, 5); (3, 8)] = Ok smoothed_points
    /\ Forall (in_box (0, 5) (9, 8)) smoothed_points.
Proof.
  apply smoothing_stays_in_box.
  - repeat (constructor;
              [split; unfold pixel_range; cbn [fst snd];
               change (2 ^ 22) with 4194304; lia |]).
    constructor.
  - repeat (constructor; [unfold in_box; cbn [fst snd]; lia |]).
    constructor.
Defined.

Section DrawnInFull.
Implicit Types (image : Image) (sm segment : list Position).

Lemma in_image_box image p :
  in_image image p = true
  <-> in_box (0, 0) (shape_width image - 1, shape_height image - 1) p.
Proof.
  unfold in_image, in_box. cbn [fst snd].
  rewrite !andb_true_iff, !Z.leb_le, !Z.ltb_lt. lia.
Qed.

Lemma filter_all {A : Type} (f : A -> bool) (l : list A) :
  Forall (fun a => f a = true) l -> List.filter f l = l.
Proof.
  induction 1 as [| a l Ha _ IH]; [reflexivity |].
  cbn [List.filter]. by rewrite Ha, IH.
Qed.

Lemma flat_map_ext_on {A B : Type} (f g : A -> list B) (l : list A) :
  (forall a, In a l -> f a = g a) -> flat_map f l = flat_map g l.
Proof.
  induction l as [| a l IH]; intros H; [reflexivity |].
  cbn [flat_map]. rewrite (H a) by by left.
  rewrite IH; [reflexivity |]. intros a' Ha'. apply H. by right.
Qed.

Lemma nth_point_In sm i : (i < length sm)%nat -> In (nth_point sm i) sm.
Proof. intros H. unfold nth_point. by apply nth_In. Qed.

Lemma gradient_strokes_all image sm :
  Forall (fun p => in_image image p = true) sm ->
  gradient_strokes image sm
  = map (gradient_stroke sm) (seq 0 (length sm - 1)).
Proof.
  intros Hin. unfold gradient_strokes. apply filter_all.
  apply Forall_map, List.Forall_forall. intros i Hi. apply in_seq in Hi.
  rewrite List.Forall_forall in Hin.
  unfold stroke_in_image. cbn [gradient_stroke stroke_p1 stroke_p2].
  rewrite !Hin by (apply nth_point_In; lia). reflexivity.
Qed.

Lemma recent_strokes_all image sm :
  Forall (fun p => in_image image p = true) sm ->
  recent_strokes image sm
  = if (5 <? length sm)%nat then
      flat_map (recent_pair (drop (length sm - 5) sm)) (seq 0 4)
    else [].
Proof.
  intros Hin. unfold recent_strokes.
  destruct (Nat.ltb_spec 5 (length sm)) as [Hlen | Hlen]; [| reflexivity].
  rewrite length_drop.
  replace (length sm - (length sm - 5) - 1)%nat with 4%nat by lia.
  apply flat_map_ext_on. intros i Hi. apply in_seq in Hi.
  rewrite filter_recent_pair.
  assert (Hrecent : Forall (fun p => in_image image p = true)
                      (drop (length sm - 5) sm)) by by apply Forall_drop.
  rewrite List.Forall_forall in Hrecent.
  rewrite !Hrecent by (apply nth_point_In; rewrite length_drop; lia).
  reflexivity.
Qed.
End DrawnInFull.

(** X10. A segment that lies inside the image is drawn in full: when all
    its raw points are inside an image of at most 2^22 pixels a side, the
    smoothing raises nothing, every smoothed point is inside the image too,
    and no line is left out: what is drawn is the whole gradient, one line
    per pair of neighbours, followed by the eight highlight strokes when the
    segment has more than five points. *)
Theorem inside_segment_is_drawn_in_full (image : Image)
    (segment : list Position) :
  shape_width image <= 2 ^ 22 -> shape_height image <= 2 ^ 22 ->
  (2 <= length segment)%nat ->
  Forall (fun p => in_image image p = true) segment ->
  exists smoothed_points,
    smooth_segment segment = Ok smoothed_points
    /\ Forall (fun p => in_image image p = true) smoothed_points
    /\ draw_segment image segment
       = (add_strokes image (all_strokes smoothed_points), None)
    /\ length (all_strokes smoothed_points)
       = (length segment - 1
          + if (5 <? length segment)%nat then 8 else 0)%nat.
Proof.
  intros Hw Hh Hlen Hin.
  assert (Hbox : Forall (in_box (0, 0)
                           (shape_width image - 1, shape_height image - 1))
                   segment).
  { eapply Forall_impl; [exact Hin |]. intros p. apply in_image_box. }
  assert (Hr : Forall in_pixel_range segment).
  { eapply Forall_impl; [exact Hbox |].
    intros [x y]. unfold in_box, in_pixel_range, pixel_range.
    cbn [fst snd]. lia. }
  pose proof (smooth_segment_pixels segment Hr) as Hsm.
  pose proof (smoothing_in_box _ _ segment Hbox) as Hsmbox.
  set (sm := map (fun i => window_average (window segment i))
                 (seq 0 (length segment))) in *.
  assert (Hsmin : Forall (fun p => in_image image p = true) sm).
  { eapply Forall_impl; [exact Hsmbox |]. intros p. apply in_image_box. }
  assert (Hsmlen : length sm = length segment)
    by (unfold sm; by rewrite length_map, length_seq).
  exists sm. split; [exact Hsm |]. split; [exact Hsmin |]. split.
  - rewrite draw_segment_strokes. unfold segment_strokes, segment_error.
    destruct (Nat.ltb_spec (length segment) 2); [lia |].
    rewrite Hsm, gradient_strokes_all, recent_strokes_all by exact Hsmin.
    reflexivity.
  - unfold all_strokes. rewrite length_app, length_map, length_seq, Hsmlen.
    destruct (5 <? length segment)%nat; reflexivity.
Qed.

Lemma inside_segment_is_drawn_in_full_witness :
  exists smoothed_points,
    draw_segment (mkImage 360 640 []) [(10, 10); (20, 10); (30, 40)]
    = (add_strokes (mkImage 360 640 []) (all_strokes smoothed_points), None)
    /\ length (all_strokes smoothed_points) = 2%nat.
Proof.
  destruct (inside_segment_is_drawn_in_full (mkImage 360 640 [])
              [(10, 10); (20, 10); (30, 40)])
    as (sm & _ & _ & Hdraw & Hlen).
  - cbn [shape_width]. change (2 ^ 22) with 4194304. lia.
  - cbn [shape_height]. change (2 ^ 22) with 4194304. lia.
  - cbn [length]. lia.
  - repeat constructor.
  - exists sm. split; [exact Hdraw | exact Hlen].
Defined.

Section Highlight.
Implicit Types (image : Image) (sm : list Position).

Lemma recent_strokes_length image sm :
  (length (recent_strokes image sm) <= 8)%nat.
Proof.
  unfold recent_strokes.
  destruct (Nat.ltb_spec 5 (length sm)) as [Hlen | Hlen]; [| cbn; lia].
  rewrite length_drop.
  replace (length sm - (length sm - 5) - 1)%nat with 4%nat by lia.
  cbn [seq flat_map]. rewrite !length_app, !filter_recent_pair.
  repeat match goal with
         | |- context [if ?b then _ else _] => destruct b
         end; cbn [length recent_pair]; lia.
Qed.
End Highlight.

(** X11. The highlight pass touches only segments of more than five
    smoothed points, and of those only the last five points: it adds at most
    eight strokes, each of them the wide halo (thickness 6) or the narrow
    core (thickness 2) between two neighbours among the last five points,
    with both endpoints inside the image. *)
Theorem highlight_covers_last_five (smoothed_points : list Position)
    (image : Image) :
  exists added,
    strokes (draw_recent smoothed_points image) = strokes image ++ added
    /\ (length added <= 8)%nat
    /\ ((length smoothed_points <= 5)%nat -> added = [])
    /\ Forall
         (fun s =>
            consecutive_in
              (drop (length smoothed_points - 5) smoothed_points)
              (stroke_p1 s) (stroke_p2 s)
            /\ ((stroke_color s = halo_color /\ stroke_thickness s = 6)
                \/ (stroke_color s = core_color /\ stroke_thickness s = 2))
            /\ stroke_in_image image s = true) added.
Proof.
  exists (recent_strokes image smoothed_points).
  rewrite draw_recent_strokes. split; [reflexivity |].
  split; [apply recent_strokes_length |]. split.
  - intros Hlen. unfold recent_strokes.
    destruct (Nat.ltb_spec 5 (length smoothed_points)); [lia | reflexivity].
  - apply List.Forall_forall. intros s Hs.
    pose proof (recent_strokes_inside image smoothed_points s Hs) as Hin.
    unfold recent_strokes in Hs.
    destruct (5 <? length smoothed_points)%nat; [| destruct Hs].
    apply in_flat_map in Hs as (i & Hi & Hs). apply in_seq in Hi.
    apply filter_In in Hs as [Hs _].
    assert (Hc : consecutive_in
                   (drop (length smoothed_points - 5) smoothed_points)
                   (nth_point
                      (drop (length smoothed_points - 5) smoothed_points) i)
                   (nth_point
                      (drop (length smoothed_points - 5) smoothed_points)
                      (i + 1)))
      by (apply consecutive_nth; lia).
    destruct Hs as [<- | [<- | []]]; cbn [stroke_p1 stroke_p2 stroke_color
      stroke_thickness]; (split; [exact Hc |]); (split; [| exact Hin]).
    + left. by split.
    + right. by split.
Qed.

Lemma highlight_covers_last_five_witness :
  strokes (draw_recent [(1, 1); (2, 2); (3, 3)] (mkImage 9 9 [])) = [].
Proof.
  destruct (highlight_covers_last_five [(1, 1); (2, 2); (3, 3)]
              (mkImage 9 9 [])) as (added & Hadd & _ & Hnone & _).
  rewrite Hadd, Hnone by (cbn [length]; lia). reflexivity.
Defined.

(** * Further properties of the widget *)

Section TickFacts.
Implicit Types (w : RobotTrajectoryWidget) (base : Image).

Lemma update_display_keeps w :
  let w1 := fst (update_display w) in
  base_frame w1 = base_frame w
  /\ drawing_enabled w1 = drawing_enabled w
  /\ image_width w1 = image_width w
  /\ image_height w1 = image_height w
  /\ trajectory_points (trajectory_manager w1)
     = trajectory_points (trajectory_manager w)
  /\ current_position (trajectory_manager w1)
     = current_position (trajectory_manager w)
  /\ last_position (trajectory_manager w1)
     = last_position (trajectory_manager w)
  /\ trajectory_break_pending (trajectory_manager w1)
     = trajectory_break_pending (trajectory_manager w)
  /\ trail_length (trajectory_manager w1) = trail_length (trajectory_manager w)
  /\ interpolate_motion (trajectory_manager w1)
     = interpolate_motion (trajectory_manager w).
Proof.
  cbn zeta. destruct (base_frame w) as [base |] eqn:Hbase.
  - rewrite (update_display_outcome w base Hbase).
    destruct (tick_error _ _) as [e |]; [destruct (caught e) |];
      cbn; rewrite ?Hbase; repeat split.
  - unfold update_display. rewrite Hbase. cbn. rewrite Hbase. repeat split.
Qed.
End TickFacts.

(** X12. Ticks do not pile up strokes.  A tick reads the background and the
    buffer and writes only [current_frame], the label and the tick counter,
    so the next tick, with nothing received in between, ends in the same way
    and leaves the same frame and the same label. *)
Theorem tick_does_not_accumulate (w : RobotTrajectoryWidget) :
  let w1 := fst (update_display w) in
  let w2 := fst (update_display w1) in
  base_frame w1 = base_frame w
  /\ drawing_enabled w1 = drawing_enabled w
  /\ get_trajectory_copy (trajectory_manager w1)
     = get_trajectory_copy (trajectory_manager w)
  /\ current_position (trajectory_manager w1)
     = current_position (trajectory_manager w)
  /\ trajectory_break_pending (trajectory_manager w1)
     = trajectory_break_pending (trajectory_manager w)
  /\ snd (update_display w1) = snd (update_display w)
  /\ current_frame w2 = current_frame w1
  /\ image_label w2 = image_label w1.
Proof.
  cbn zeta.
  destruct (update_display_keeps w)
    as (Hb & He & _ & _ & Hp & Hc & _ & Hbp & _).
  cbn zeta in *. unfold get_trajectory_copy.
  split; [exact Hb |]. split; [exact He |]. split; [exact Hp |].
  split; [exact Hc |]. split; [exact Hbp |].
  destruct (base_frame w) as [base |] eqn:Hbase.
  - pose proof (update_display_outcome (fst (update_display w)) base Hb)
      as H1.
    cbn zeta in H1. unfold get_trajectory_copy in H1.
    rewrite Hp, He in H1. rewrite H1.
    rewrite (update_display_outcome w base Hbase).
    unfold get_trajectory_copy.
    destruct (tick_error _ _) as [e |]; [destruct (caught e) |];
      repeat split.
  - assert (Hw : update_display w = (w, None))
      by (unfold update_display; by rewrite Hbase).
    rewrite !Hw. cbn [fst]. rewrite Hw. repeat split.
Qed.

Section PixelRange.
Implicit Types (m : TrajectoryManager) (w : RobotTrajectoryWidget).

Lemma interp_coord_pixel_range s e (i : nat) :
  (1 <= i <= 3)%nat -> pixel_range s -> pixel_range e ->
  pixel_range (interp_coord s e i 3).
Proof.
  unfold pixel_range. intros Hi Hs He.
  pose proof (interp_coord_between s e i Hi) as Hb. unfold between in Hb.
  lia.
Qed.

Lemma appended_samples_pixel_range position now m :
  in_pixel_range position ->
  (forall p, current_position m = Some p -> in_pixel_range p) ->
  Forall (fun s => in_pixel_range (sample_xy s))
    (appended_samples position now m).
Proof.
  intros Hp Hcur. unfold appended_samples, previous_position.
  assert (Hdest : forall b,
            in_pixel_range (sample_xy (destination position now b)))
    by (intros b; by destruct position).
  destruct (trajectory_break_pending m); [apply Forall_singleton, Hdest |].
  destruct (current_position m) as [last |];
    [| apply Forall_singleton, Hdest].
  specialize (Hcur last eq_refl).
  destruct (interpolate_motion m); [| apply Forall_singleton, Hdest].
  apply Forall_app. split; [| apply Forall_singleton, Hdest].
  destruct (distance_exceeds_5 last position); [| constructor].
  apply Forall_map, List.Forall_forall. intros i Hi. apply in_seq in Hi.
  destruct last as [lx ly], position as [px py].
  destruct Hp as [Hpx Hpy], Hcur as [Hlx Hly]. cbn [fst snd] in *.
  unfold default_num_interpolated in *.
  split; cbn [interp_sample sample_xy sample_x sample_y fst snd];
    apply interp_coord_pixel_range; (lia || assumption).
Qed.

Lemma update_position_pixel_range position now m :
  in_pixel_range position ->
  trail_in_pixel_range m ->
  trail_in_pixel_range (update_position position now m).
Proof.
  intros Hp [Hpts Hcur]. split.
  - destruct (update_position_points position now m) as [-> _].
    destruct (fold_deque_append_suffix (trail_length m)
                (appended_samples position now m) (trajectory_points m))
      as [k Hk].
    assert (Hall : Forall (fun s => in_pixel_range (sample_xy s))
                     (trajectory_points m
                      ++ appended_samples position now m)).
    { apply Forall_app. split; [exact Hpts |].
      by apply appended_samples_pixel_range. }
    rewrite Hk in Hall. by apply Forall_app in Hall as [_ ?].
  - destruct (update_position_fields position now m) as (-> & _).
    by intros p [= <-].
Qed.

Lemma point_message_get x y :
  message_get (point_message x y) "x" = PyInt x
  /\ message_get (point_message x y) "y" = PyInt y.
Proof.
  unfold message_get, point_message. split.
  - by rewrite lookup_insert_eq.
  - rewrite lookup_insert_ne by done. by rewrite lookup_insert_eq.
Qed.

Lemma update_trajectory_point_ints x y now w :
  update_trajectory_point (Some (point_message x y)) now w
  = (set_trajectory_manager
       (update_position (x, y) now (trajectory_manager w)) w, None).
Proof.
  unfold update_trajectory_point.
  destruct (point_message_get x y) as [-> ->]. reflexivity.
Qed.

Lemma widget_step_pixel_range (c : widget_call) w :
  widget_call_in_range c ->
  trail_in_pixel_range (trajectory_manager w) ->
  trail_in_pixel_range (trajectory_manager (widget_step c w)).
Proof.
  intros Hc H. destruct c as [x y now | | | |]; cbn [widget_step].
  - rewrite update_trajectory_point_ints. cbn [fst].
    by apply update_position_pixel_range.
  - exact H.
  - exact H.
  - split; [constructor | intros p [=]].
  - destruct (update_display_keeps w)
      as (_ & _ & _ & _ & Hp & Hcur & _).
    cbn zeta in *. destruct H as [H1 H2].
    split; [by rewrite Hp | by rewrite Hcur].
Qed.

Lemma tick_in_pixel_range w :
  trail_in_pixel_range (trajectory_manager w) ->
  snd (update_display w) = None.
Proof.
  intros [Hr _]. destruct (base_frame w) as [base |] eqn:Hbase.
  - rewrite (update_display_outcome w base Hbase).
    assert (Hsegs : Forall (fun segment => segment_error segment = None)
                      (split_segments
                         (map point_of_sample
                            (get_trajectory_copy (trajectory_manager w))))).
    { eapply Forall_impl;
        [apply (split_segments_Forall in_pixel_range),
           snapshot_in_pixel_range, Hr |].
      apply segment_error_pixels. }
    destruct (no_error_all_drawn _ Hsegs) as [Hne _].
    unfold tick_error. rewrite Hne. by destruct (drawing_enabled w).
  - unfold update_display. by rewrite Hbase.
Qed.
End PixelRange.

(** X13. With realistic coordinates a tick never raises: on a widget just
    built, after any sequence of point messages with int coordinates of at
    most 2^22 in absolute value, breaks, enabling and disabling of the
    drawing and ticks, every buffered sample, interpolated ones included, is
    within that range, and the next tick ends without an exception. *)
Theorem ticks_never_raise_in_pixel_range (width height : Z)
    (capacity : nat) (calls : list widget_call) :
  Forall widget_call_in_range calls ->
  let w := widget_run calls (RobotTrajectoryWidget_init width height capacity)
  in
  Forall (fun s => in_pixel_range (sample_xy s))
    (get_trajectory_copy (trajectory_manager w))
  /\ snd (update_display w) = None.
Proof.
  intros Hcalls w.
  assert (H : trail_in_pixel_range (trajectory_manager w)).
  { unfold w, widget_run.
    assert (Hinit : trail_in_pixel_range
                      (trajectory_manager
                         (RobotTrajectoryWidget_init width height capacity)))
      by (split; [constructor | intros p [=]]).
    revert Hinit.
    generalize (RobotTrajectoryWidget_init width height capacity) as w0.
    induction Hcalls as [| c calls Hc _ IH]; intros w0 H0; [exact H0 |].
    cbn [fold_left]. apply IH. by apply widget_step_pixel_range. }
  split; [apply H | by apply tick_in_pixel_range].
Qed.

Lemma ticks_never_raise_in_pixel_range_witness :
  snd (update_display
         (widget_run [CallEnable; CallPoint 10 10 1; CallPoint 900 (-40) 2;
                      CallTick; CallBreak; CallPoint 5 5 3]
            (RobotTrajectoryWidget_init 640 360 100)))
  = None.
Proof.
  apply ticks_never_raise_in_pixel_range.
  repeat (constructor;
            [try exact I; split; unfold pixel_range; cbn [fst snd];
             change (2 ^ 22) with 4194304; lia |]).
  constructor.
Defined.

Section SetImage.
Implicit Types (w : RobotTrajectoryWidget) (message : ImageMessage).

Lemma cv2_resize_none w : cv2_resize FrameNone (image_width w)
                            (image_height w) = None.
Proof. reflexivity. Qed.

Lemma set_image_brings_frame message w resized :
  brings_frame message w resized ->
  set_image message w
  = set_trajectory_manager (clear_trail (trajectory_manager w))
      (set_base_frame (Some resized) w).
Proof.
  intros (d & frame & -> & Hd & Hr). unfold set_image. rewrite Hd.
  destruct frame; [discriminate | | discriminate]. by rewrite Hr.
Qed.

End SetImage.

(** X14. A new background frame wipes the trail: when the message brings
    an 8-bit BGR frame that [cv2.resize] accepts, [set_image] makes the
    resized frame the background, empties the buffer and unsets both
    positions, and leaves the current frame, the label and the drawing
    switch alone; the next tick then shows the bare new background and
    raises nothing, whatever was buffered before. *)
Theorem new_frame_wipes_trail (message : ImageMessage)
    (w : RobotTrajectoryWidget) (resized : Image) :
  brings_frame message w resized ->
  let w1 := set_image message w in
  (resized = mkImage (image_height w) (image_width w) []
   /\ base_frame w1 = Some resized)
  /\ (get_trajectory_copy (trajectory_manager w1) = []
      /\ current_position (trajectory_manager w1) = None
      /\ last_position (trajectory_manager w1) = None)
  /\ (current_frame w1 = current_frame w
      /\ image_label w1 = image_label w
      /\ drawing_enabled w1 = drawing_enabled w)
  /\ update_display w1 = (tick_completed resized w1, None).
Proof.
  intros H. cbn zeta. rewrite (set_image_brings_frame message w resized H).
  destruct H as (d & frame & _ & _ & Hr).
  split; [| split; [| split]].
  - split; [| reflexivity]. unfold cv2_resize in Hr.
    destruct frame as [| h w' |]; [discriminate | | discriminate].
    destruct (_ && _); [by injection Hr as <- | discriminate].
  - repeat split.
  - repeat split.
  - unfold update_display. cbn.
    by destruct (drawing_enabled w).
Qed.

Lemma new_frame_wipes_trail_witness :
  let w := fst (update_trajectory_point
                  (Some (point_message 5 6)) 1
                  (enable_drawing (RobotTrajectoryWidget_init 640 360 100))) in
  let message :=
    MessageDict (<["image"%string := FrameBGR 480 640]> ∅) in
  get_trajectory_copy (trajectory_manager (set_image message w)) = [].
Proof.
  intros w message.
  assert (H : brings_frame message w (mkImage 360 640 [])).
  { exists (<["image"%string := FrameBGR 480 640]> ∅), (FrameBGR 480 640).
    split; [reflexivity |]. split; [apply lookup_insert_eq | reflexivity]. }
  destruct (new_frame_wipes_trail message w _ H) as (_ & (Hpts & _) & _).
  exact Hpts.
Defined.



Lemma draw_icon_cases (ic : Icon) (im : Image) (p : Position) :
  draw_icon_at_position (Some ic) (Some im) (Some p)
  = if bool_decide (block_inside im (icon_block ic p))
    then if has_alpha ic || broadcasts_to_block ic
         then Ok (Some (icon_block ic p))
         else Raise ValueError
    else Ok None.
Proof.
  destruct p as [x y]. cbn [draw_icon_at_position].
  unfold icon_block, block_inside.
  cbn [fst snd block_x1 block_y1 block_x2 block_y2].
  destruct (_ && _ && _ && _) eqn:Hfit.
  - rewrite !andb_true_iff, !Z.leb_le in Hfit.
    rewrite bool_decide_eq_true_2 by lia.
    by destruct (has_alpha ic), (broadcasts_to_block ic).
  - rewrite !andb_false_iff, !Z.leb_gt in Hfit.
    rewrite bool_decide_eq_false_2 by lia. reflexivity.
Qed.

(** X16. [draw_icon_at_position] on a three-channel image raises nothing
    but ValueError, and raises it exactly when one of its arguments is
    [None] or when the icon lies inside the image, has not four channels and
    has a shape that does not fit the block it is assigned to (a
    two-dimensional icon, say); an icon of three or four channels never
    raises.  The icon is written either whole or not at all: the block
    written has the height and width of the icon, lies inside the image (no
    negative index, nothing past the border) and, for a non-empty icon,
    holds the position; an icon that would cross the border is not drawn,
    whatever its shape. *)
Theorem icon_is_drawn_whole_or_not (icon : option Icon)
    (image : option Image) (position : option Position) :
  (forall e, draw_icon_at_position icon image position = Raise e ->
     e = ValueError)
  /\ (draw_icon_at_position icon image position = Raise ValueError
      <-> icon = None \/ image = None \/ position = None
          \/ exists ic im p,
               icon = Some ic /\ image = Some im /\ position = Some p
               /\ block_inside im (icon_block ic p)
               /\ has_alpha ic = false
               /\ broadcasts_to_block ic = false)
  /\ (forall ic im p,
        icon = Some ic -> image = Some im -> position = Some p ->
        icon_channels ic = Some 3 \/ icon_channels ic = Some 4 ->
        exists written,
          draw_icon_at_position icon image position = Ok written)
  /\ (forall ic im p,
        icon = Some ic -> image = Some im -> position = Some p ->
        ~ block_inside im (icon_block ic p) ->
        draw_icon_at_position icon image position = Ok None)
  /\ (forall ic im x y block,
        icon = Some ic -> image = Some im -> position = Some (x, y) ->
        draw_icon_at_position icon image position = Ok (Some block) ->
        (0 <= block_x1 block /\ block_x2 block <= shape_width im
         /\ 0 <= block_y1 block /\ block_y2 block <= shape_height im)
        /\ (block_x2 block - block_x1 block = icon_width ic
            /\ block_y2 block - block_y1 block = icon_height ic)
        /\ (0 < icon_width ic -> block_x1 block <= x < block_x2 block)
        /\ (0 < icon_height ic -> block_y1 block <= y < block_y2 block)).
Proof.
  split; [| split; [| split; [| split]]].
  - intros e. destruct icon as [ic |], image as [im |],
      position as [p |]; try (by intros [= <-]).
    rewrite draw_icon_cases.
    destruct (bool_decide _); [| discriminate].
    destruct (_ || _); [discriminate | by intros [= <-]].
  - destruct icon as [ic |], image as [im |], position as [p |];
      try (split; [auto | reflexivity]).
    rewrite draw_icon_cases. split.
    + intros H. right. right. right. exists ic, im, p.
      destruct (bool_decide (block_inside im (icon_block ic p))) eqn:Hin;
        [| discriminate].
      apply bool_decide_eq_true in Hin.
      destruct (has_alpha ic), (broadcasts_to_block ic); try discriminate.
      do 3 (split; [reflexivity |]). split; [exact Hin | by split].
    + intros [H | [H | [H | H]]]; try discriminate.
      destruct H as (ic' & im' & p' & [= <-] & [= <-] & [= <-] & Hin & Ha
                     & Hb).
      rewrite bool_decide_eq_true_2 by exact Hin.
      by rewrite Ha, Hb.
  - intros ic im p -> -> -> Hch. rewrite draw_icon_cases.
    destruct (bool_decide _); [| by eexists].
    assert (Hok : has_alpha ic || broadcasts_to_block ic = true).
    { unfold has_alpha, broadcasts_to_block, dim_fits.
      destruct Hch as [-> | ->]; cbn; [| reflexivity].
      by rewrite !Z.eqb_refl. }
    rewrite Hok. by eexists.
  - intros ic im p -> -> -> Hout. rewrite draw_icon_cases.
    by rewrite bool_decide_eq_false_2.
  - intros ic im x y block -> -> ->. rewrite draw_icon_cases.
    destruct (bool_decide _) eqn:Hin; [| discriminate].
    apply bool_decide_eq_true in Hin.
    destruct (_ || _); [| discriminate].
    intros [= <-]. unfold block_inside, icon_block in *.
    cbn [fst snd block_x1 block_x2 block_y1 block_y2] in *.
    split; [lia |]. split; [lia |].
    split; intros Hpos; Z.to_euclidean_division_equations; lia.
Qed.

Lemma icon_is_drawn_whole_or_not_witness :
  draw_icon_at_position (Some (mkIcon 4 4 None)) (Some (mkImage 360 640 []))
    (Some (100, 18))
  = Raise ValueError
  /\ draw_icon_at_position (Some (mkIcon 36 36 (Some 4)))
       (Some (mkImage 360 640 [])) (Some (100, 17))
     = Ok None.
Proof.
  split.
  - destruct (icon_is_drawn_whole_or_not (Some (mkIcon 4 4 None))
                (Some (mkImage 360 640 [])) (Some (100, 18)))
      as (_ & [_ Hraise] & _).
    apply Hraise. right. right. right.
    exists (mkIcon 4 4 None), (mkImage 360 640 []), (100, 18).
    do 3 (split; [reflexivity |]).
    split; [| split; reflexivity].
    unfold block_inside, icon_block.
    cbn [fst snd icon_width icon_height shape_width shape_height
         block_x1 block_y1 block_x2 block_y2].
    change (4 / 2) with 2. lia.
  - destruct (icon_is_drawn_whole_or_not (Some (mkIcon 36 36 (Some 4)))
                (Some (mkImage 360 640 [])) (Some (100, 17)))
      as (_ & _ & _ & Hout & _).
    apply (Hout _ _ _ eq_refl eq_refl eq_refl).
    unfold block_inside, icon_block.
    cbn [fst snd icon_width icon_height shape_width shape_height
         block_x1 block_y1 block_x2 block_y2].
    change (36 / 2) with 18. lia.
Defined.

(** * The dashboard around the widget *)

Section CardRegistry.
Context {W : Type}.
Implicit Types (input : list (@CardInput W)) (cards : gmap Z W).

Lemma register_cards_snoc input (entry : @CardInput W) cards :
  _register_cards (input ++ [entry]) cards
  = (<[card_id_of entry := card_widget_of entry]>
       (fst (_register_cards input cards)),
     snd (_register_cards input cards)
     ++ [(card_widget_of entry, snd (fst entry), snd entry)]).
Proof.
  unfold _register_cards, CardInput in *.
  rewrite fold_left_app. cbn [fold_left].
  match goal with
  | |- context [fold_left ?f input ?s] =>
      destruct (fold_left f input s) as [cards' result]
  end.
  by destruct entry as [[[widget card_id] row] col].
Qed.

Lemma register_cards_layout input cards :
  snd (_register_cards input cards)
  = map (fun entry => (card_widget_of entry, snd (fst entry), snd entry))
        input.
Proof.
  induction input as [| entry input IH] using rev_ind; [reflexivity |].
  rewrite register_cards_snoc, map_app. cbn [snd map]. by rewrite IH.
Qed.

Lemma register_cards_other input cards card_id :
  Forall (fun entry => card_id_of entry <> card_id) input ->
  fst (_register_cards input cards) !! card_id = cards !! card_id.
Proof.
  induction input as [| entry input IH] using rev_ind; [reflexivity |].
  intros H. apply Forall_app in H as [Hinput Hentry].
  apply Forall_inv in Hentry.
  rewrite register_cards_snoc. cbn [fst].
  rewrite lookup_insert_ne by exact Hentry. by apply IH.
Qed.

Lemma register_cards_app input1 input2 cards :
  fst (_register_cards (input1 ++ input2) cards)
  = fst (_register_cards input2 (fst (_register_cards input1 cards))).
Proof.
  induction input2 as [| entry input2 IH] using rev_ind.
  - by rewrite app_nil_r.
  - rewrite app_assoc, !register_cards_snoc. cbn [fst]. by rewrite IH.
Qed.
End CardRegistry.

(** X17. Cards are reached by id through the dict that [_register_cards]
    builds: an id that no entry carries gives no card, and an id carried by
    several entries gives the widget of the last of them.  All entries, the
    shadowed ones included, are handed to the layout, in their order. *)
Theorem card_lookup_gives_last_registered {W : Type}
    (cards_input : list (@CardInput W)) :
  let cards := fst (_register_cards cards_input ∅) in
  snd (_register_cards cards_input ∅)
  = map (fun entry => (card_widget_of entry, snd (fst entry), snd entry))
        cards_input
  /\ (forall card_id,
        get_card cards card_id = None
        <-> Forall (fun entry => card_id_of entry <> card_id) cards_input)
  /\ (forall before entry after,
        cards_input = before ++ entry :: after ->
        Forall (fun later => card_id_of later <> card_id_of entry) after ->
        get_card cards (card_id_of entry) = Some (card_widget_of entry)).
Proof.
  cbn zeta. unfold get_card.
  split; [apply register_cards_layout |]. split.
  - intros card_id.
    induction cards_input as [| entry input IH] using rev_ind.
    + split; [constructor | reflexivity].
    + rewrite register_cards_snoc. cbn [fst]. rewrite Forall_app.
      destruct (decide (card_id_of entry = card_id)) as [<- | Hne].
      * rewrite lookup_insert_eq. split; [discriminate |].
        intros [_ H]. by apply Forall_inv in H.
      * rewrite lookup_insert_ne by exact Hne. rewrite IH.
        split; [intros H; split; [exact H | by apply Forall_singleton] |].
        by intros [H _].
  - intros before entry after -> Hafter.
    replace (before ++ entry :: after) with ((before ++ [entry]) ++ after)
      by by rewrite <- app_assoc.
    rewrite register_cards_app, register_cards_other by exact Hafter.
    rewrite register_cards_snoc. cbn [fst]. apply lookup_insert_eq.
Qed.

Lemma card_lookup_gives_last_registered_witness :
  get_card
    (fst (_register_cards
            [("scale A"%string, 1, None, None);
             ("scale B"%string, 2, Some 0, Some 0);
             ("scale C"%string, 1, None, None)] ∅)) 1
  = Some "scale C"%string.
Proof.
  destruct (card_lookup_gives_last_registered
              [("scale A"%string, 1, None, None);
               ("scale B"%string, 2, Some 0, Some 0);
               ("scale C"%string, 1, None, None)]) as (_ & _ & H).
  apply (H [("scale A"%string, 1, None, None);
            ("scale B"%string, 2, Some 0, Some 0)]
           ("scale C"%string, 1, None, None) []); [reflexivity | constructor].
Defined.

(** ** Grids *)

Section Ranges.
Lemma in_range (n z : Z) : In z (range n) <-> 0 <= z < n.
Proof.
  unfold range. rewrite in_map_iff. split.
  - intros (k & <- & Hk). apply in_seq in Hk. lia.
  - intros Hz. exists (Z.to_nat z). split; [lia |]. apply in_seq. lia.
Qed.

Lemma NoDup_range (n : Z) : List.NoDup (range n).
Proof.
  unfold range. apply Finite.Injective_map_NoDup; [| apply seq_NoDup].
  intros a b. lia.
Qed.

Lemma in_cells (rows cols : Z) (cell : Z * Z) :
  In cell (cells rows cols) <-> in_grid rows cols cell.
Proof.
  unfold cells, in_grid. rewrite in_flat_map. split.
  - intros (r & Hr & Hc). apply in_map_iff in Hc as (c & <- & Hc).
    apply in_range in Hr, Hc. by split.
  - destruct cell as [r c]. cbn [fst snd]. intros [Hr Hc].
    exists r. split; [by apply in_range |].
    apply in_map_iff. exists c. split; [reflexivity | by apply in_range].
Qed.

Lemma NoDup_flat_map_rows {A : Type} (f : Z -> list A) (l : list Z) :
  List.NoDup l ->
  (forall r, List.NoDup (f r)) ->
  (forall r r' a, In a (f r) -> In a (f r') -> r = r') ->
  List.NoDup (flat_map f l).
Proof.
  intros Hl Hf Hdisj. induction Hl as [| r l Hr _ IH]; [constructor |].
  cbn [flat_map]. apply List.NoDup_app; [apply Hf | exact IH |].
  intros a Ha Ha'. apply in_flat_map in Ha' as (r' & Hr' & Ha').
  rewrite (Hdisj r r' a Ha Ha') in Hr. contradiction.
Qed.

Lemma NoDup_cells (rows cols : Z) : List.NoDup (cells rows cols).
Proof.
  unfold cells. apply NoDup_flat_map_rows.
  - apply NoDup_range.
  - intros r. apply Finite.Injective_map_NoDup; [| apply NoDup_range].
    by intros a b [= ->].
  - intros r r' a Ha Ha'.
    apply in_map_iff in Ha as (c & <- & _).
    apply in_map_iff in Ha' as (c' & [= <- _] & _). reflexivity.
Qed.
End Ranges.

Section AuxGrid.
Lemma seq_mul (n m : nat) :
  seq 0 (n * m)
  = flat_map (fun r => map (fun c => (r * m + c)%nat) (seq 0 m)) (seq 0 n).
Proof.
  induction n as [| n IH]; [reflexivity |].
  replace (S n * m)%nat with (n * m + m)%nat by lia.
  rewrite seq_app, IH, seq_S, flat_map_app. cbn [flat_map Nat.add].
  rewrite app_nil_r. f_equal. apply seq_from.
Qed.

Lemma map_flat_map {A B C : Type} (f : B -> C) (g : A -> list B)
    (l : list A) :
  map f (flat_map g l) = flat_map (fun a => map f (g a)) l.
Proof.
  induction l as [| a l IH]; [reflexivity |].
  cbn [flat_map]. by rewrite map_app, IH.
Qed.

Lemma flat_map_map {A B C : Type} (f : A -> B) (g : B -> list C)
    (l : list A) :
  flat_map g (map f l) = flat_map (fun a => g (f a)) l.
Proof.
  induction l as [| a l IH]; [reflexivity |].
  cbn [map flat_map]. by rewrite IH.
Qed.

Lemma divmod_cell (cols : Z) (r c : nat) :
  (c < Z.to_nat cols)%nat ->
  let idx := Z.of_nat (r * Z.to_nat cols + c) in
  (idx / cols, idx mod cols) = (Z.of_nat r, Z.of_nat c).
Proof.
  intros Hc. cbn zeta.
  assert (Hidx : Z.of_nat (r * Z.to_nat cols + c)
                 = Z.of_nat r * cols + Z.of_nat c) by lia.
  rewrite Hidx. f_equal.
  - rewrite Z.div_add_l by lia. rewrite Z.div_small by lia. lia.
  - rewrite Z.add_comm, Z.mod_add by lia. apply Z.mod_small. lia.
Qed.
End AuxGrid.

(** X18. The placeholders below the preview cover the grid exactly: for
    non-negative [rows] and [cols] the cells that [divmod(idx, cols)] gives
    are the cells of the grid, each once, row by row, and every placeholder
    is labelled with the cell it is put in; with a column count of zero
    nothing is placed and nothing is divided. *)
Theorem aux_grid_covers_every_cell (rows cols : Z) :
  0 <= rows -> 0 <= cols ->
  map placed_cell (@_create_preview_aux_grid unit rows cols true)
  = cells rows cols
  /\ List.NoDup (cells rows cols)
  /\ (forall cell, In cell (cells rows cols) <-> in_grid rows cols cell)
  /\ Forall (fun p => placed_item p
                      = PlaceholderItem "PreviewAux" (placed_row p)
                          (placed_col p)
                      /\ placed_row_span p = 1 /\ placed_col_span p = 1)
       (@_create_preview_aux_grid unit rows cols true)
  /\ @_create_preview_aux_grid unit rows 0 true = [].
Proof.
  intros Hrows Hcols.
  split; [| split; [apply NoDup_cells | split; [apply in_cells | split]]].
  - unfold _create_preview_aux_grid, cells, range.
    rewrite !map_map. unfold placed_cell. cbn [placed_row placed_col].
    rewrite Z2Nat.inj_mul by assumption.
    rewrite seq_mul, map_flat_map, flat_map_map.
    apply flat_map_ext_on. intros r Hr.
    rewrite !map_map. apply map_ext_in. intros c Hc. apply in_seq in Hc.
    apply (divmod_cell cols r c). lia.
  - unfold _create_preview_aux_grid. apply Forall_map, List.Forall_forall.
    intros idx _. repeat split.
  - unfold _create_preview_aux_grid, range. by rewrite Z.mul_0_r.
Qed.

Lemma aux_grid_covers_every_cell_witness :
  map placed_cell (@_create_preview_aux_grid unit 2 3 true)
  = [(0, 0); (0, 1); (0, 2); (1, 0); (1, 1); (1, 2)].
Proof.
  rewrite (proj1 (aux_grid_covers_every_cell 2 3 ltac:(lia) ltac:(lia))).
  reflexivity.
Defined.

Section CardGrid.
Context {W : Type}.
Implicit Types (cards : list (W * option Z * option Z))
  (free : list (Z * Z)) (queue : list W) (grid : list (@Placement W)).

Lemma cards_pass1 cards : forall grid (occupied : gset (Z * Z)) queue,
  fold_left cards_pass1_step cards (grid, occupied, queue)
  = (grid ++ explicit_placements cards,
     list_to_set (explicit_cells cards) ∪ occupied,
     queue ++ auto_widgets cards).
Proof.
  induction cards as [| [[widget row] col] cards IH];
    intros grid occupied queue.
  - cbn. rewrite !app_nil_r. f_equal. f_equal.
    by rewrite (left_id_L ∅ (∪)).
  - cbn [fold_left cards_pass1_step].
    unfold explicit_placements, auto_widgets, explicit_cells.
    cbn [flat_map]. unfold explicit_cell at 1 3 5. cbn [fst snd].
    destruct row as [row |], col as [col |]; rewrite IH;
      rewrite <- ?app_assoc; cbn [app list_to_set]; try reflexivity.
    f_equal. f_equal.
    fold (explicit_cells cards).
    rewrite (assoc_L (∪) (list_to_set (explicit_cells cards))).
    f_equal. apply (comm_L (∪)).
Qed.

Lemma cards_pass2 (show_placeholders : bool) free : forall grid queue,
  fst (fold_left (cards_pass2_step show_placeholders) free (grid, queue))
  = grid
    ++ map (fun '(widget, cell) => card_at widget cell) (combine queue free)
    ++ (if show_placeholders
        then map card_placeholder_at (drop (length queue) free) else []).
Proof.
  induction free as [| [r c] free IH]; intros grid queue.
  - cbn [fold_left fst]. rewrite combine_nil, drop_nil. cbn [map].
    destruct show_placeholders; by rewrite !app_nil_r.
  - cbn [fold_left cards_pass2_step].
    destruct queue as [| widget queue].
    + destruct show_placeholders; rewrite IH; cbn [combine map length drop
        app]; rewrite <- ?app_assoc; reflexivity.
    + rewrite IH. cbn [combine map length drop].
      by rewrite <- app_assoc.
Qed.

Lemma in_free_cells (rows cols : Z) (occupied : gset (Z * Z))
    (cell : Z * Z) :
  In cell (free_cells rows cols occupied)
  <-> in_grid rows cols cell /\ cell ∉ occupied.
Proof.
  unfold free_cells. rewrite filter_In, in_cells, negb_true_iff.
  rewrite bool_decide_eq_false. reflexivity.
Qed.
End CardGrid.

(** X19. How the card grid is filled: first the cards that ask for a cell,
    where they ask (no bounds are checked); then the other cards, in their
    order, one per free cell of the grid, row by row; then, if placeholders
    are shown, a placeholder in every free cell that is left.  The free
    cells are the cells of the grid that no card asked for, each once, so
    no two of these later placements share a cell and none covers a card
    that asked for its cell; cards for which no free cell is left are not
    placed at all. *)
Theorem card_grid_fills_free_cells {W : Type} (rows cols : Z)
    (show_placeholders : bool) (cards : list (W * option Z * option Z)) :
  let free := free_cells rows cols (list_to_set (explicit_cells cards)) in
  _create_glue_cards_container rows cols show_placeholders cards
  = explicit_placements cards
    ++ map (fun '(widget, cell) => card_at widget cell)
         (combine (auto_widgets cards) free)
    ++ (if show_placeholders
        then map card_placeholder_at (drop (length (auto_widgets cards)) free)
        else [])
  /\ List.NoDup free
  /\ (forall cell,
        In cell free
        <-> in_grid rows cols cell /\ ~ In cell (explicit_cells cards)).
Proof.
  cbn zeta. split; [| split].
  - unfold _create_glue_cards_container. rewrite cards_pass1.
    cbn [app]. rewrite cards_pass2.
    by rewrite (right_id_L ∅ (∪)).
  - apply List.NoDup_filter, NoDup_cells.
  - intros cell. rewrite in_free_cells, elem_of_list_to_set, list_elem_of_In.
    reflexivity.
Qed.

Section ActionGrid.
Implicit Types (rows cols r c : Z) (occupied : gset (Z * Z))
  (cell : Z * Z).

Lemma in_span_cells r c row_span col_span cell :
  In cell (span_cells r c row_span col_span)
  <-> exists dr dc, 0 <= dr < row_span /\ 0 <= dc < col_span
                    /\ cell = (r + dr, c + dc).
Proof.
  unfold span_cells. rewrite in_flat_map. split.
  - intros (dr & Hdr & H). apply in_map_iff in H as (dc & <- & Hdc).
    apply in_range in Hdr, Hdc. by exists dr, dc.
  - intros (dr & dc & Hdr & Hdc & ->). exists dr.
    split; [by apply in_range |]. apply in_map_iff. exists dc.
    split; [reflexivity | by apply in_range].
Qed.

Lemma mark_row rows cols r c dr (l : list Z) : forall occupied cell,
  cell ∈ fold_left
           (fun occ dc =>
              if (0 <=? r + dr) && (r + dr <? rows)
                 && (0 <=? c + dc) && (c + dc <? cols)
              then {[ (r + dr, c + dc) ]} ∪ occ else occ) l occupied
  <-> cell ∈ occupied
      \/ exists dc, In dc l /\ cell = (r + dr, c + dc)
                    /\ in_grid rows cols cell.
Proof.
  induction l as [| dc l IH]; intros occupied cell; cbn [fold_left].
  - split; [by left | intros [H | (dc & [] & _)]; exact H].
  - rewrite IH. clear IH.
    destruct ((0 <=? r + dr) && (r + dr <? rows) && (0 <=? c + dc)
              && (c + dc <? cols)) eqn:Hin.
    + rewrite !andb_true_iff, !Z.leb_le, !Z.ltb_lt in Hin.
      rewrite elem_of_union, elem_of_singleton. split.
      * intros [[-> | H] | (dc' & Hdc' & H)].
        -- right. exists dc. split; [by left |]. split; [reflexivity |].
           unfold in_grid. cbn [fst snd]. lia.
        -- by left.
        -- right. exists dc'. split; [by right | exact H].
      * intros [H | (dc' & [<- | Hdc'] & -> & Hg)].
        -- left. by right.
        -- left. by left.
        -- right. by exists dc'.
    + split.
      * intros [H | (dc' & Hdc' & H)]; [by left |].
        right. exists dc'. split; [by right | exact H].
      * intros [H | (dc' & [<- | Hdc'] & -> & Hg)]; [by left | |].
        -- exfalso. unfold in_grid in Hg. cbn [fst snd] in Hg.
           rewrite !andb_false_iff, !Z.leb_gt, !Z.ltb_ge in Hin. lia.
        -- right. by exists dc'.
Qed.

Lemma mark_occupied_spec rows cols occupied r c row_span col_span cell :
  cell ∈ mark_occupied rows cols occupied r c row_span col_span
  <-> cell ∈ occupied
      \/ (In cell (span_cells r c row_span col_span)
          /\ in_grid rows cols cell).
Proof.
  unfold mark_occupied, span_cells. rewrite in_flat_map.
  generalize (range row_span) as l. intros l. revert occupied.
  induction l as [| dr l IH]; intros occupied; cbn [fold_left].
  - split; [by left | intros [H | [(dr & [] & _) _]]; exact H].
  - rewrite IH, mark_row. clear IH. split.
    + intros [[H | (dc & Hdc & -> & Hg)] | [(dr' & Hdr' & H) Hg]].
      * by left.
      * right. split; [| exact Hg]. exists dr. split; [by left |].
        apply in_map_iff. by exists dc.
      * right. split; [| exact Hg]. exists dr'. split; [by right | exact H].
    + intros [H | [(dr' & [<- | Hdr'] & H) Hg]].
      * left. by left.
      * left. right. apply in_map_iff in H as (dc & <- & Hdc).
        by exists dc.
      * right. split; [| exact Hg]. by exists dr'.
Qed.

Lemma can_fit_spec rows cols occupied r c row_span col_span :
  can_fit rows cols occupied r c row_span col_span = true
  <-> Forall (fun cell' => fst cell' < rows /\ snd cell' < cols
                           /\ cell' ∉ occupied)
        (span_cells r c row_span col_span).
Proof.
  unfold can_fit, span_cells. rewrite forallb_forall, List.Forall_forall.
  split.
  - intros H cell' Hc. apply in_flat_map in Hc as (dr & Hdr & Hc).
    apply in_map_iff in Hc as (dc & <- & Hdc).
    specialize (H dr Hdr). rewrite forallb_forall in H.
    specialize (H dc Hdc).
    rewrite negb_true_iff, !orb_false_iff, !Z.leb_gt in H.
    destruct H as [[Hr Hc] Ho]. apply bool_decide_eq_false in Ho.
    cbn [fst snd]. repeat split; (lia || assumption).
  - intros H dr Hdr. rewrite forallb_forall. intros dc Hdc.
    destruct (H (r + dr, c + dc)) as (Hr & Hc & Ho).
    { apply in_flat_map. exists dr. split; [exact Hdr |].
      apply in_map_iff. by exists dc. }
    cbn [fst snd] in *.
    rewrite negb_true_iff, !orb_false_iff, !Z.leb_gt.
    repeat split; try lia. by apply bool_decide_eq_false.
Qed.

Lemma find_first {A : Type} (f : A -> bool) (l : list A) :
  match List.find f l with
  | Some a =>
      exists before after,
        l = before ++ a :: after /\ f a = true
        /\ Forall (fun b => f b = false) before
  | None => Forall (fun b => f b = false) l
  end.
Proof.
  induction l as [| a l IH]; [constructor |]. cbn [List.find].
  destruct (f a) eqn:Ha.
  - exists [], l. repeat split; [exact Ha | constructor].
  - destruct (List.find f l) as [a' |].
    + destruct IH as (before & after & -> & Ha' & Hb).
      exists (a :: before), after. repeat split; [exact Ha' |].
      by constructor.
    + by constructor.
Qed.

Lemma fits_test rows cols occupied row_span col_span cell :
  in_grid rows cols cell ->
  negb (bool_decide (cell ∈ occupied))
  && can_fit rows cols occupied (fst cell) (snd cell) row_span col_span
  = true
  <-> span_fits rows cols occupied row_span col_span cell.
Proof.
  intros Hg. unfold span_fits.
  rewrite andb_true_iff, negb_true_iff, bool_decide_eq_false, can_fit_spec.
  split.
  - intros [Ho Hspan]. split; [exact Hg |]. split; [exact Ho |].
    rewrite List.Forall_forall in *. intros cell' Hc.
    destruct (Hspan cell' Hc) as (Hr & Hc' & Ho'). split; [| exact Ho'].
    apply in_span_cells in Hc as (dr & dc & Hdr & Hdc & ->).
    unfold in_grid in *. cbn [fst snd] in *. lia.
  - intros (_ & Ho & Hspan). split; [exact Ho |].
    eapply Forall_impl; [exact Hspan |].
    intros cell' [[Hr Hc] Ho']. repeat split; (lia || assumption).
Qed.
End ActionGrid.

(** X20. [find_free_cell] gives the first cell, row by row, where the
    widget fits: a free cell of the grid such that every cell of the span is
    inside the grid and free, with no such cell before it; it gives nothing
    exactly when the widget fits nowhere in the grid. *)
Theorem find_free_cell_is_first_fit (rows cols : Z)
    (occupied : gset (Z * Z)) (row_span col_span : Z) :
  match find_free_cell rows cols occupied row_span col_span with
  | Some cell =>
      span_fits rows cols occupied row_span col_span cell
      /\ exists before after,
           cells rows cols = before ++ cell :: after
           /\ Forall (fun earlier =>
                        ~ span_fits rows cols occupied row_span col_span
                            earlier) before
  | None =>
      forall cell, ~ span_fits rows cols occupied row_span col_span cell
  end.
Proof.
  unfold find_free_cell.
  pose proof (find_first
                (fun cell =>
                   negb (bool_decide (cell ∈ occupied))
                   && can_fit rows cols occupied (fst cell) (snd cell)
                        row_span col_span) (cells rows cols)) as H.
  destruct (List.find _ (cells rows cols)) as [cell |].
  - destruct H as (before & after & Hcells & Hfit & Hbefore).
    assert (Hin : forall x, In x (before ++ cell :: after) ->
                            in_grid rows cols x).
    { intros x Hx. rewrite <- Hcells in Hx. by apply in_cells. }
    split.
    + apply fits_test; [| exact Hfit]. apply Hin, in_elt.
    + exists before, after. split; [exact Hcells |].
      apply List.Forall_forall. intros earlier He Hfits.
      rewrite List.Forall_forall in Hbefore.
      specialize (Hbefore earlier He).
      apply fits_test in Hfits; [congruence |].
      apply Hin, in_or_app. by left.
  - intros cell Hfits. pose proof Hfits as (Hg & _).
    rewrite List.Forall_forall in H.
    apply fits_test in Hfits; [| exact Hg].
    rewrite (H cell) in Hfits; [discriminate | by apply in_cells].
Qed.

Section ActionGridPasses.
Context {W : Type}.
Implicit Types (rows cols : Z) (occupied : gset (Z * Z)) (cell : Z * Z).

Lemma find_free_cell_fits rows cols occupied row_span col_span cell :
  find_free_cell rows cols occupied row_span col_span = Some cell ->
  span_fits rows cols occupied row_span col_span cell.
Proof.
  unfold find_free_cell. intros H. apply List.find_some in H as [Hin Hfit].
  apply fits_test; [by apply in_cells | exact Hfit].
Qed.

Lemma buttons_pass1 rows cols (action_buttons : list (@ButtonInput W)) :
  forall (grid : list (@Placement W)) occupied (auto_queue : list (W * Z * Z)),
  exists occupied1,
    fold_left (buttons_pass1_step rows cols) action_buttons
      (grid, occupied, auto_queue)
    = (grid ++ explicit_buttons action_buttons, occupied1,
       auto_queue ++ auto_buttons action_buttons)
    /\ forall cell,
         cell ∈ occupied1
         <-> cell ∈ occupied
             \/ covered rows cols (explicit_buttons action_buttons) cell.
Proof.
  induction action_buttons as [| entry rest IH]; intros grid occupied queue.
  - exists occupied. cbn. rewrite !app_nil_r. split; [reflexivity |].
    intros cell. split; [by left |].
    intros [H | (_ & p & [] & _)]. exact H.
  - destruct entry as [[[[widget btn_row] btn_col] row_span] col_span].
    cbn [fold_left]. unfold explicit_buttons, auto_buttons.
    cbn [flat_map]. fold (explicit_buttons rest) (auto_buttons rest).
    destruct btn_row as [r |], btn_col as [c |]; cbn [buttons_pass1_step].
    + destruct (IH (grid ++ [mkPlacement (WidgetItem widget) r c
                               row_span col_span])
                  (mark_occupied rows cols occupied r c row_span col_span)
                  queue) as (occupied1 & -> & Hocc).
      exists occupied1. rewrite <- app_assoc. split; [reflexivity |].
      intros cell. rewrite Hocc, mark_occupied_spec. unfold covered.
      split.
      * intros [[H | [Hs Hg]] | (Hg & p & Hp & Hc)].
        -- by left.
        -- right. split; [exact Hg |]. eexists. split; [by left | exact Hs].
        -- right. split; [exact Hg |]. exists p. split; [by right | exact Hc].
      * intros [H | (Hg & p & [<- | Hp] & Hc)].
        -- left. by left.
        -- left. right. by split.
        -- right. split; [exact Hg |]. by exists p.
    + destruct (IH grid occupied (queue ++ [(widget, row_span, col_span)]))
        as (occupied1 & -> & Hocc).
      exists occupied1. rewrite <- app_assoc. by split.
    + destruct (IH grid occupied (queue ++ [(widget, row_span, col_span)]))
        as (occupied1 & -> & Hocc).
      exists occupied1. rewrite <- app_assoc. by split.
    + destruct (IH grid occupied (queue ++ [(widget, row_span, col_span)]))
        as (occupied1 & -> & Hocc).
      exists occupied1. rewrite <- app_assoc. by split.
Qed.

Lemma buttons_pass2 rows cols (auto_queue : list (W * Z * Z)) :
  forall (grid : list (@Placement W)) occupied,
  exists auto occupied2,
    fold_left (buttons_pass2_step rows cols) auto_queue (grid, occupied)
    = (grid ++ auto, occupied2)
    /\ Forall (fun p =>
                 Forall (fun cell => in_grid rows cols cell
                                     /\ (cell ∉ occupied))
                   (footprint p)) auto
    /\ ForallOrdPairs disjoint_placements auto
    /\ sublist (map placed_request auto) (map button_request auto_queue)
    /\ forall cell,
         cell ∈ occupied2
         <-> cell ∈ occupied
             \/ exists p, In p auto /\ In cell (footprint p).
Proof.
  induction auto_queue as [| entry rest IH]; intros grid occupied.
  - exists [], occupied. rewrite app_nil_r.
    split; [reflexivity |]. split; [constructor |].
    split; [constructor |]. split; [constructor |].
    intros cell. split; [by left | intros [H | (p & [] & _)]; exact H].
  - destruct entry as [[widget row_span] col_span].
    cbn [fold_left buttons_pass2_step].
    destruct (find_free_cell rows cols occupied row_span col_span)
      as [[r c] |] eqn:Hfind.
    + apply find_free_cell_fits in Hfind as (Hg & Hfree & Hspan).
      cbn [fst snd] in Hspan.
      set (p := mkPlacement (WidgetItem widget) r c row_span col_span).
      destruct (IH (grid ++ [p])
                  (mark_occupied rows cols occupied r c row_span col_span))
        as (auto & occupied2 & -> & Hin & Hdis & Hsub & Hocc).
      exists (p :: auto), occupied2. rewrite <- app_assoc.
      split; [reflexivity |].
      assert (Hlater : Forall (fun q => forall cell,
                                  In cell (footprint q) ->
                                  in_grid rows cols cell
                                  /\ (cell ∉ occupied)
                                  /\ ~ In cell (footprint p)) auto).
      { eapply Forall_impl; [exact Hin |]. intros q Hq cell Hc.
        rewrite List.Forall_forall in Hq. destruct (Hq cell Hc) as [Hgc Hn].
        split; [exact Hgc |]. split.
        - intros Ho. apply Hn, mark_occupied_spec. by left.
        - intros Hp. apply Hn, mark_occupied_spec. right. by split. }
      split; [| split; [| split]].
      * constructor; [exact Hspan |].
        eapply Forall_impl; [exact Hlater |]. intros q Hq.
        apply List.Forall_forall. intros cell Hc.
        destruct (Hq cell Hc) as (? & ? & _). by split.
      * constructor; [| exact Hdis].
        eapply Forall_impl; [exact Hlater |]. intros q Hq cell Hp Hc.
        by destruct (Hq cell Hc) as (_ & _ & Hn).
      * cbn [map button_request]. by apply sublist_skip.
      * intros cell. rewrite Hocc, mark_occupied_spec. split.
        -- intros [[H | [Hs _]] | (q & Hq & Hc)].
           ++ by left.
           ++ right. exists p. split; [by left | exact Hs].
           ++ right. exists q. split; [by right | exact Hc].
        -- intros [H | (q & [<- | Hq] & Hc)].
           ++ left. by left.
           ++ left. right. split; [exact Hc |].
              rewrite List.Forall_forall in Hspan.
              by destruct (Hspan cell Hc).
           ++ right. by exists q.
    + destruct (IH grid occupied)
        as (auto & occupied2 & -> & Hin & Hdis & Hsub & Hocc).
      exists auto, occupied2. split; [reflexivity |].
      split; [exact Hin |]. split; [exact Hdis |]. split; [| exact Hocc].
      cbn [map]. by apply sublist_cons.
Qed.

Lemma buttons_pass3 (l : list (Z * Z)) :
  List.NoDup l ->
  forall (grid : list (@Placement W)) occupied,
  exists occupied3,
    fold_left buttons_pass3_step l (grid, occupied)
    = (grid ++ map button_placeholder_at
                 (List.filter
                    (fun cell => negb (bool_decide (cell ∈ occupied))) l),
       occupied3)
    /\ forall cell, cell ∈ occupied3 <-> cell ∈ occupied \/ In cell l.
Proof.
  induction 1 as [| [r c] l Hnew Hnodup IH]; intros grid occupied.
  - exists occupied. cbn. rewrite app_nil_r. split; [reflexivity |].
    intros cell. split; [by left | by intros [H | []]].
  - cbn [fold_left buttons_pass3_step List.filter].
    destruct (bool_decide ((r, c) ∈ occupied)) eqn:Hocc; cbn [negb].
    + destruct (IH grid occupied) as (occupied3 & -> & H3).
      exists occupied3. split; [reflexivity |].
      intros cell. rewrite H3. apply bool_decide_eq_true in Hocc.
      split; [intros [H | H]; [by left | right; by right] |].
      intros [H | [<- | H]]; [by left | by left | by right].
    + destruct (IH (grid ++ [mkPlacement
                               (PlaceholderItem "ActionButtonConfig" r c)
                               r c 1 1])
                  ({[ (r, c) ]} ∪ occupied)) as (occupied3 & -> & H3).
      exists occupied3. split.
      * rewrite <- app_assoc. cbn [map app]. f_equal. f_equal.
        f_equal. f_equal. apply filter_ext_in. intros cell Hc. f_equal.
        apply bool_decide_ext. rewrite elem_of_union, elem_of_singleton.
        split; [intros [-> | H]; [contradiction | exact H] | by right].
      * intros cell. rewrite H3, elem_of_union, elem_of_singleton.
        split.
        -- intros [[-> | H] | H]; [right; by left | by left |
                                   right; by right].
        -- intros [H | [<- | H]]; [left; by right | left; by left |
                                   by right].
Qed.
End ActionGridPasses.

(** X21. Without placeholders the action grid holds the explicitly
    positioned buttons in their order, followed by the automatically placed
    ones: these are buttons of the queue in the queue's order (a button that
    fits nowhere is left out), the cells of each one's span lie inside the
    grid on cells no explicit button covers, and no two of them cover a
    common cell.  The occupied cells are the grid cells some button
    covers. *)
Theorem auto_buttons_never_overlap {W : Type} (rows cols : Z)
    (action_buttons : list (@ButtonInput W)) :
  exists auto occupied,
    _create_action_grid rows cols false action_buttons
    = (explicit_buttons action_buttons ++ auto, occupied)
    /\ Forall (fun p =>
                 Forall (fun cell =>
                           in_grid rows cols cell
                           /\ ~ covered rows cols
                                  (explicit_buttons action_buttons) cell)
                   (footprint p)) auto
    /\ ForallOrdPairs disjoint_placements auto
    /\ sublist (map placed_request auto)
         (map button_request (auto_buttons action_buttons))
    /\ forall cell,
         cell ∈ occupied
         <-> covered rows cols (explicit_buttons action_buttons ++ auto)
               cell.
Proof.
  unfold _create_action_grid.
  destruct (buttons_pass1 rows cols action_buttons [] ∅ [])
    as (occupied1 & -> & H1).
  cbn [app].
  destruct (buttons_pass2 rows cols (auto_buttons action_buttons)
              (explicit_buttons action_buttons) occupied1)
    as (auto & occupied2 & -> & Hin & Hdis & Hsub & H2).
  exists auto, occupied2. split; [reflexivity |].
  split; [| split; [exact Hdis | split; [exact Hsub |]]].
  - eapply Forall_impl; [exact Hin |]. intros p Hp.
    eapply Forall_impl; [exact Hp |]. intros cell [Hg Hn].
    split; [exact Hg |]. intros Hc. apply Hn, H1. by right.
  - intros cell. rewrite H2, H1. unfold covered. split.
    + intros [[H | (Hg & p & Hp & Hc)] | (p & Hp & Hc)].
      * by apply not_elem_of_empty in H.
      * split; [exact Hg |]. exists p. split; [| exact Hc].
        apply in_or_app. by left.
      * rewrite List.Forall_forall in Hin. specialize (Hin p Hp).
        rewrite List.Forall_forall in Hin. destruct (Hin cell Hc) as [Hg _].
        split; [exact Hg |]. exists p. split; [| exact Hc].
        apply in_or_app. by right.
    + intros (Hg & p & Hp & Hc). apply in_app_or in Hp as [Hp | Hp].
      * left. right. split; [exact Hg |]. by exists p.
      * right. by exists p.
Qed.

(** X22. With placeholders the action grid is the grid built without them
    followed by one placeholder on every cell of the grid that was left
    free, row by row; afterwards the occupied cells are exactly the cells
    of the grid. *)
Theorem placeholders_fill_action_grid {W : Type} (rows cols : Z)
    (action_buttons : list (@ButtonInput W)) :
  let placed := fst (_create_action_grid rows cols false action_buttons) in
  let occupied := snd (_create_action_grid rows cols false action_buttons) in
  let empty :=
    List.filter (fun cell => negb (bool_decide (cell ∈ occupied)))
      (cells rows cols) in
  fst (_create_action_grid rows cols true action_buttons)
  = placed ++ map button_placeholder_at empty
  /\ List.NoDup empty
  /\ (forall cell,
        In cell empty <-> in_grid rows cols cell /\ (cell ∉ occupied))
  /\ (forall cell,
        cell ∈ snd (_create_action_grid rows cols true action_buttons)
        <-> in_grid rows cols cell).
Proof.
  unfold _create_action_grid.
  destruct (buttons_pass1 rows cols action_buttons [] ∅ [])
    as (occupied1 & -> & H1).
  cbn [app].
  destruct (buttons_pass2 rows cols (auto_buttons action_buttons)
              (explicit_buttons action_buttons) occupied1)
    as (auto & occupied2 & -> & Hin & _ & _ & H2).
  destruct (buttons_pass3 (cells rows cols) (NoDup_cells rows cols)
              (explicit_buttons action_buttons ++ auto) occupied2)
    as (occupied3 & -> & H3).
  cbn [fst snd]. split; [reflexivity |].
  split; [apply List.NoDup_filter, NoDup_cells |]. split.
  - intros cell. rewrite filter_In, negb_true_iff, bool_decide_eq_false.
    by rewrite in_cells.
  - intros cell. rewrite H3, in_cells, H2, H1. split; [| by right].
    intros [[[H | [Hg _]] | (p & Hp & Hc)] | Hg]; try assumption.
    + by apply not_elem_of_empty in H.
    + rewrite List.Forall_forall in Hin. specialize (Hin p Hp).
      rewrite List.Forall_forall in Hin. by destruct (Hin cell Hc).
Qed.
